(** * Parallel Research Kernels, C++11: transpose-ranges and stencil-vector-tbb

  A shallow embedding of the two benchmark programs
  [Cxx11/transpose-ranges.cc] and [Cxx11/stencil-vector-tbb.cc].

  - C++ [int] values are integers in [Z]; arithmetic that can leave the
    32-bit range on inputs the programs accept is written with its
    two's-complement wrap-around ([Int.wrap]).
  - C++ [double] values are IEEE 754 binary64 numbers, taken from the
    Standard Library's executable specification [SpecFloat]
    (precision 53, maximal exponent 1024, round to nearest even).
  - [std::vector<double>] and [prk::vector<double>] are lists indexed with
    stdpp's lookup and insert; an access outside the vector is undefined
    behaviour in C++ and makes the embedded operation return [None].
  - prk_util.h and stencil_tbb.hpp are not among the sources: the maximal
    matrix size and the stencil weights are parameters, the stencil body
    follows the specification.
  - Standard output is a list of structured lines; timing (wall-clock) is
    not modelled, the rate line is a token of its own. *)

From Stdlib Require Import ZArith List Lia Zpower NArith Ascii String.
From Stdlib Require Import Floats.SpecFloat.
From stdpp Require Import base option list strings pretty.

Local Open Scope Z_scope.

(** ** 32-bit [int] and 64-bit [size_t] arithmetic *)

Module Int.
Definition INT_MAX : Z := 2147483647.
Definition INT_MIN : Z := -2147483648.
Definition LONG_MAX : Z := 9223372036854775807.
Definition LONG_MIN : Z := -9223372036854775808.

(** Two's-complement reduction into [INT_MIN, INT_MAX]. *)
Definition wrap (z : Z) : Z := (z + 2 ^ 31) mod 2 ^ 32 - 2 ^ 31.

Definition add (a b : Z) : Z := wrap (a + b).
Definition sub (a b : Z) : Z := wrap (a - b).
Definition mul (a b : Z) : Z := wrap (a * b).

(** [static_cast<size_t>] of an [int], and [size_t] multiplication. *)
Definition to_size_t (z : Z) : Z := z mod 2 ^ 64.
Definition size_mul (a b : Z) : Z := (a * b) mod 2 ^ 64.

Definition in_range (z : Z) : Prop := INT_MIN <= z <= INT_MAX.
End Int.

(** ** [std::atoi]

  Leading white space is skipped, an optional sign is read, then decimal
  digits up to the first other character; no digits give 0.  As in glibc,
  the value is that of [strtol] (saturating at the bounds of [long])
  converted to [int]. *)

Module Atoi.
Definition is_space (c : ascii) : bool :=
  let n := Ascii.N_of_ascii c in
  (n =? 32)%N || ((9 <=? n)%N && (n <=? 13)%N).

Definition is_digit (c : ascii) : bool :=
  let n := Ascii.N_of_ascii c in (48 <=? n)%N && (n <=? 57)%N.

Definition digit (c : ascii) : Z := Z.of_N (Ascii.N_of_ascii c) - 48.

Fixpoint skip_space (s : string) : string :=
  match s with
  | String c s' => if is_space c then skip_space s' else s
  | EmptyString => s
  end.

Fixpoint digits (s : string) (acc : Z) : Z :=
  match s with
  | String c s' => if is_digit c then digits s' (10 * acc + digit c) else acc
  | EmptyString => acc
  end.

Definition strtol (s : string) : Z :=
  let v :=
    match skip_space s with
    | String "-" s' => - digits s' 0
    | String "+" s' => digits s' 0
    | s' => digits s' 0
    end in
  Z.max Int.LONG_MIN (Z.min Int.LONG_MAX v).

Definition atoi (s : string) : Z := Int.wrap (strtol s).
End Atoi.

(** ** IEEE 754 binary64 *)

Module B64.
Definition prec : Z := 53.
Definition emax : Z := 1024.

Definition double : Type := spec_float.

(** Conversion of an integer ([static_cast<double>], the usual arithmetic
    conversions, integer-valued literals). *)
Definition of_Z (n : Z) : double := binary_normalize prec emax n 0 false.

Definition add : double -> double -> double := SFadd prec emax.
Definition sub : double -> double -> double := SFsub prec emax.
Definition mul : double -> double -> double := SFmul prec emax.
Definition div : double -> double -> double := SFdiv prec emax.
Definition fabs : double -> double := SFabs.
Definition ltb : double -> double -> bool := SFltb.

(** The literal [1.0e-8]: bits 0x3E45798EE2308C3A. *)
Definition epsilon : double := S754_finite false 6044629098073146 (-79).

(** The canonical binary64 number of value [n * 2 ^ g], for an integer
    [0 < n < 2 ^ 53]. *)
Definition canon (s : bool) (n g : Z) : double :=
  S754_finite s (Z.to_pos (n * 2 ^ (53 - Zdigits2 n))) (Zdigits2 n - 53 + g).
End B64.

(** ** Vectors of doubles, loops and program output *)

Module Prog.
Abbreviation vec := (list B64.double).

(** [v[k]] as an rvalue and [v[k] = x]; [None] outside the vector. *)
Definition vget (v : vec) (k : Z) : option B64.double :=
  if k <? 0 then None else v !! Z.to_nat k.

Definition vset (v : vec) (k : Z) (x : B64.double) : option vec :=
  if (0 <=? k) && (k <? Z.of_nat (length v))
  then Some (<[Z.to_nat k := x]> v) else None.

(** A range-based [for] (or [std::for_each]) over [xs], threading the
    program state through the body. *)
Fixpoint for_each {S X : Type} (xs : list X) (body : S -> X -> option S)
    (s : S) : option S :=
  match xs with
  | [] => Some s
  | x :: xs' => s' ← body s x; for_each xs' body s'
  end.

(** [argv[k]] *)
Definition arg (argv : list string) (k : nat) : string := nth k argv EmptyString.

(** Row-major index [i*n+j], computed in [int]. *)
Definition idx (n i j : Z) : Z := Int.add (Int.mul i n) j.

Inductive line : Type :=
| Version                                  (* banner with PRKVERSION *)
| Text (s : string)                        (* a literal line *)
| Param (label : string) (v : Z)           (* label followed by an int *)
| ParamS (label : string) (v : string)     (* label followed by a string *)
| Rate (label : string)                    (* rate and average time *)
| Discrepancy (label1 : string) (x : B64.double)
              (label2 : string) (y : B64.double).

Record result : Type := {
  stdout : list line;
  stderr : list line;
  exit_code : Z;
  (* final contents of A and B, [None] when they were never allocated *)
  arrays : option (vec * vec)
}.
End Prog.

(** ** transpose-ranges.cc *)

Module Transpose.
Import Prog.

Record config : Type := { iterations : Z; order : Z; tile_size : Z }.

(** Argument processing, lines 73-102.  [max_matrix_size] stands for
    [prk::get_max_matrix_size()], declared in prk_util.h. *)
Definition configure (max_matrix_size : Z) (argv : list string)
    : string + config :=
  let argc := Z.of_nat (length argv) in
  if argc <? 3 then inl "Usage: <# iterations> <matrix order> [tile size]"%string
  else
    let iterations := Atoi.atoi (arg argv 1) in
    if iterations <? 1 then inl "ERROR: iterations must be >= 1"%string
    else
      let order := Atoi.atoi (arg argv 2) in
      if order <=? 0 then inl "ERROR: Matrix Order must be greater than 0"%string
      else if order >? max_matrix_size
      then inl "ERROR: matrix dimension too large - overflow risk"%string
      else
        let tile_size := if argc >? 3 then Atoi.atoi (arg argv 3) else order in
        let tile_size := if tile_size <=? 0 then order else tile_size in
        if (tile_size <? order) && negb (Z.rem order tile_size =? 0)
        then inl "ERROR: tile size must evenly divide order"%string
        else inr {| iterations := iterations; order := order;
                    tile_size := tile_size |}.

(** [std::iota(first, last, value)]: store [value], then [++value]. *)
Fixpoint iota_fill (len : nat) (value : B64.double) : vec :=
  match len with
  | O => []
  | S len' => value :: iota_fill len' (B64.add value (B64.of_Z 1))
  end.

(** range-v3 views: [iota(lo, hi)], [stride_view(rng, n)] (the elements at
    positions 0, n, 2n, ...) and [cartesian_product] (last range fastest). *)
Definition iota (lo hi : Z) : list Z := seqZ lo (hi - lo).

Definition stride (rng : list Z) (n : Z) : list Z :=
  omap (fun q : nat => rng !! (q * Z.to_nat n)%nat) (seq 0 (length rng)).

Definition cartesian_product (xs ys : list Z) : list (Z * Z) :=
  x ← xs; y ← ys; [(x, y)].

(** Modelled from the spec: prk::range is declared in prk_util.h, which is
    not among the sources; [prk::range(0, order)] is the integer range
    0, 1, ..., order-1 over which the verifier visits each cell. *)
Definition range (lo hi : Z) : list Z := seqZ lo (hi - lo).

(** Modelled from the spec: prk::abs is declared in prk_util.h, which is not
    among the sources; the verifier sums the absolute deviation. *)
Definition prk_abs (x : B64.double) : B64.double := B64.fabs x.

(** The loop body: [B[bi] += A[ai]; A[ai] += 1.0;] *)
Definition body (st : vec * vec) (bi ai : Z) : option (vec * vec) :=
  let '(A, B) := st in
  a ← vget A ai;
  b ← vget B bi;
  B' ← vset B bi (B64.add b a);
  a' ← vget A ai;
  A' ← vset A ai (B64.add a' (B64.of_Z 1));
  Some (A', B').

(** Lines 168-172, the untiled branch. *)
Definition untiled (order : Z) (st : vec * vec) : option (vec * vec) :=
  let v := cartesian_product (iota 0 order) (iota 0 order) in
  for_each v (fun st '(i, j) => body st (idx order i j) (idx order j i)) st.

(** Lines 151-158, the tiled branch. *)
Definition tiled (order tile_size : Z) (st : vec * vec) : option (vec * vec) :=
  let s := cartesian_product (stride (iota 0 order) tile_size)
                             (stride (iota 0 order) tile_size) in
  let t := cartesian_product (iota 0 tile_size) (iota 0 tile_size) in
  for_each s (fun st '(it, jt) =>
    for_each t (fun st '(i, j) =>
      body st (idx order (Int.add it i) (Int.add jt j))
              (idx order (Int.add jt j) (Int.add it i))) st) st.

(** One trip through the loop of line 136. *)
Definition pass (c : config) (st : vec * vec) : option (vec * vec) :=
  if tile_size c <? order c then tiled (order c) (tile_size c) st
  else untiled (order c) st.

(** [passes k]: the compute loop run [k] times. *)
Definition passes (c : config) (k : N) (st : vec * vec) : option (vec * vec) :=
  N.iter k (fun ost => ost ≫= pass c) (Some st).

(** [for (int iter = 0; iter<=iterations; iter++)]: [iterations+1] trips.
    With [iterations = INT_MAX] the test never fails and [iter++] overflows:
    the loop has no defined result. *)
Definition compute_loop (c : config) (st : vec * vec) : option (vec * vec) :=
  if iterations c =? Int.INT_MAX then None
  else passes c (Z.to_N (iterations c + 1)) st.

(** Lines 114-118. *)
Definition allocate (c : config) : vec * vec :=
  let size := Z.to_nat (Int.mul (order c) (order c)) in
  (iota_fill size (B64.of_Z 0), replicate size (B64.of_Z 0)).

(** Lines 183-194: the reference value of a cell and the summed deviation. *)
Definition addit (c : config) : B64.double :=
  B64.mul (B64.add (B64.of_Z (iterations c)) (B64.of_Z 1))
          (B64.div (B64.of_Z (iterations c)) (B64.of_Z 2)).

Definition reference (c : config) (ij : Z) : B64.double :=
  B64.add (B64.mul (B64.of_Z ij)
                   (B64.add (B64.of_Z 1) (B64.of_Z (iterations c))))
          (addit c).

Definition verify (c : config) (B : vec) : option B64.double :=
  for_each (range 0 (order c)) (fun abserr i =>
    for_each (range 0 (order c)) (fun abserr j =>
      let ij := idx (order c) i j in
      let ji := idx (order c) j i in
      b ← vget B ji;
      Some (B64.add abserr (prk_abs (B64.sub b (reference c ij)))))
      abserr) (B64.of_Z 0).

Definition banner : list line :=
  [Version; Text "C++11/ranges Matrix transpose: B = A^T"].

Definition echo (c : config) : list line :=
  [Param "Number of iterations = " (iterations c);
   Param "Matrix order         = " (order c);
   Param "Tile size            = " (tile_size c)].

(** The program; [None] stands for a run without a defined result (an
    access outside a vector, the loop counter overflowing). *)
Definition main (max_matrix_size : Z) (argv : list string) : option result :=
  match configure max_matrix_size argv with
  | inl e =>
      Some {| stdout := banner ++ [Text e]; stderr := []; exit_code := 1;
              arrays := None |}
  | inr c =>
      '(A, B) ← compute_loop c (allocate c);
      abserr ← verify c B;
      if B64.ltb abserr B64.epsilon
      then Some {| stdout := banner ++ echo c
                     ++ [Text "Solution validates"; Rate "Rate (MB/s): "];
                   stderr := []; exit_code := 0; arrays := Some (A, B) |}
      else Some {| stdout := banner ++ echo c
                     ++ [Discrepancy "ERROR: Aggregate squared error " abserr
                                     " exceeds threshold " B64.epsilon];
                   stderr := []; exit_code := 1; arrays := Some (A, B) |}
  end.

(** The index pairs visited by one trip, in the order of the visit. *)
Definition untiled_cells (order : Z) : list (Z * Z) :=
  cartesian_product (iota 0 order) (iota 0 order).

Definition tiled_cells (order tile_size : Z) : list (Z * Z) :=
  '(it, jt) ← cartesian_product (stride (iota 0 order) tile_size)
                                (stride (iota 0 order) tile_size);
  '(i, j) ← cartesian_product (iota 0 tile_size) (iota 0 tile_size);
  [(Int.add it i, Int.add jt j)].
End Transpose.

(** ** stencil-vector-tbb.cc *)

Module Stencil.
Import Prog.

Record config : Type := {
  iterations : Z; n : Z; tile_size : Z; star : bool; radius : Z
}.

(** [std::floor(std::sqrt(INT_MAX))] *)
Definition max_dimension : Z := Z.sqrt Int.INT_MAX.

(** Argument processing, lines 158-204. *)
Definition resolve_tile_size (argv : list string) (n : Z) : Z :=
  if Z.of_nat (length argv) >? 3
  then let t := Atoi.atoi (arg argv 3) in
       if (t <? 1) || (t >? n) then n else t
  else 32.

Definition resolve_star (argv : list string) : bool :=
  if Z.of_nat (length argv) >? 4
  then (if String.eqb (arg argv 4) "grid" then false else true)
  else true.

Definition resolve_radius (argv : list string) : Z :=
  if Z.of_nat (length argv) >? 5 then Atoi.atoi (arg argv 5) else 2.

Definition configure (argv : list string) : string + config :=
  let argc := Z.of_nat (length argv) in
  if argc <? 3
  then inl "Usage: <# iterations> <array dimension> [tile_size] [<star/grid> <radius>]"%string
  else
    let iterations := Atoi.atoi (arg argv 1) in
    if iterations <? 1 then inl "ERROR: iterations must be >= 1"%string
    else
      let n := Atoi.atoi (arg argv 2) in
      if n <? 1 then inl "ERROR: grid dimension must be positive"%string
      else if n >? max_dimension
      then inl "ERROR: grid dimension too large - overflow risk"%string
      else
        let tile_size := resolve_tile_size argv n in
        let star := resolve_star argv in
        let radius := resolve_radius argv in
        if (radius <? 1) || (Int.add (Int.mul 2 radius) 1 >? n)
        then inl "ERROR: Stencil radius negative or too large"%string
        else inr {| iterations := iterations; n := n; tile_size := tile_size;
                    star := star; radius := radius |}.

(** [tbb::blocked_range2d<int>]: a rectangle of rows and columns (the grain
    sizes only steer how TBB splits it). *)
Record blocked_range2d : Type := {
  rows_begin : Z; rows_end : Z; cols_begin : Z; cols_end : Z
}.

Definition rows (r : blocked_range2d) : list Z :=
  seqZ (rows_begin r) (rows_end r - rows_begin r).
Definition cols (r : blocked_range2d) : list Z :=
  seqZ (cols_begin r) (cols_end r - cols_begin r).

(** [tbb::parallel_for(r, body)] splits [r] into disjoint rectangles that
    cover it and calls [body] on each; every body below acts cell by cell
    on cells of its rectangle only, so one call on the whole of [r] has the
    same effect.  An empty range calls nothing. *)
Definition parallel_for {S : Type} (r : blocked_range2d)
    (body : blocked_range2d -> S -> option S) (s : S) : option S :=
  body r s.

(** [Initialize::operator()], lines 79-86. *)
Definition Initialize (n_ : Z) (r : blocked_range2d) (st : vec * vec)
    : option (vec * vec) :=
  for_each (rows r) (fun st i =>
    for_each (cols r) (fun '(A_, B_) j =>
      A' ← vset A_ (idx n_ i j) (B64.of_Z (Int.add i j));
      B' ← vset B_ (idx n_ i j) (B64.of_Z 0);
      Some (A', B')) st) st.

(** [Add::operator()], lines 100-106. *)
Definition Add (n_ : Z) (r : blocked_range2d) (A_ : vec) : option vec :=
  for_each (rows r) (fun A_ i =>
    for_each (cols r) (fun A_ j =>
      a ← vget A_ (idx n_ i j);
      vset A_ (idx n_ i j) (B64.add a (B64.of_Z 1))) A_) A_.

Definition ParallelInitialize (n tile_size : Z) (st : vec * vec)
    : option (vec * vec) :=
  parallel_for {| rows_begin := 0; rows_end := n;
                  cols_begin := 0; cols_end := n |} (Initialize n) st.

Definition ParallelAdd (n tile_size : Z) (A : vec) : option vec :=
  parallel_for {| rows_begin := 0; rows_end := n;
                  cols_begin := 0; cols_end := n |} (Add n) A.

Section Kernel.
(** The weight of the neighbour at offset [(di, dj)] for a shape (star:
    [true]) and radius.  stencil_tbb.hpp, which holds the weights, is not
    among the sources and the specification gives no values for them. *)
Variable weight : bool -> Z -> Z -> Z -> B64.double.

(** Modelled from the spec: the specialisations [Star<radius>] and
    [Grid<radius>] of stencil_tbb.hpp are not among the sources.  Star:
    the [4*radius+1] neighbour offsets along the two axes. *)
Definition star_offsets (radius : Z) : list (Z * Z) :=
  (0, 0) :: (d ← seqZ 1 radius; [(- d, 0); (d, 0); (0, - d); (0, d)]).

(** Modelled from the spec: Grid, all [(2*radius+1)^2] cells of the
    bounding box (stencil_tbb.hpp is not among the sources). *)
Definition grid_offsets (radius : Z) : list (Z * Z) :=
  di ← seqZ (- radius) (2 * radius + 1);
  dj ← seqZ (- radius) (2 * radius + 1);
  [(di, dj)].

Definition offsets (star : bool) (radius : Z) : list (Z * Z) :=
  if star then star_offsets radius else grid_offsets radius.

(** Modelled from the spec: the body of [Star<radius>] and [Grid<radius>]
    (stencil_tbb.hpp is not among the sources).  For every output cell
    [(i,j)] of its range, [B[i,j] += sum of weight[k] * A[i+di_k, j+dj_k]]
    over the neighbour offsets of the shape; [A] is only read. *)
Definition weighted_sum (star : bool) (radius n_ : Z) (A_ : vec) (i j : Z)
    : option B64.double :=
  for_each (offsets star radius) (fun acc '(di, dj) =>
    a ← vget A_ (idx n_ (i + di) (j + dj));
    Some (B64.add acc (B64.mul (weight star radius di dj) a))) (B64.of_Z 0).

Definition kernel (star : bool) (radius n_ : Z) (A_ : vec)
    (r : blocked_range2d) (B_ : vec) : option vec :=
  for_each (rows r) (fun B_ i =>
    for_each (cols r) (fun B_ j =>
      s ← weighted_sum star radius n_ A_ i j;
      b ← vget B_ (idx n_ i j);
      vset B_ (idx n_ i j) (B64.add b s)) B_) B_.

(** [ParallelStar<radius>] and [ParallelGrid<radius>], lines 130-144. *)
Definition interior (radius n : Z) : blocked_range2d :=
  {| rows_begin := radius; rows_end := Int.sub n radius;
     cols_begin := radius; cols_end := Int.sub n radius |}.

Definition ParallelStar (radius n tile_size : Z) (A B : vec) : option vec :=
  parallel_for (interior radius n) (kernel true radius n A) B.

Definition ParallelGrid (radius n tile_size : Z) (A B : vec) : option vec :=
  parallel_for (interior radius n) (kernel false radius n A) B.

Definition not_instantiated (radius : Z) : line :=
  Param "Template not instantiated for radius " radius.

(** Lines 234-260: the switch over the radius; the result is the new [B]
    and what was written to [std::cerr]. *)
Definition apply_stencil (c : config) (A B : vec) : option (vec * list line) :=
  let n := n c in
  let tile_size := tile_size c in
  if star c then
    match radius c with
    | 1 => B' ← ParallelStar 1 n tile_size A B; Some (B', [])
    | 2 => B' ← ParallelStar 2 n tile_size A B; Some (B', [])
    | 3 => B' ← ParallelStar 3 n tile_size A B; Some (B', [])
    | 4 => B' ← ParallelStar 4 n tile_size A B; Some (B', [])
    | 5 => B' ← ParallelStar 5 n tile_size A B; Some (B', [])
    | 6 => B' ← ParallelStar 6 n tile_size A B; Some (B', [])
    | 7 => B' ← ParallelStar 7 n tile_size A B; Some (B', [])
    | 8 => B' ← ParallelStar 8 n tile_size A B; Some (B', [])
    | 9 => B' ← ParallelStar 9 n tile_size A B; Some (B', [])
    | _ => Some (B, [not_instantiated (radius c)])
    end
  else
    match radius c with
    | 1 => B' ← ParallelGrid 1 n tile_size A B; Some (B', [])
    | 2 => B' ← ParallelGrid 2 n tile_size A B; Some (B', [])
    | 3 => B' ← ParallelGrid 3 n tile_size A B; Some (B', [])
    | 4 => B' ← ParallelGrid 4 n tile_size A B; Some (B', [])
    | 5 => B' ← ParallelGrid 5 n tile_size A B; Some (B', [])
    | 6 => B' ← ParallelGrid 6 n tile_size A B; Some (B', [])
    | 7 => B' ← ParallelGrid 7 n tile_size A B; Some (B', [])
    | 8 => B' ← ParallelGrid 8 n tile_size A B; Some (B', [])
    | 9 => B' ← ParallelGrid 9 n tile_size A B; Some (B', [])
    | _ => Some (B, [not_instantiated (radius c)])
    end.

(** The program state in the compute loop: [A], [B] and [std::cerr]. *)
Record state : Type := { st_A : vec; st_B : vec; st_err : list line }.

(** One trip through the loop of line 229: the stencil, then the increment
    of [A]. *)
Definition pass (c : config) (st : state) : option state :=
  '(B', w) ← apply_stencil c (st_A st) (st_B st);
  A' ← ParallelAdd (n c) (tile_size c) (st_A st);
  Some {| st_A := A'; st_B := B'; st_err := st_err st ++ w |}.

Definition passes (c : config) (k : N) (st : state) : option state :=
  N.iter k (fun ost => ost ≫= pass c) (Some st).

(** [for (auto iter = 0; iter<=iterations; iter++)]: [iterations+1] trips.
    With [iterations = INT_MAX] the test never fails and [iter++] overflows:
    the loop has no defined result. *)
Definition compute_loop (c : config) (st : state) : option state :=
  if iterations c =? Int.INT_MAX then None
  else passes c (Z.to_N (iterations c + 1)) st.

(** Lines 220-227. *)
Definition allocate (c : config) : vec * vec :=
  let size := Z.to_nat (Int.mul (n c) (n c)) in
  (replicate size (B64.of_Z 0), replicate size (B64.of_Z 0)).

Definition initial (c : config) : option state :=
  '(A, B) ← ParallelInitialize (n c) (tile_size c) (allocate c);
  Some {| st_A := A; st_B := B; st_err := [] |}.

(** Lines 270-283. *)
Definition active_points (c : config) : Z :=
  let w := Int.to_size_t (Int.sub (n c) (Int.mul 2 (radius c))) in
  Int.size_mul w w.

Definition l1_norm (c : config) (B : vec) : option B64.double :=
  norm ← for_each (seqZ (radius c) (Int.sub (n c) (radius c) - radius c))
    (fun norm i =>
      for_each (seqZ (radius c) (Int.sub (n c) (radius c) - radius c))
        (fun norm j =>
          b ← vget B (idx (n c) i j);
          Some (B64.add norm (B64.fabs b))) norm) (B64.of_Z 0);
  Some (B64.div norm (B64.of_Z (active_points c))).

Definition reference_norm (c : config) : B64.double :=
  B64.mul (B64.of_Z 2) (B64.add (B64.of_Z (iterations c)) (B64.of_Z 1)).

Definition banner : list line :=
  [Version; Text "C++11/TBB Stencil execution on 2D grid"].

Definition echo (c : config) : list line :=
  [Param "Number of iterations = " (iterations c);
   Param "Grid size            = " (n c);
   Param "Tile size            = " (tile_size c);
   ParamS "Type of stencil      = " (if star c then "star" else "grid");
   Param "Radius of stencil    = " (radius c);
   Text "Compact representation of stencil loop body"].

(** The program; [None] stands for a run without a defined result (an
    access outside a vector, the loop counter overflowing). *)
Definition main (argv : list string) : option result :=
  match configure argv with
  | inl e =>
      Some {| stdout := banner ++ [Text e]; stderr := []; exit_code := 1;
              arrays := None |}
  | inr c =>
      st0 ← initial c;
      st ← compute_loop c st0;
      norm ← l1_norm c (st_B st);
      if B64.ltb B64.epsilon (B64.fabs (B64.sub norm (reference_norm c)))
      then Some {| stdout := banner ++ echo c
                     ++ [Discrepancy "ERROR: L1 norm = " norm
                                     " Reference L1 norm = " (reference_norm c)];
                   stderr := st_err st; exit_code := 1;
                   arrays := Some (st_A st, st_B st) |}
      else Some {| stdout := banner ++ echo c
                     ++ [Text "Solution validates"; Rate "Rate (MFlops/s): "];
                   stderr := st_err st; exit_code := 0;
                   arrays := Some (st_A st, st_B st) |}
  end.
End Kernel.
End Stencil.

(** ** Vocabulary of the statements about transpose-ranges.cc *)

Module TransposeSpec.
Import Prog Transpose.

(** One trip over a list of index pairs, visited in order. *)
Definition visit (order : Z) (cells : list (Z * Z)) (st : vec * vec)
    : option (vec * vec) :=
  for_each cells (fun st '(i, j) => body st (idx order i j) (idx order j i)) st.

Definition in_matrix (order : Z) (c : Z * Z) : Prop :=
  0 <= c.1 < order /\ 0 <= c.2 < order.

(** The index pairs [cells] cover the matrix, each pair once. *)
Definition covers (order : Z) (cells : list (Z * Z)) : Prop :=
  NoDup cells /\ forall c, c ∈ cells <-> in_matrix order c.

(** What [configure] guarantees of an accepted configuration, with
    [prk::get_max_matrix_size()] at most [floor (sqrt INT_MAX)]. *)
Definition well_tiled (c : config) : Prop :=
  0 < order c <= 46340 /\ 0 < tile_size c
  /\ (tile_size c < order c -> Z.rem (order c) (tile_size c) = 0).

Definition valid (c : config) : Prop :=
  1 <= iterations c <= Int.INT_MAX /\ well_tiled c.

Definition sized (order : Z) (st : vec * vec) : Prop :=
  Z.of_nat (length st.1) = order * order /\ Z.of_nat (length st.2) = order * order.

(** [0 + 1 + ... + (k-1)] *)
Definition tri (k : Z) : Z := k * (k - 1) / 2.

(** The arrays after [k] trips, when every value is still exact:
    [A[c] = c + k] and [B[i,j] = k * (j*order+i) + (0 + ... + (k-1))]. *)
Definition exact_after (order k : Z) (st : vec * vec) : Prop :=
  sized order st /\
  forall i j, in_matrix order (i, j) ->
    vget st.1 (j * order + i) = Some (B64.of_Z (j * order + i + k))
    /\ vget st.2 (i * order + j) = Some (B64.of_Z (k * (j * order + i) + tri k)).

(** Outcomes and inputs used in the statements. *)
Definition validated (c : config) (A B : vec) : result :=
  {| stdout := banner ++ echo c
       ++ [Text "Solution validates"; Rate "Rate (MB/s): "];
     stderr := []; exit_code := 0; arrays := Some (A, B) |}.

Definition argv_small : list string := ["transpose"; "5"; "4"; "2"]%string.
Definition c_small : config := {| iterations := 5; order := 4; tile_size := 2 |}.

Definition argv_big : list string := ["transpose"; "134217730"; "1"]%string.
Definition c_big : config :=
  {| iterations := 134217730; order := 1; tile_size := 1 |}.

Definition tile_error : result :=
  {| stdout := banner ++ [Text "ERROR: tile size must evenly divide order"];
     stderr := []; exit_code := 1; arrays := None |}.

Definition argv_bad_tile : list string := ["transpose"; "5"; "4"; "3"]%string.
End TransposeSpec.

(** ** Vocabulary of the statements about stencil-vector-tbb.cc *)

Module StencilSpec.
Import Prog Stencil.

Definition in_grid (n : Z) (c : Z * Z) : Prop := 0 <= c.1 < n /\ 0 <= c.2 < n.

(** The state after [k] trips: both vectors keep their size and
    [A[i*n+j] = (i+j) + k]. *)
Definition A_after (n k : Z) (st : state) : Prop :=
  Z.of_nat (length (st_A st)) = n * n /\ Z.of_nat (length (st_B st)) = n * n
  /\ forall i j, in_grid n (i, j) ->
       vget (st_A st) (i * n + j) = Some (B64.of_Z (i + j + k)).

(** The radii for which the templates are instantiated (cases 1 to 9). *)
Definition instantiated (radius : Z) : bool := (1 <=? radius) && (radius <=? 9).

(** The cells of the whole grid, row by row. *)
Definition grid_cells (n : Z) : list (Z * Z) :=
  i ← seqZ 0 n; j ← seqZ 0 n; [(i, j)].

(** What [configure] guarantees of an accepted configuration. *)
Definition accepted (argv : list string) (c : config) : Prop :=
  1 <= iterations c <= Int.INT_MAX /\ 1 <= n c <= 46340 /\ 1 <= radius c
  /\ Int.add (Int.mul 2 (radius c)) 1 <= n c
  /\ c = {| iterations := Atoi.atoi (arg argv 1); n := Atoi.atoi (arg argv 2);
            tile_size := resolve_tile_size argv (Atoi.atoi (arg argv 2));
            star := resolve_star argv; radius := resolve_radius argv |}.

(** Outcomes and inputs used in the statements. *)
Definition w_zero (star : bool) (radius di dj : Z) : B64.double := B64.of_Z 0.
Definition argv_s : list string := ["stencil"; "2"; "5"; "1"; "star"; "2"]%string.
Definition c_s : config :=
  {| iterations := 2; n := 5; tile_size := 1; star := true; radius := 2 |}.

Definition argv_r10 : list string :=
  ["stencil"; "1"; "21"; "5"; "grid"; "10"]%string.
Definition c_r10 : config :=
  {| iterations := 1; n := 21; tile_size := 5; star := false; radius := 10 |}.

Definition argv_Grid : list string :=
  ["stencil"; "2"; "5"; "1"; "Grid"; "2"]%string.

Definition radius_error : result :=
  {| stdout := banner ++ [Text "ERROR: Stencil radius negative or too large"];
     stderr := []; exit_code := 1; arrays := None |}.

Definition argv_overflow : list string :=
  ["stencil"; "1"; "1"; "1"; "star"; "1073741824"]%string.
Definition c_overflow : config :=
  {| iterations := 1; n := 1; tile_size := 1; star := true;
     radius := 1073741824 |}.
End StencilSpec.

Module TileSizeSpec.
Definition argv_t7 : list string := ["transpose"; "1"; "4"; "7"]%string.
Definition c_t7 : Transpose.config :=
  {| Transpose.iterations := 1; Transpose.order := 4; Transpose.tile_size := 7 |}.
Definition argv_s100 : list string := ["stencil"; "1"; "100"]%string.
Definition c_s100 : Stencil.config :=
  {| Stencil.iterations := 1; Stencil.n := 100; Stencil.tile_size := 32;
     Stencil.star := true; Stencil.radius := 2 |}.
End TileSizeSpec.

(** ** Vocabulary of the statements about the verifier of transpose-ranges.cc *)

Module VerifierSpec.
Import Prog Transpose.

(** The verifier's reference value for the cell with row-major index [ij],
    as an integer. *)
Definition reference_value (c : config) (ij : Z) : Z :=
  ij * (1 + iterations c) + (iterations c + 1) * iterations c / 2.

(** The deviation of the cell [(i, j)] and the summed deviation of a [B]
    whose element [k] holds the integer [g k], over the cells in the
    verifier's order. *)
Definition cell_deviation (c : config) (g : Z -> Z) (ij : Z * Z) : Z :=
  Z.abs (g (ij.2 * order c + ij.1) - reference_value c (ij.1 * order c + ij.2)).

Definition deviation (c : config) (g : Z -> Z) : Z :=
  foldr Z.add 0 (cell_deviation c g <$> untiled_cells (order c)).
End VerifierSpec.

(** ** The counts behind the reported rates *)

Module Rate.
(** Lines 204-205 of transpose-ranges.cc: the bytes of one matrix and the
    bytes moved by one transposition, in [size_t] arithmetic. *)
Definition bytes (c : Transpose.config) : Z :=
  Int.size_mul (Int.size_mul (Int.to_size_t (Transpose.order c))
                             (Int.to_size_t (Transpose.order c))) 8.

Definition bytes_moved (c : Transpose.config) : Z := Int.size_mul 2 (bytes c).

(** Lines 294-295 of stencil-vector-tbb.cc: the number of points of the
    stencil, computed in [int] and converted to [size_t], and the floating
    point operations of one iteration, in [size_t] arithmetic. *)
Definition stencil_size (c : Stencil.config) : Z :=
  let radius := Stencil.radius c in
  Int.to_size_t
    (if Stencil.star c then Int.add (Int.mul 4 radius) 1
     else Int.mul (Int.add (Int.mul 2 radius) 1) (Int.add (Int.mul 2 radius) 1)).

Definition flops (c : Stencil.config) : Z :=
  Int.size_mul (Int.to_size_t (Int.size_mul 2 (stencil_size c) + 1))
               (Stencil.active_points c).
End Rate.

(** * Facts about the embedding *)

(** ** binary64 arithmetic is exact on small integers *)

Module B64Facts.
Import B64.

Lemma digits2_pos_log2 p : Z.pos (digits2_pos p) = Z.succ (Z.log2 (Z.pos p)).
Proof.
  induction p as [p IH|p IH|]; simpl; try reflexivity.
  - rewrite Pos2Z.inj_succ, IH. destruct p; simpl; lia.
  - rewrite Pos2Z.inj_succ, IH. destruct p; simpl; lia.
Qed.

Lemma Zdigits2_log2 n : 0 < n -> Zdigits2 n = Z.succ (Z.log2 n).
Proof. destruct n; try lia. intros _. apply digits2_pos_log2. Qed.

Lemma Zdigits2_bounds n : 0 < n -> 2 ^ (Zdigits2 n - 1) <= n < 2 ^ Zdigits2 n.
Proof.
  intros H. rewrite Zdigits2_log2 by assumption.
  replace (Z.succ (Z.log2 n) - 1) with (Z.log2 n) by lia.
  apply Z.log2_spec. assumption.
Qed.

Lemma Zdigits2_mul_pow2 n k : 0 < n -> 0 <= k -> Zdigits2 (n * 2 ^ k) = Zdigits2 n + k.
Proof.
  intros Hn Hk. rewrite !Zdigits2_log2; try assumption.
  - rewrite Z.log2_mul_pow2 by lia. lia.
  - apply Z.mul_pos_pos; [assumption|]. apply Z.pow_pos_nonneg; lia.
Qed.

Lemma Zdigits2_le_53 n : 0 < n < 2 ^ 53 -> 1 <= Zdigits2 n <= 53.
Proof.
  intros [H0 H1]. rewrite Zdigits2_log2 by assumption.
  pose proof (Z.log2_nonneg n).
  assert (Z.log2 n < 53); [|lia].
  apply Z.log2_lt_pow2; assumption.
Qed.

Lemma shr_1_double z : 0 < z ->
  shr_1 (Build_shr_record (2 * z) false false) = Build_shr_record z false false.
Proof. destruct z; try lia. reflexivity. Qed.

Lemma pow2_xO p : 2 ^ Z.pos p~0 = 2 ^ Z.pos p * 2 ^ Z.pos p.
Proof. rewrite Pos2Z.inj_xO, <- Z.pow_add_r by lia. f_equal. lia. Qed.

Lemma pow2_xI p : 2 ^ Z.pos p~1 = 2 * (2 ^ Z.pos p * 2 ^ Z.pos p).
Proof.
  rewrite Pos2Z.inj_xI, <- Z.pow_add_r, <- Z.pow_succ_r by lia. f_equal. lia.
Qed.

Lemma pow2_pos k : 0 <= k -> 0 < 2 ^ k.
Proof. intros. apply Z.pow_pos_nonneg; lia. Qed.

Lemma iter_shr_exact p : forall z, 0 < z ->
  SpecFloat.iter_pos shr_1 p (Build_shr_record (z * 2 ^ Z.pos p) false false)
  = Build_shr_record z false false.
Proof.
  induction p as [p IH|p IH|]; intros z Hz; cbn [SpecFloat.iter_pos].
  - rewrite pow2_xI.
    replace (z * (2 * (2 ^ Z.pos p * 2 ^ Z.pos p)))
      with (2 * (z * 2 ^ Z.pos p * 2 ^ Z.pos p)) by ring.
    pose proof (pow2_pos (Z.pos p) ltac:(lia)).
    rewrite shr_1_double, IH, IH; auto; nia.
  - rewrite pow2_xO, Z.mul_assoc.
    pose proof (pow2_pos (Z.pos p) ltac:(lia)).
    rewrite IH, IH; auto; nia.
  - rewrite Z.pow_1_r, Z.mul_comm. apply shr_1_double; auto.
Qed.

Lemma fexp_normal e : -1021 <= e -> fexp prec emax e = e - 53.
Proof. intros H. unfold fexp, emin, prec, emax. lia. Qed.

Lemma shr_fexp_exact m k e :
  0 < m -> Zdigits2 m = 53 -> 0 <= k -> -1074 <= e + k ->
  shr_fexp prec emax (m * 2 ^ k) e loc_Exact
  = (Build_shr_record m false false, e + k).
Proof.
  intros Hm Hd Hk He. unfold shr_fexp.
  rewrite Zdigits2_mul_pow2, Hd, fexp_normal by lia.
  replace (53 + k + e - 53 - e) with k by lia.
  simpl shr_record_of_loc. unfold shr.
  destruct k as [|p|p]; try lia.
  - rewrite Z.pow_0_r, Z.mul_1_r, Z.add_0_r. reflexivity.
  - rewrite iter_shr_exact by assumption. reflexivity.
Qed.

Lemma round_aux_exact s m k e :
  0 < m -> Zdigits2 m = 53 -> 0 <= k -> -1074 <= e + k <= 971 ->
  binary_round_aux prec emax s (m * 2 ^ k) e loc_Exact
  = S754_finite s (Z.to_pos m) (e + k).
Proof.
  intros Hm Hd Hk He. unfold binary_round_aux.
  rewrite shr_fexp_exact by lia. simpl shr_m. simpl loc_of_shr_record.
  simpl round_nearest_even.
  replace m with (m * 2 ^ 0) at 1 by (rewrite Z.pow_0_r; lia).
  rewrite shr_fexp_exact by lia. simpl shr_m.
  destruct m; try lia. rewrite Z.add_0_r.
  replace (e + k <=? emax - prec) with true; [reflexivity|].
  symmetry. apply Z.leb_le. unfold emax, prec. lia.
Qed.

Lemma canon_mantissa n : 0 < n < 2 ^ 53 ->
  0 < n * 2 ^ (53 - Zdigits2 n) /\ Zdigits2 (n * 2 ^ (53 - Zdigits2 n)) = 53.
Proof.
  intros Hn. pose proof (Zdigits2_le_53 n Hn).
  pose proof (pow2_pos (53 - Zdigits2 n) ltac:(lia)).
  split; [nia|]. rewrite Zdigits2_mul_pow2 by lia. lia.
Qed.

(** Rounding a positive integer multiple of a power of two. *)
Lemma round_aux_canon s (M : Z) e n k :
  0 < n < 2 ^ 53 -> M = n * 2 ^ k -> 53 - Zdigits2 n <= k ->
  -1074 <= Zdigits2 n - 53 + (e + k) <= 971 ->
  binary_round_aux prec emax s M e loc_Exact = canon s n (e + k).
Proof.
  intros Hn -> Hk He. pose proof (Zdigits2_le_53 n Hn).
  destruct (canon_mantissa n Hn) as [Hm Hd].
  replace (n * 2 ^ k) with (n * 2 ^ (53 - Zdigits2 n) * 2 ^ (k - (53 - Zdigits2 n))).
  - rewrite round_aux_exact by lia. unfold canon. f_equal. lia.
  - rewrite <- Z.mul_assoc, <- Z.pow_add_r by lia. do 2 f_equal. lia.
Qed.

Lemma iter_xO_pow2 p d : Z.pos (Pos.iter xO p d) = Z.pos p * 2 ^ Z.pos d.
Proof.
  induction d as [|d IH] using Pos.peano_ind.
  - simpl. lia.
  - rewrite Pos.iter_succ, Pos2Z.inj_xO, IH, Pos2Z.inj_succ, Z.pow_succ_r by lia. ring.
Qed.

Lemma shl_align_spec p e e' : e' <= e ->
  exists p', shl_align p e e' = (p', e') /\ Z.pos p' = Z.pos p * 2 ^ (e - e').
Proof.
  intros H. unfold shl_align. destruct (e' - e) as [|d|d] eqn:E; try lia.
  - exists p. replace e' with e by lia. rewrite Z.sub_diag, Z.pow_0_r. split; [reflexivity|lia].
  - exists (Pos.iter xO p d). split; [reflexivity|].
    rewrite iter_xO_pow2. do 2 f_equal. lia.
Qed.

Lemma of_Z_canon n : 0 < n < 2 ^ 53 -> of_Z n = canon false n 0.
Proof.
  intros Hn. pose proof (Zdigits2_le_53 n Hn) as Hd.
  destruct n as [|p|p]; try lia.
  unfold of_Z, binary_normalize, binary_round.
  change (Z.pos (digits2_pos p)) with (Zdigits2 (Z.pos p)).
  rewrite Z.add_0_r, fexp_normal by lia.
  destruct (shl_align_spec p 0 (Zdigits2 (Z.pos p) - 53)) as (q & -> & Hq); [lia|].
  rewrite (round_aux_canon false (Z.pos q) _ (Z.pos p) (53 - Zdigits2 (Z.pos p))); try lia.
  - f_equal. lia.
  - rewrite Hq. do 2 f_equal. lia.
Qed.

Lemma shl_align_ge p e e' : e <= e' -> shl_align p e e' = (p, e).
Proof. intros H. unfold shl_align. destruct (e' - e) eqn:E; try reflexivity. lia. Qed.

Lemma canon_pos s n g : 0 < n < 2 ^ 53 ->
  exists m, canon s n g = S754_finite s m (Zdigits2 n - 53 + g)
            /\ Z.pos m = n * 2 ^ (53 - Zdigits2 n).
Proof.
  intros Hn. destruct (canon_mantissa n Hn) as [Hm _].
  exists (Z.to_pos (n * 2 ^ (53 - Zdigits2 n))). split; [reflexivity|].
  apply Z2Pos.id. assumption.
Qed.

Lemma Zdigits2_mono a b : 0 < a <= b -> Zdigits2 a <= Zdigits2 b.
Proof.
  intros H. rewrite !Zdigits2_log2 by lia.
  pose proof (Z.log2_le_mono a b ltac:(lia)). lia.
Qed.

Lemma add_canon a b : 0 < a -> 0 < b -> a + b < 2 ^ 53 ->
  add (canon false a 0) (canon false b 0) = canon false (a + b) 0.
Proof.
  intros Ha Hb Hab.
  destruct (canon_pos false a 0) as (ma & -> & Hma); [lia|].
  destruct (canon_pos false b 0) as (mb & -> & Hmb); [lia|].
  pose proof (Zdigits2_le_53 a ltac:(lia)) as Hda.
  pose proof (Zdigits2_le_53 b ltac:(lia)) as Hdb.
  pose proof (Zdigits2_le_53 (a + b) ltac:(lia)) as Hdab.
  pose proof (Zdigits2_mono a (a + b) ltac:(lia)) as Hma'.
  pose proof (Zdigits2_mono b (a + b) ltac:(lia)) as Hmb'.
  unfold add, SFadd. rewrite !Z.add_0_r.
  set (ea := Zdigits2 a - 53) in *. set (eb := Zdigits2 b - 53) in *.
  set (ez := Z.min ea eb).
  destruct (shl_align_spec ma ea ez) as (ma' & -> & Hma2); [lia|].
  destruct (shl_align_spec mb eb ez) as (mb' & -> & Hmb2); [lia|].
  cbn [fst cond_Zopp]. rewrite <- Pos2Z.inj_add.
  assert (HM : Z.pos (ma' + mb') = (a + b) * 2 ^ (- ez)).
  { rewrite Pos2Z.inj_add, Hma2, Hmb2, Hma, Hmb, <- !Z.mul_assoc, <- !Z.pow_add_r by lia.
    replace (53 - Zdigits2 a + (ea - ez)) with (- ez) by lia.
    replace (53 - Zdigits2 b + (eb - ez)) with (- ez) by lia. ring. }
  unfold binary_normalize, binary_round.
  change (Z.pos (digits2_pos (ma' + mb'))) with (Zdigits2 (Z.pos (ma' + mb'))).
  rewrite HM, Zdigits2_mul_pow2, fexp_normal by lia.
  rewrite shl_align_ge by lia.
  rewrite (round_aux_canon false _ ez (a + b) (- ez)); try lia.
  f_equal. lia.
Qed.

Lemma mul_canon s1 s2 a b g1 g2 c h :
  0 < a < 2 ^ 53 -> 0 < b < 2 ^ 53 -> 0 < c < 2 ^ 53 -> 0 <= h ->
  a * b = c * 2 ^ h -> -900 <= g1 + g2 + h <= 900 ->
  mul (canon s1 a g1) (canon s2 b g2) = canon (xorb s1 s2) c (g1 + g2 + h).
Proof.
  intros Ha Hb Hc Hh Hab Hg.
  destruct (canon_pos s1 a g1) as (ma & -> & Hma); [lia|].
  destruct (canon_pos s2 b g2) as (mb & -> & Hmb); [lia|].
  pose proof (Zdigits2_le_53 a Ha) as Hda.
  pose proof (Zdigits2_le_53 b Hb) as Hdb.
  pose proof (Zdigits2_le_53 c Hc) as Hdc.
  assert (Hlog : Zdigits2 a + Zdigits2 b - 1 <= Zdigits2 c + h).
  { rewrite <- (Zdigits2_mul_pow2 c h), <- Hab by lia.
    rewrite !Zdigits2_log2 by nia.
    pose proof (Z.log2_mul_below a b ltac:(lia) ltac:(lia)). lia. }
  unfold mul, SFmul.
  rewrite (round_aux_canon (xorb s1 s2) _ _ c (106 - Zdigits2 a - Zdigits2 b + h));
    try lia.
  - f_equal. lia.
  - rewrite Pos2Z.inj_mul, Hma, Hmb.
    replace (106 - Zdigits2 a - Zdigits2 b + h)
      with (h + ((53 - Zdigits2 a) + (53 - Zdigits2 b))) by lia.
    rewrite !Z.pow_add_r by lia.
    transitivity (a * b * (2 ^ (53 - Zdigits2 a) * 2 ^ (53 - Zdigits2 b))); [ring|].
    rewrite Hab. ring.
Qed.

Lemma div2_canon a : 0 < a < 2 ^ 53 ->
  div (canon false a 0) (of_Z 2) = canon false a (-1).
Proof.
  intros Ha. pose proof (Zdigits2_le_53 a Ha) as Hda.
  destruct (canon_mantissa a Ha) as [Hm Hd].
  destruct (canon_pos false a (-1) Ha) as (m' & -> & Hm').
  destruct (canon_pos false a 0 Ha) as (ma & -> & Hma).
  assert (m' = ma) as -> by lia.
  change (of_Z 2) with (S754_finite false 4503599627370496 (-51)).
  unfold div, SFdiv, SFdiv_core_binary. cbn [xorb].
  rewrite Hma, Hd. change (Zdigits2 (Z.pos 4503599627370496)) with 53.
  rewrite Z.add_0_r.
  replace (53 + (Zdigits2 a - 53) - (53 + -51)) with (Zdigits2 a - 53 + 51) by lia.
  rewrite fexp_normal by lia.
  rewrite Z.min_l by lia.
  replace (Zdigits2 a - 53 - -51 - (Zdigits2 a - 53 + 51 - 53)) with 53 by lia.
  rewrite <- Hma.
  rewrite Z.shiftl_mul_pow2 by lia.
  assert (E : Z.div_eucl (Z.pos ma * 2 ^ 53) (Z.pos 4503599627370496) = (Z.pos ma * 2 ^ 1, 0)).
  { pose proof (Z.div_eucl_eq (Z.pos ma * 2 ^ 53) (Z.pos 4503599627370496) ltac:(lia)) as E.
    pose proof (Z.mod_pos_bound (Z.pos ma * 2 ^ 53) (Z.pos 4503599627370496) ltac:(lia)) as Hb.
    unfold Z.modulo in Hb.
    destruct (Z.div_eucl (Z.pos ma * 2 ^ 53) (Z.pos 4503599627370496)) as [q r].
    change (2 ^ 53) with (4503599627370496 * 2) in E.
    f_equal; lia. }
  rewrite E. change (new_location (Z.pos 4503599627370496) 0) with loc_Exact.
  rewrite round_aux_exact; try lia.
  - rewrite Pos2Z.id. f_equal. lia.
  - rewrite Hma. assumption.
Qed.

Lemma of_Z_0 : of_Z 0 = S754_zero false.
Proof. reflexivity. Qed.

(** Sums of non-negative integers below [2 ^ 53] are computed exactly. *)
Lemma add_of_Z a b : 0 <= a -> 0 <= b -> a + b < 2 ^ 53 ->
  add (of_Z a) (of_Z b) = of_Z (a + b).
Proof.
  intros Ha Hb Hab.
  destruct (Z.eq_dec a 0) as [->|Ha0]; destruct (Z.eq_dec b 0) as [->|Hb0].
  - reflexivity.
  - rewrite Z.add_0_l, of_Z_0, (of_Z_canon b) by lia. reflexivity.
  - rewrite Z.add_0_r, of_Z_0, (of_Z_canon a) by lia. reflexivity.
  - rewrite !of_Z_canon by lia. apply add_canon; lia.
Qed.

(** So are their products. *)
Lemma mul_of_Z a b : 0 <= a < 2 ^ 53 -> 0 <= b < 2 ^ 53 -> a * b < 2 ^ 53 ->
  mul (of_Z a) (of_Z b) = of_Z (a * b).
Proof.
  intros Ha Hb Hab.
  destruct (Z.eq_dec a 0) as [->|Ha0]; destruct (Z.eq_dec b 0) as [->|Hb0].
  - reflexivity.
  - rewrite Z.mul_0_l, of_Z_0, (of_Z_canon b) by nia. reflexivity.
  - rewrite Z.mul_0_r, of_Z_0, (of_Z_canon a) by nia. reflexivity.
  - rewrite !of_Z_canon by nia.
    rewrite (mul_canon false false a b 0 0 (a * b) 0)
      by (rewrite ?Z.pow_0_r; nia).
    reflexivity.
Qed.

(** [a * (b / 2.)] for an even product [a * b = 2 * c]. *)
Lemma mul_half_of_Z a b c :
  0 <= a < 2 ^ 53 -> 0 <= b < 2 ^ 53 -> a * b = 2 * c -> c < 2 ^ 53 ->
  mul (of_Z a) (div (of_Z b) (of_Z 2)) = of_Z c.
Proof.
  intros Ha Hb Hc Hab.
  destruct (Z.eq_dec b 0) as [->|Hb0].
  - replace c with 0 by lia. change (div (of_Z 0) (of_Z 2)) with (of_Z 0).
    destruct (Z.eq_dec a 0) as [->|Ha0]; [reflexivity|].
    rewrite (of_Z_canon a) by nia. reflexivity.
  - destruct (Z.eq_dec a 0) as [->|Ha0].
    + replace c with 0 by lia. rewrite (of_Z_canon b), div2_canon by nia. reflexivity.
    + rewrite (of_Z_canon a), (of_Z_canon b), div2_canon by nia.
      rewrite (mul_canon false false a b 0 (-1) c 1)
        by (rewrite ?Z.pow_1_r; nia).
      rewrite of_Z_canon by nia. reflexivity.
Qed.

Lemma sub_diag_of_Z a : 0 <= a < 2 ^ 53 -> sub (of_Z a) (of_Z a) = of_Z 0.
Proof.
  intros Ha. destruct (Z.eq_dec a 0) as [->|Ha0]; [reflexivity|].
  rewrite of_Z_canon by lia.
  destruct (canon_pos false a 0) as (m & -> & _); [lia|].
  unfold sub, SFsub. rewrite Z.min_id, shl_align_ge by lia.
  cbn [fst cond_Zopp]. rewrite Z.sub_diag. reflexivity.
Qed.

Lemma abserr_step_0 : add (of_Z 0) (fabs (of_Z 0)) = of_Z 0.
Proof. reflexivity. Qed.

Lemma zero_below_epsilon : ltb (of_Z 0) epsilon = true.
Proof. reflexivity. Qed.
End B64Facts.

(** ** Machine integers *)

Module IntFacts.
Import Int.

Lemma wrap_small z : in_range z -> wrap z = z.
Proof.
  unfold in_range, wrap, INT_MIN, INT_MAX. intros H.
  rewrite Z.mod_small; lia.
Qed.

Lemma wrap_in_range z : in_range (wrap z).
Proof.
  unfold in_range, wrap, INT_MIN, INT_MAX.
  pose proof (Z.mod_pos_bound (z + 2 ^ 31) (2 ^ 32) ltac:(lia)). lia.
Qed.

Lemma add_small a b : in_range (a + b) -> add a b = a + b.
Proof. apply wrap_small. Qed.

Lemma sub_small a b : in_range (a - b) -> sub a b = a - b.
Proof. apply wrap_small. Qed.

Lemma mul_small a b : in_range (a * b) -> mul a b = a * b.
Proof. apply wrap_small. Qed.

Lemma atoi_in_range s : in_range (Atoi.atoi s).
Proof. apply wrap_in_range. Qed.

(** Below [floor (sqrt INT_MAX)] the row-major index does not wrap. *)
Lemma idx_small n i j :
  0 < n <= 46340 -> 0 <= i < n -> 0 <= j < n -> Prog.idx n i j = i * n + j.
Proof.
  intros Hn Hi Hj. unfold Prog.idx.
  rewrite mul_small by (unfold in_range, INT_MIN, INT_MAX; nia).
  apply add_small. unfold in_range, INT_MIN, INT_MAX. nia.
Qed.

Lemma idx_bound n i j :
  0 < n -> 0 <= i < n -> 0 <= j < n -> 0 <= i * n + j < n * n.
Proof. nia. Qed.

Lemma idx_inj n i j i' j' :
  0 <= j < n -> 0 <= j' < n -> i * n + j = i' * n + j' -> i = i' /\ j = j'.
Proof.
  intros Hj Hj' H. assert (i = i'); [|subst; lia].
  destruct (Z.lt_trichotomy i i') as [Hlt|[Heq|Hgt]]; [|assumption|].
  - assert (n <= (i' - i) * n) by nia. lia.
  - assert (n <= (i - i') * n) by nia. lia.
Qed.
End IntFacts.

(** ** Vectors and loops *)

Module ProgFacts.
Import Prog.

Lemma vget_lookup (v : vec) k : 0 <= k -> vget v k = v !! Z.to_nat k.
Proof. intros H. unfold vget. destruct (Z.ltb_spec k 0); [lia|reflexivity]. Qed.

Lemma vget_is_Some (v : vec) k : 0 <= k < Z.of_nat (length v) -> is_Some (vget v k).
Proof.
  intros H. rewrite vget_lookup by lia. apply lookup_lt_is_Some. lia.
Qed.

Lemma vget_Some_lt (v : vec) k x : vget v k = Some x -> 0 <= k < Z.of_nat (length v).
Proof.
  unfold vget. destruct (Z.ltb_spec k 0); [discriminate|].
  intros Hx%lookup_lt_Some. lia.
Qed.

Lemma vset_Some (v : vec) k x : 0 <= k < Z.of_nat (length v) ->
  vset v k x = Some (<[Z.to_nat k := x]> v).
Proof.
  intros H. unfold vset.
  destruct (Z.leb_spec 0 k); [|lia]. destruct (Z.ltb_spec k (Z.of_nat (length v))); [|lia].
  reflexivity.
Qed.

Lemma vget_insert_eq (v : vec) k x : 0 <= k < Z.of_nat (length v) ->
  vget (<[Z.to_nat k := x]> v) k = Some x.
Proof.
  intros H. rewrite vget_lookup by lia. apply list_lookup_insert_eq. lia.
Qed.

Lemma vget_insert_ne (v : vec) k k' x : 0 <= k -> 0 <= k' -> k <> k' ->
  vget (<[Z.to_nat k := x]> v) k' = vget v k'.
Proof.
  intros H H' Hne. rewrite !vget_lookup by lia. apply list_lookup_insert_ne. lia.
Qed.

Lemma vec_eq (v w : vec) :
  length v = length w ->
  (forall k, 0 <= k < Z.of_nat (length v) -> vget v k = vget w k) -> v = w.
Proof.
  intros Hl H. apply list_eq. intros i.
  destruct (decide (i < length v)%nat) as [Hi|Hi].
  - specialize (H (Z.of_nat i) ltac:(lia)).
    rewrite !vget_lookup, Nat2Z.id in H by lia. exact H.
  - rewrite !lookup_ge_None_2 by lia. reflexivity.
Qed.

Lemma for_each_app {S X} (xs ys : list X) (body : S -> X -> option S) s :
  for_each (xs ++ ys) body s = for_each xs body s ≫= for_each ys body.
Proof.
  revert s. induction xs as [|x xs IH]; intros s; simpl; [reflexivity|].
  destruct (body s x); simpl; auto.
Qed.

Lemma for_each_bind {S X Y} (xs : list X) (g : X -> list Y)
    (body : S -> Y -> option S) s :
  for_each (xs ≫= g) body s = for_each xs (fun s x => for_each (g x) body s) s.
Proof.
  revert s. induction xs as [|x xs IH]; intros s; [reflexivity|].
  change ((x :: xs) ≫= g) with (g x ++ (xs ≫= g)).
  rewrite for_each_app. simpl. destruct (for_each (g x) body s); simpl; auto.
Qed.

Lemma for_each_ext {S X} (xs : list X) (f g : S -> X -> option S) s :
  (forall s x, x ∈ xs -> f s x = g s x) -> for_each xs f s = for_each xs g s.
Proof.
  revert s. induction xs as [|x xs IH]; intros s H; simpl; [reflexivity|].
  rewrite H by left. destruct (g s x); simpl; [|reflexivity].
  apply IH. intros. apply H. by right.
Qed.

Lemma for_each_fmap {S X Y} (xs : list X) (g : X -> Y) (body : S -> Y -> option S) s :
  for_each (g <$> xs) body s = for_each xs (fun s x => body s (g x)) s.
Proof.
  revert s. induction xs as [|x xs IH]; intros s; simpl; [reflexivity|].
  destruct (body s (g x)); simpl; auto.
Qed.

(** A loop whose body keeps an invariant keeps it, and does not fault. *)
Lemma for_each_invariant {S X} (P : S -> Prop) (xs : list X)
    (body : S -> X -> option S) s :
  (forall s x, x ∈ xs -> P s -> exists s', body s x = Some s' /\ P s') ->
  P s -> exists s', for_each xs body s = Some s' /\ P s'.
Proof.
  revert s. induction xs as [|x xs IH]; intros s H Hs; simpl; [eauto|].
  destruct (H s x) as (s' & -> & Hs'); [left|assumption|]. simpl.
  apply IH; [|assumption]. intros. apply H; [by right|assumption].
Qed.
End ProgFacts.

(** ** transpose-ranges.cc: one trip through the loop *)

Module TransposeFacts.
Import Prog Transpose TransposeSpec IntFacts ProgFacts.
#[local] Arguments B64.of_Z : simpl never.
#[local] Arguments B64.add : simpl never.
#[local] Arguments B64.sub : simpl never.
#[local] Arguments B64.mul : simpl never.
#[local] Arguments B64.div : simpl never.
#[local] Arguments vget : simpl never.
#[local] Arguments vset : simpl never.

Lemma elem_of_cartesian_product xs ys x y :
  (x, y) ∈ cartesian_product xs ys <-> x ∈ xs /\ y ∈ ys.
Proof.
  unfold cartesian_product. rewrite list_elem_of_bind. split.
  - intros (x' & H & Hx). apply list_elem_of_bind in H as (y' & H & Hy).
    apply list_elem_of_singleton in H. by simplify_eq.
  - intros [Hx Hy]. exists x. split; [|assumption].
    apply list_elem_of_bind. exists y. split; [|assumption]. by apply list_elem_of_singleton.
Qed.

Lemma NoDup_cartesian_product xs ys :
  NoDup xs -> NoDup ys -> NoDup (cartesian_product xs ys).
Proof.
  intros Hxs Hys. apply NoDup_bind; [| |assumption].
  - intros x1 x2 [x y] _ _ H1 H2.
    apply list_elem_of_bind in H1 as (y1 & H1 & _), H2 as (y2 & H2 & _).
    apply list_elem_of_singleton in H1, H2. by simplify_eq.
  - intros x _. apply NoDup_bind; [| |assumption].
    + intros y1 y2 [x' y] _ _ H1 H2.
      apply list_elem_of_singleton in H1, H2. by simplify_eq.
    + intros y _. apply NoDup_singleton.
Qed.

Lemma untiled_covers order : covers order (untiled_cells order).
Proof.
  split.
  - apply NoDup_cartesian_product; apply NoDup_seqZ.
  - intros [x y]. unfold untiled_cells, iota, in_matrix.
    rewrite elem_of_cartesian_product, !elem_of_seqZ. simpl. lia.
Qed.

Lemma NoDup_omap {X Y} (f : X -> option Y) (l : list X) :
  (forall x y z, x ∈ l -> y ∈ l -> f x = Some z -> f y = Some z -> x = y) ->
  NoDup l -> NoDup (omap f l).
Proof.
  intros Hinj. induction 1 as [|x l Hx Hl IH]; simpl; [constructor|].
  assert (NoDup (omap f l)) as IH'.
  { apply IH. intros. eapply Hinj; eauto; by right. }
  destruct (f x) as [z|] eqn:E; [|assumption].
  constructor; [|assumption].
  intros (y & Hy & Hfy)%list_elem_of_omap.
  assert (x = y) by (eapply Hinj; eauto; [left|by right]). by subst.
Qed.

(** The tile origins: the multiples of [tile_size] below [order]. *)
Lemma elem_of_stride order tile_size x : 0 < tile_size ->
  x ∈ stride (iota 0 order) tile_size
  <-> 0 <= x < order /\ exists q, 0 <= q /\ x = q * tile_size.
Proof.
  intros Ht. unfold stride, iota. rewrite list_elem_of_omap. split.
  - intros (q & _ & Hq). apply lookup_seqZ in Hq as [-> Hq].
    rewrite Z.sub_0_r in Hq. split; [lia|]. exists (Z.of_nat q). lia.
  - intros [Hx (q & Hq & ->)]. exists (Z.to_nat q). split.
    + apply elem_of_seq. rewrite length_seqZ. nia.
    + apply lookup_seqZ. lia.
Qed.

Lemma NoDup_stride order tile_size : 0 < tile_size ->
  NoDup (stride (iota 0 order) tile_size).
Proof.
  intros Ht. apply NoDup_omap; [|apply NoDup_seq].
  intros q q' z _ _ [-> _]%lookup_seqZ [H _]%lookup_seqZ. nia.
Qed.

Lemma elem_of_tiled_cells order tile_size x y :
  (x, y) ∈ tiled_cells order tile_size
  <-> exists it jt i j,
        it ∈ stride (iota 0 order) tile_size /\ jt ∈ stride (iota 0 order) tile_size
        /\ 0 <= i < tile_size /\ 0 <= j < tile_size
        /\ x = Int.add it i /\ y = Int.add jt j.
Proof.
  unfold tiled_cells. rewrite list_elem_of_bind. split.
  - intros ([it jt] & H & Hs). apply elem_of_cartesian_product in Hs as [Hit Hjt].
    apply list_elem_of_bind in H as ([i j] & H & Ht).
    apply elem_of_cartesian_product in Ht as [Hi Hj].
    apply list_elem_of_singleton in H. unfold iota in Hi, Hj.
    apply elem_of_seqZ in Hi, Hj. simplify_eq.
    exists it, jt, i, j. repeat split; auto; lia.
  - intros (it & jt & i & j & Hit & Hjt & Hi & Hj & -> & ->).
    exists (it, jt). split; [|by apply elem_of_cartesian_product].
    apply list_elem_of_bind. exists (i, j). split; [by apply list_elem_of_singleton|].
    apply elem_of_cartesian_product. unfold iota. rewrite !elem_of_seqZ. lia.
Qed.

(** A tile origin plus an offset inside the tile: no wrap, inside the
    matrix, and origin and offset are determined by the sum. *)
Lemma tile_offset order tile_size it i :
  0 < tile_size -> 0 < order <= 46340 -> Z.rem order tile_size = 0 ->
  it ∈ stride (iota 0 order) tile_size -> 0 <= i < tile_size ->
  Int.add it i = it + i /\ 0 <= it + i < order.
Proof.
  intros Ht Ho Hrem [Hit (q & Hq & ->)]%elem_of_stride Hi; [|assumption].
  apply Z.rem_divide in Hrem as [m ->]; [|lia].
  assert (q < m) by nia. assert (q * tile_size + i < m * tile_size) by nia.
  split; [|lia]. apply add_small. unfold Int.in_range, Int.INT_MIN, Int.INT_MAX. lia.
Qed.

Lemma tile_offset_inj order tile_size it i it' i' :
  0 < tile_size ->
  it ∈ stride (iota 0 order) tile_size -> it' ∈ stride (iota 0 order) tile_size ->
  0 <= i < tile_size -> 0 <= i' < tile_size ->
  it + i = it' + i' -> it = it' /\ i = i'.
Proof.
  intros Ht [_ (q & _ & ->)]%elem_of_stride [_ (q' & _ & ->)]%elem_of_stride Hi Hi' E;
    try assumption.
  destruct (idx_inj tile_size q i q' i'); auto. by subst.
Qed.

Lemma tiled_covers order tile_size :
  0 < tile_size -> 0 < order <= 46340 -> Z.rem order tile_size = 0 ->
  covers order (tiled_cells order tile_size).
Proof.
  intros Ht Ho Hrem. split.
  - unfold tiled_cells. apply NoDup_bind.
    + intros [it jt] [it' jt'] [x y] Hs Hs' H H'.
      apply elem_of_cartesian_product in Hs as [Hit Hjt], Hs' as [Hit' Hjt'].
      apply list_elem_of_bind in H as ([i j] & H & [Hi Hj]%elem_of_cartesian_product).
      apply list_elem_of_bind in H' as ([i' j'] & H' & [Hi' Hj']%elem_of_cartesian_product).
      apply list_elem_of_singleton in H, H'. unfold iota in *.
      apply elem_of_seqZ in Hi, Hj, Hi', Hj'.
      destruct (tile_offset order tile_size it i) as [E1 _]; auto; try lia.
      destruct (tile_offset order tile_size jt j) as [E2 _]; auto; try lia.
      destruct (tile_offset order tile_size it' i') as [E3 _]; auto; try lia.
      destruct (tile_offset order tile_size jt' j') as [E4 _]; auto; try lia.
      simplify_eq.
      destruct (tile_offset_inj order tile_size it i it' i'); auto; try lia.
      destruct (tile_offset_inj order tile_size jt j jt' j'); auto; try lia.
      by subst.
    + intros [it jt] [Hit Hjt]%elem_of_cartesian_product.
      apply NoDup_bind.
      * intros [i j] [i' j'] [x y] [Hi Hj]%elem_of_cartesian_product
          [Hi' Hj']%elem_of_cartesian_product H H'.
        apply list_elem_of_singleton in H, H'. unfold iota in *.
        apply elem_of_seqZ in Hi, Hj, Hi', Hj'.
        destruct (tile_offset order tile_size it i) as [E1 _]; auto; try lia.
        destruct (tile_offset order tile_size jt j) as [E2 _]; auto; try lia.
        destruct (tile_offset order tile_size it i') as [E3 _]; auto; try lia.
        destruct (tile_offset order tile_size jt j') as [E4 _]; auto; try lia.
        simplify_eq. f_equal; lia.
      * intros [i j] _. apply NoDup_singleton.
      * apply NoDup_cartesian_product; apply NoDup_seqZ.
    + apply NoDup_cartesian_product; by apply NoDup_stride.
  - intros [x y]. rewrite elem_of_tiled_cells. unfold in_matrix. simpl. split.
    + intros (it & jt & i & j & Hit & Hjt & Hi & Hj & -> & ->).
      destruct (tile_offset order tile_size it i) as [-> ?]; auto.
      destruct (tile_offset order tile_size jt j) as [-> ?]; auto.
    + intros [Hx Hy].
      assert (forall z, 0 <= z < order ->
        z / tile_size * tile_size ∈ stride (iota 0 order) tile_size) as Hs.
      { intros z Hz. apply elem_of_stride; [assumption|].
        pose proof (Z.mul_div_le z tile_size Ht).
        pose proof (Z.div_pos z tile_size ltac:(lia) Ht).
        split; [nia|]. eauto. }
      assert (forall z, 0 <= z < order ->
        z = Int.add (z / tile_size * tile_size) (z mod tile_size)) as Hz.
      { intros z Hz. pose proof (Z.mod_pos_bound z tile_size Ht).
        destruct (tile_offset order tile_size (z / tile_size * tile_size)
                    (z mod tile_size)) as [-> _]; auto.
        rewrite (Z.div_mod z tile_size) at 1 by lia. lia. }
      exists (x / tile_size * tile_size), (y / tile_size * tile_size),
        (x mod tile_size), (y mod tile_size).
      pose proof (Z.mod_pos_bound x tile_size Ht).
      pose proof (Z.mod_pos_bound y tile_size Ht).
      repeat split; auto; lia.
Qed.

Lemma untiled_visit order st : untiled order st = visit order (untiled_cells order) st.
Proof. reflexivity. Qed.

Lemma tiled_visit order tile_size st :
  tiled order tile_size st = visit order (tiled_cells order tile_size) st.
Proof.
  unfold tiled, visit, tiled_cells. rewrite for_each_bind.
  apply for_each_ext. intros st' [it jt] _. rewrite for_each_bind.
  apply for_each_ext. intros st'' [i j] _. simpl.
  by destruct (body st'' _ _).
Qed.

Lemma body_spec (A B : vec) bi ai :
  0 <= ai < Z.of_nat (length A) -> 0 <= bi < Z.of_nat (length B) ->
  exists a b, vget A ai = Some a /\ vget B bi = Some b
    /\ body (A, B) bi ai
       = Some (<[Z.to_nat ai := B64.add a (B64.of_Z 1)]> A,
               <[Z.to_nat bi := B64.add b a]> B).
Proof.
  intros Ha Hb.
  destruct (vget_is_Some A ai Ha) as [a Ea], (vget_is_Some B bi Hb) as [b Eb].
  exists a, b. split_and!; [assumption..|].
  unfold body. rewrite Ea, Eb. cbn [mbind option_bind].
  rewrite !vset_Some by assumption. reflexivity.
Qed.

(** The effect of one trip over pairwise distinct index pairs, cell by cell:
    a visited pair [(i,j)] adds [A[j,i]] to [B[i,j]] and one to [A[j,i]],
    everything else is left as it was. *)
Lemma visit_spec order : 0 < order <= 46340 ->
  forall cells (A B : vec),
  NoDup cells -> Forall (in_matrix order) cells ->
  Z.of_nat (length A) = order * order -> Z.of_nat (length B) = order * order ->
  exists A' B', visit order cells (A, B) = Some (A', B')
    /\ length A' = length A /\ length B' = length B
    /\ forall i j, in_matrix order (i, j) ->
         vget A' (j * order + i)
         = (if decide ((i, j) ∈ cells)
            then (fun a => B64.add a (B64.of_Z 1)) <$> vget A (j * order + i)
            else vget A (j * order + i))
         /\ vget B' (i * order + j)
            = (if decide ((i, j) ∈ cells)
               then b ← vget B (i * order + j);
                    a ← vget A (j * order + i); Some (B64.add b a)
               else vget B (i * order + j)).
Proof.
  intros Ho. induction cells as [|[x y] cells IH]; intros A B Hnd Hin HA HB.
  - exists A, B. split_and!; try reflexivity. intros i j _.
    destruct (decide _) as [H|_]; [by apply elem_of_nil in H|]. done.
  - apply NoDup_cons in Hnd as [Hxy Hnd]. apply Forall_cons in Hin as [[Hx Hy] Hin].
    simpl in Hx, Hy. unfold visit. cbn [for_each].
    rewrite !idx_small by assumption.
    pose proof (idx_bound order y x ltac:(lia) Hy Hx) as Hyx.
    pose proof (idx_bound order x y ltac:(lia) Hx Hy) as Hxy'.
    destruct (body_spec A B (x * order + y) (y * order + x)) as (a & b & Ea & Eb & ->);
      [lia..|]. cbn [mbind option_bind].
    set (A1 := <[Z.to_nat (y * order + x) := B64.add a (B64.of_Z 1)]> A).
    set (B1 := <[Z.to_nat (x * order + y) := B64.add b a]> B).
    assert (length A1 = length A) as HA1 by apply length_insert.
    assert (length B1 = length B) as HB1 by apply length_insert.
    destruct (IH A1 B1 Hnd Hin ltac:(lia) ltac:(lia))
      as (A' & B' & Hv & HlA & HlB & Hc).
    exists A', B'. unfold visit in Hv. rewrite Hv.
    split_and!; [reflexivity|lia|lia|].
    intros i j [Hi Hj]. simpl in Hi, Hj.
    destruct (Hc i j) as [HA' HB']; [done|]. rewrite HA', HB'. clear HA' HB'.
    subst A1 B1.
    destruct (decide ((i, j) = (x, y))) as [E|E].
    + simplify_eq. destruct (decide ((x, y) ∈ cells)) as [?|_]; [done|].
      destruct (decide ((x, y) ∈ (x, y) :: cells)) as [_|H]; [|by destruct H; left].
      rewrite !vget_insert_eq by lia. rewrite Ea, Eb. done.
    + assert (j * order + i <> y * order + x) as N1.
      { intros H. destruct (idx_inj order j i y x); auto. congruence. }
      assert (i * order + j <> x * order + y) as N2.
      { intros H. destruct (idx_inj order i j x y); auto. congruence. }
      pose proof (idx_bound order j i ltac:(lia) Hj Hi).
      pose proof (idx_bound order i j ltac:(lia) Hi Hj).
      rewrite !vget_insert_ne by lia.
      destruct (decide ((i, j) ∈ cells)) as [H1|H1];
        destruct (decide ((i, j) ∈ (x, y) :: cells)) as [H2|H2]; try done.
      * destruct H2. by right.
      * apply elem_of_cons in H2 as [?|?]; done.
Qed.

Lemma covers_in_matrix order cells : covers order cells -> Forall (in_matrix order) cells.
Proof. intros [_ H]. apply Forall_forall. intros c. apply H. Qed.

(** One full trip: [A] is incremented everywhere and [B] receives the
    transpose of the old [A]. *)
Lemma visit_covers order cells st :
  0 < order <= 46340 -> covers order cells -> sized order st ->
  exists st', visit order cells st = Some st' /\ sized order st'
    /\ forall i j, in_matrix order (i, j) ->
         vget st'.1 (j * order + i)
         = (fun a => B64.add a (B64.of_Z 1)) <$> vget st.1 (j * order + i)
         /\ vget st'.2 (i * order + j)
            = (b ← vget st.2 (i * order + j);
               a ← vget st.1 (j * order + i); Some (B64.add b a)).
Proof.
  intros Ho Hc [HA HB]. destruct st as [A B]. simpl in HA, HB.
  destruct (visit_spec order Ho cells A B) as (A' & B' & Hv & HlA & HlB & Hp);
    [apply Hc|by apply covers_in_matrix|assumption..|].
  exists (A', B'). split_and!; [assumption|split; simpl; lia|].
  intros i j Hij. destruct (Hp i j Hij) as [H1 H2].
  destruct (decide ((i, j) ∈ cells)) as [_|N]; [done|].
  destruct N. by apply Hc.
Qed.

Lemma visit_covers_eq order cells1 cells2 st :
  0 < order <= 46340 -> covers order cells1 -> covers order cells2 ->
  sized order st -> visit order cells1 st = visit order cells2 st.
Proof.
  intros Ho H1 H2 Hst.
  destruct (visit_covers order cells1 st) as ([A1 B1] & -> & [HA1 HB1] & P1); auto.
  destruct (visit_covers order cells2 st) as ([A2 B2] & -> & [HA2 HB2] & P2); auto.
  simpl in *.
  assert (forall k, 0 <= k < order * order ->
    in_matrix order (k mod order, k / order) /\ k = k / order * order + k mod order) as D.
  { intros k Hk. pose proof (Z.mod_pos_bound k order ltac:(lia)).
    pose proof (Z.div_mod k order ltac:(lia)).
    assert (0 <= k / order) by (apply Z.div_pos; lia).
    assert (k / order < order) by (apply Z.div_lt_upper_bound; lia).
    split; [split; simpl; lia|lia]. }
  do 2 f_equal; apply vec_eq; try lia; intros k Hk.
  - destruct (D k ltac:(lia)) as [Hm E]. rewrite E.
    destruct (P1 _ _ Hm) as [-> _], (P2 _ _ Hm) as [-> _]. reflexivity.
  - destruct (D k ltac:(lia)) as [[Hm1 Hm2] E]. rewrite E. simpl in Hm1, Hm2.
    destruct (P1 (k / order) (k mod order)) as [_ ->]; [done|].
    destruct (P2 (k / order) (k mod order)) as [_ ->]; [done|]. reflexivity.
Qed.

(** Every accepted configuration makes the same trip as the untiled loop. *)
Lemma pass_untiled c st : well_tiled c -> sized (order c) st ->
  pass c st = untiled (order c) st.
Proof.
  intros (Ho & Ht & Hd) Hst. unfold pass.
  destruct (Z.ltb_spec (tile_size c) (order c)) as [Hlt|_]; [|reflexivity].
  rewrite tiled_visit, untiled_visit.
  apply visit_covers_eq; auto using untiled_covers, tiled_covers.
Qed.

Lemma untiled_sized order st : 0 < order <= 46340 -> sized order st ->
  exists st', untiled order st = Some st' /\ sized order st'.
Proof.
  intros Ho Hst. rewrite untiled_visit.
  destruct (visit_covers order (untiled_cells order) st) as (st' & ? & ? & _);
    eauto using untiled_covers.
Qed.

Lemma passes_succ c k st : passes c (N.succ k) st = passes c k st ≫= pass c.
Proof. unfold passes. by rewrite N.iter_succ. Qed.

Lemma passes_add c p q st :
  passes c (p + q) st = passes c q st ≫= passes c p.
Proof.
  unfold passes. rewrite N.iter_add.
  destruct (N.iter q _ (Some st)) as [st'|]; [reflexivity|].
  simpl. induction p using N.peano_ind; [reflexivity|].
  by rewrite N.iter_succ, IHp.
Qed.

Lemma passes_untiled c k st : well_tiled c -> sized (order c) st ->
  exists st', passes c k st = Some st' /\ sized (order c) st'
    /\ passes c k st = N.iter k (fun ost => ost ≫= untiled (order c)) (Some st).
Proof.
  intros Hc Hst. induction k as [|k (st' & E & Hs & E')] using N.peano_ind.
  - exists st. done.
  - destruct (untiled_sized (order c) st') as (st'' & E2 & Hs2); [apply Hc|assumption|].
    exists st''. rewrite passes_succ, N.iter_succ, <- E', E. simpl.
    rewrite pass_untiled by assumption. done.
Qed.

Lemma tri_succ k : tri (k + 1) = tri k + k.
Proof.
  unfold tri. replace ((k + 1) * (k + 1 - 1)) with (k * (k - 1) + k * 2) by ring.
  apply Z.div_add. lia.
Qed.

Lemma tri_nonneg k : 0 <= k -> 0 <= tri k.
Proof.
  intros Hk. unfold tri. destruct (Z.eq_dec k 0) as [->|]; [done|].
  apply Z.div_pos; nia.
Qed.

Lemma length_iota_fill len v : length (iota_fill len v) = len.
Proof. revert v. induction len; intros; simpl; auto. Qed.

Lemma iota_fill_lookup len : forall z (k : nat),
  (k < len)%nat -> 0 <= z -> z + Z.of_nat len < 2 ^ 53 ->
  iota_fill len (B64.of_Z z) !! k = Some (B64.of_Z (z + Z.of_nat k)).
Proof.
  induction len as [|len IH]; intros z k Hk Hz Hb; [lia|].
  destruct k as [|k].
  - simpl. by rewrite Z.add_0_r.
  - change (iota_fill len (B64.add (B64.of_Z z) (B64.of_Z 1)) !! k
            = Some (B64.of_Z (z + Z.of_nat (S k)))).
    rewrite B64Facts.add_of_Z by lia. rewrite IH by lia. do 2 f_equal. lia.
Qed.

Lemma allocate_exact c : valid c -> exact_after (order c) 0 (allocate c).
Proof.
  intros (_ & Ho & _). unfold allocate.
  rewrite mul_small by (unfold Int.in_range, Int.INT_MIN, Int.INT_MAX; nia).
  split; [split; simpl; rewrite ?length_iota_fill, ?length_replicate; nia|].
  intros i j [Hi Hj]. simpl in *.
  pose proof (idx_bound (order c) j i ltac:(lia) Hj Hi).
  pose proof (idx_bound (order c) i j ltac:(lia) Hi Hj).
  assert (order c * order c < 2 ^ 53) by nia.
  rewrite !vget_lookup by lia. split.
  - rewrite iota_fill_lookup by lia. do 2 f_equal. lia.
  - rewrite lookup_replicate_2 by lia. done.
Qed.

(** One more trip while the values stay below [2 ^ 53]. *)
Lemma untiled_exact order k st :
  0 < order <= 46340 -> 0 <= k -> order * order + k < 2 ^ 53 ->
  (k + 1) * (order * order - 1) + tri (k + 1) < 2 ^ 53 ->
  exact_after order k st ->
  exists st', untiled order st = Some st' /\ exact_after order (k + 1) st'.
Proof.
  intros Ho Hk HbA HbB [Hs He]. rewrite untiled_visit.
  destruct (visit_covers order (untiled_cells order) st) as (st' & -> & Hs' & P);
    auto using untiled_covers.
  exists st'. split; [reflexivity|]. split; [assumption|].
  intros i j Hij. destruct (P i j Hij) as [-> ->], (He i j Hij) as [-> ->].
  destruct Hij as [Hi Hj]. simpl in Hi, Hj.
  pose proof (idx_bound order j i ltac:(lia) Hj Hi) as Hc.
  pose proof (tri_nonneg k Hk). rewrite tri_succ in *.
  set (cell := j * order + i) in *.
  assert (0 <= k * cell) by (apply Z.mul_nonneg_nonneg; lia).
  assert ((k + 1) * cell <= (k + 1) * (order * order - 1))
    by (apply Z.mul_le_mono_nonneg_l; lia).
  simpl. rewrite !B64Facts.add_of_Z by lia.
  split; do 2 f_equal; lia.
Qed.

Lemma passes_exact c (K : N) : valid c ->
  order c * order c + Z.of_N K <= 2 ^ 53 ->
  Z.of_N K * (order c * order c - 1) + tri (Z.of_N K) < 2 ^ 53 ->
  exists st', passes c K (allocate c) = Some st'
    /\ exact_after (order c) (Z.of_N K) st'.
Proof.
  intros Hc. induction K as [|K IH] using N.peano_ind; intros HbA HbB.
  - exists (allocate c). split; [reflexivity|]. by apply allocate_exact.
  - rewrite N2Z.inj_succ in *. pose proof (N2Z.is_nonneg K).
    replace (Z.succ (Z.of_N K)) with (Z.of_N K + 1) in * by lia.
    pose proof (tri_nonneg (Z.of_N K) ltac:(lia)).
    assert (0 < order c <= 46340) as Ho by apply Hc.
    destruct IH as (st & E & Hst); [lia| |].
    { rewrite tri_succ in HbB. nia. }
    rewrite passes_succ, E. simpl.
    rewrite pass_untiled; [|apply Hc|apply Hst].
    apply untiled_exact; auto; lia.
Qed.

Lemma tri_double k : k * (k - 1) = 2 * tri k.
Proof.
  unfold tri. destruct (Z.Even_or_Odd k) as [[m ->]|[m ->]].
  - replace (2 * m * (2 * m - 1)) with (m * (2 * m - 1) * 2) by ring.
    rewrite Z.div_mul by lia. ring.
  - replace ((2 * m + 1) * (2 * m + 1 - 1)) with ((2 * m + 1) * m * 2) by ring.
    rewrite Z.div_mul by lia. ring.
Qed.

(** The verifier's reference value is the exact integer, below [2 ^ 53]. *)
Lemma reference_exact c ij :
  1 <= iterations c <= Int.INT_MAX -> 0 <= ij < 2 ^ 53 ->
  ij * (1 + iterations c) + (iterations c + 1) * iterations c / 2 < 2 ^ 53 ->
  reference c ij
  = B64.of_Z (ij * (1 + iterations c) + (iterations c + 1) * iterations c / 2).
Proof.
  intros Hit Hij Hb. unfold Int.INT_MAX in Hit.
  pose proof (tri_double (iterations c + 1)) as Hd.
  pose proof (tri_nonneg (iterations c + 1) ltac:(lia)) as Hn.
  unfold tri in Hd, Hn.
  replace (iterations c + 1 - 1) with (iterations c) in Hd, Hn by lia.
  unfold reference, addit.
  rewrite !B64Facts.add_of_Z by lia.
  rewrite B64Facts.mul_of_Z by nia.
  rewrite (B64Facts.mul_half_of_Z _ _ ((iterations c + 1) * iterations c / 2)) by nia.
  rewrite B64Facts.add_of_Z by nia. reflexivity.
Qed.

Lemma verify_exact c B :
  valid c ->
  (order c * order c - 1) * (iterations c + 1)
    + (iterations c + 1) * iterations c / 2 < 2 ^ 53 ->
  (forall i j, in_matrix (order c) (i, j) ->
     vget B (i * order c + j)
     = Some (B64.of_Z ((iterations c + 1) * (j * order c + i)
                       + tri (iterations c + 1)))) ->
  verify c B = Some (B64.of_Z 0).
Proof.
  intros (Hit & Ho & _) Hb He. unfold verify, range.
  pose proof (tri_nonneg (iterations c + 1) ltac:(lia)) as Hn.
  assert (Ht : tri (iterations c + 1) = (iterations c + 1) * iterations c / 2).
  { unfold tri. do 2 f_equal. lia. }
  match goal with |- for_each ?xs ?f ?s = _ =>
    destruct (for_each_invariant (fun a => a = B64.of_Z 0) xs f s) as (a & -> & ->)
  end; [|reflexivity|reflexivity].
  intros a i Hi%elem_of_seqZ ->.
  apply for_each_invariant; [|reflexivity].
  intros a j Hj%elem_of_seqZ ->.
  rewrite !idx_small by lia.
  rewrite (He j i) by (split; simpl; lia).
  pose proof (idx_bound (order c) i j ltac:(lia) ltac:(lia) ltac:(lia)) as Hc.
  set (cell := i * order c + j) in *.
  assert (0 <= cell * (1 + iterations c)) by (apply Z.mul_nonneg_nonneg; lia).
  assert (cell * (1 + iterations c) <= (order c * order c - 1) * (iterations c + 1))
    by (rewrite (Z.add_comm 1); apply Z.mul_le_mono_nonneg; lia).
  assert (order c * order c <= 46340 * 46340)
    by (apply Z.mul_le_mono_nonneg; lia).
  rewrite <- Ht in Hb.
  rewrite reference_exact by (rewrite <- ?Ht; lia).
  exists (B64.of_Z 0). split; [|reflexivity].
  cbn [mbind option_bind]. rewrite <- Ht.
  replace (iterations c + 1) with (1 + iterations c) at 1 by lia.
  rewrite (Z.mul_comm (1 + iterations c)).
  rewrite B64Facts.sub_diag_of_Z by lia.
  reflexivity.
Qed.

Lemma compute_loop_passes c st : iterations c < Int.INT_MAX ->
  compute_loop c st = passes c (Z.to_N (iterations c + 1)) st.
Proof.
  intros H. unfold compute_loop.
  destruct (Z.eqb_spec (iterations c) Int.INT_MAX); [lia|reflexivity].
Qed.

Lemma configure_valid max_matrix_size argv c :
  max_matrix_size <= 46340 -> configure max_matrix_size argv = inr c -> valid c.
Proof.
  intros Hmax. unfold configure.
  destruct (_ <? 3); [discriminate|].
  destruct (Z.ltb_spec (Atoi.atoi (arg argv 1)) 1); [discriminate|].
  destruct (Z.leb_spec (Atoi.atoi (arg argv 2)) 0); [discriminate|].
  destruct (Z.gtb_spec (Atoi.atoi (arg argv 2)) max_matrix_size); [discriminate|].
  set (t0 := if _ >? 3 then _ else _).
  destruct (Z.leb_spec t0 0) as [Ht0|Ht0].
  - rewrite Z.ltb_irrefl. intros [= <-]. unfold valid, well_tiled. simpl.
    pose proof (atoi_in_range (arg argv 1)) as [_ ?]. split_and!; lia.
  - destruct (Z.ltb_spec t0 (Atoi.atoi (arg argv 2))) as [Hlt|Hge]; simpl.
    + destruct (Z.eqb_spec (Z.rem (Atoi.atoi (arg argv 2)) t0) 0) as [E|E]; [|discriminate].
      simpl. intros [= <-]. unfold valid, well_tiled. simpl.
      pose proof (atoi_in_range (arg argv 1)) as [_ ?]. split_and!; lia.
    + intros [= <-]. unfold valid, well_tiled. simpl.
      pose proof (atoi_in_range (arg argv 1)) as [_ ?]. split_and!; lia.
Qed.
End TransposeFacts.

(** ** transpose-ranges.cc: the program *)

Module TransposeTheorems.
Import Prog Transpose TransposeSpec IntFacts ProgFacts TransposeFacts.
#[local] Arguments B64.of_Z : simpl never.

(** C1 (amended).  For every configuration accepted by [configure] (so
    iterations >= 1, 1 <= order <= max_matrix_size, itself at most
    [floor (sqrt INT_MAX)], and a tile size that is at least the order or a
    positive divisor of it) whose largest reference
    value [(order^2 - 1) * (iterations + 1) + (iterations + 1) * iterations / 2]
    is below [2 ^ 53], the compute loop run [iterations + 1] times leaves in
    every cell [B[j*order+i]] exactly the double
    [(i*order+j) * (1 + iterations) + (iterations + 1) * iterations / 2], which
    is also the verifier's reference value; the summed absolute deviation is
    [0.0], below [1e-8], and the program prints "Solution validates" and
    returns 0. *)
Theorem transpose_validates max_matrix_size argv c :
  max_matrix_size <= 46340 ->
  configure max_matrix_size argv = inr c ->
  (order c * order c - 1) * (iterations c + 1)
    + (iterations c + 1) * iterations c / 2 < 2 ^ 53 ->
  exists A B,
    compute_loop c (allocate c) = Some (A, B)
    /\ (forall i j, 0 <= i < order c -> 0 <= j < order c ->
         vget B (j * order c + i)
         = Some (B64.of_Z ((i * order c + j) * (1 + iterations c)
                           + (iterations c + 1) * iterations c / 2))
         /\ reference c (i * order c + j)
            = B64.of_Z ((i * order c + j) * (1 + iterations c)
                        + (iterations c + 1) * iterations c / 2))
    /\ verify c B = Some (B64.of_Z 0)
    /\ B64.ltb (B64.of_Z 0) B64.epsilon = true
    /\ main max_matrix_size argv = Some (validated c A B).
Proof.
  intros Hmax Hcfg Hb. pose proof (configure_valid _ _ _ Hmax Hcfg) as Hv.
  pose proof Hv as (Hit & Ho & _). unfold Int.INT_MAX in Hit.
  assert (Ht : tri (iterations c + 1) = (iterations c + 1) * iterations c / 2).
  { unfold tri. do 2 f_equal. lia. }
  pose proof (tri_nonneg (iterations c + 1) ltac:(lia)) as Hn.
  assert (iterations c < Int.INT_MAX) as Hlt.
  { pose proof (tri_double (iterations c + 1)) as Hd. unfold Int.INT_MAX.
    assert (0 <= (order c * order c - 1) * (iterations c + 1)) by nia.
    destruct (Z.lt_ge_cases (iterations c) 2147483647) as [|Hge]; [assumption|].
    assert (2147483647 * 2147483647 <= (iterations c + 1) * (iterations c + 1 - 1))
      by (apply Z.mul_le_mono_nonneg; lia).
    rewrite <- Ht in Hb. lia. }
  destruct (passes_exact c (Z.to_N (iterations c + 1)) Hv) as ([A B] & E & Hex).
  { rewrite Z2N.id by lia. nia. }
  { rewrite Z2N.id by lia. rewrite Ht. nia. }
  rewrite Z2N.id in Hex by lia.
  rewrite <- compute_loop_passes in E by assumption.
  assert (verify c B = Some (B64.of_Z 0)) as Hver.
  { apply verify_exact; auto. intros i j Hij. by destruct Hex as [_ He], (He i j Hij). }
  exists A, B. split_and!; auto.
  - intros i j Hi Hj. destruct Hex as [_ He].
    destruct (He j i) as [_ HB]; [by split|]. cbn [snd] in HB.
    pose proof (idx_bound (order c) i j ltac:(lia) Hi Hj).
    assert ((i * order c + j) * (1 + iterations c)
              <= (order c * order c - 1) * (iterations c + 1))
      by (rewrite (Z.add_comm 1); apply Z.mul_le_mono_nonneg; lia).
    assert ((i * order c + j) * (1 + iterations c)
              + (iterations c + 1) * iterations c / 2 < 2 ^ 53).
    { clear - Hb H0. lia. }
    split.
    + rewrite HB. do 2 f_equal. rewrite Ht. ring.
    + apply reference_exact; [apply Hv| |assumption].
      clear - H Ho. nia.
  - unfold main. rewrite Hcfg, E.
    cbn [mbind option_bind]. rewrite Hver. cbn [mbind option_bind].
    rewrite B64Facts.zero_below_epsilon. reflexivity.
Qed.

(** The theorem of C1 at [transpose 5 4 2]. *)
Lemma transpose_validates_witness :
  exists A B,
    compute_loop c_small (allocate c_small) = Some (A, B)
    /\ (forall i j, 0 <= i < order c_small -> 0 <= j < order c_small ->
         vget B (j * order c_small + i)
         = Some (B64.of_Z ((i * order c_small + j) * (1 + iterations c_small)
                           + (iterations c_small + 1) * iterations c_small / 2))
         /\ reference c_small (i * order c_small + j)
            = B64.of_Z ((i * order c_small + j) * (1 + iterations c_small)
                        + (iterations c_small + 1) * iterations c_small / 2))
    /\ verify c_small B = Some (B64.of_Z 0)
    /\ B64.ltb (B64.of_Z 0) B64.epsilon = true
    /\ main 46340 argv_small = Some (validated c_small A B).
Proof.
  apply (transpose_validates 46340 argv_small c_small).
  - lia.
  - vm_compute. reflexivity.
  - vm_compute. reflexivity.
Defined.

Lemma exact_after_order_1 k A B :
  exact_after 1 k (A, B) -> A = [B64.of_Z k] /\ B = [B64.of_Z (tri k)].
Proof.
  intros [[HA HB] He]. destruct (He 0 0) as [Ha Hb]; [split; simpl; lia|].
  cbn [fst snd] in *.
  destruct A as [|a [|? ?]]; try (simpl in HA; lia).
  destruct B as [|b [|? ?]]; try (simpl in HB; lia).
  injection Ha as ->. injection Hb as ->. split; do 2 f_equal; lia.
Qed.

(** C1 as stated fails at [transpose 134217730 1]: the sum
    [0 + 1 + ... + 134217730] leaves the range where binary64 holds every
    integer.  [B[0]] ends as 9007199590285314, the formula gives
    9007199590285315 and the verifier's rounded reference is
    9007199590285316, so the program reports a deviation of 2 and returns
    1. *)
Lemma transpose_precision_counterexample :
  configure 46340 argv_big = inr c_big
  /\ 1 <= iterations c_big /\ 1 <= order c_big /\ tile_size c_big = order c_big
  /\ main 46340 argv_big
     = Some {| stdout := banner ++ echo c_big
                 ++ [Discrepancy "ERROR: Aggregate squared error " (B64.of_Z 2)
                                 " exceeds threshold " B64.epsilon];
               stderr := []; exit_code := 1;
               arrays := Some ([B64.of_Z 134217731],
                               [B64.of_Z 9007199590285314]) |}
  /\ (0 * order c_big + 0) * (1 + iterations c_big)
       + (iterations c_big + 1) * iterations c_big / 2 = 9007199590285315
  /\ B64.ltb (B64.fabs (B64.sub (B64.of_Z 9007199590285314)
                                (B64.of_Z 9007199590285315))) B64.epsilon = false.
Proof.
  assert (Hcfg : configure 46340 argv_big = inr c_big) by (vm_compute; reflexivity).
  split; [exact Hcfg|].
  split; [vm_compute; discriminate|].
  split; [vm_compute; discriminate|].
  split; [reflexivity|].
  split; [|split; vm_compute; reflexivity].
  unfold main. rewrite Hcfg.
  rewrite compute_loop_passes by (vm_compute; reflexivity).
  change (Z.to_N (iterations c_big + 1)) with (3 + 134217728)%N.
  rewrite passes_add.
  destruct (passes_exact c_big 134217728) as ([A B] & E & Hex).
  - unfold valid, well_tiled, c_big, Int.INT_MAX. cbn [iterations order tile_size]. lia.
  - vm_compute. discriminate.
  - vm_compute. reflexivity.
  - rewrite E. apply exact_after_order_1 in Hex as [-> ->].
    vm_compute. reflexivity.
Qed.

(** C3.  For a fixed iteration count and order (at most
    [floor (sqrt INT_MAX)], as the configuration check requires), running
    with [tile_size = order] takes the untiled branch, running with a
    positive divisor [tile_size < order] takes the tiled branch, and on the
    same arrays the two branches give identical [A] and [B], bit for bit,
    since every cell receives the same operations.  Hence the two compute
    loops are equal, as are the arrays after any number of trips, and no
    trip faults. *)
Theorem tiling_preserves_result its order tile_size st :
  0 < order <= 46340 -> 0 < tile_size < order -> Z.rem order tile_size = 0 ->
  sized order st ->
  let c_tiled := {| iterations := its; order := order; tile_size := tile_size |} in
  let c_untiled := {| iterations := its; order := order; tile_size := order |} in
  pass c_tiled = tiled order tile_size
  /\ pass c_untiled = untiled order
  /\ tiled order tile_size st = untiled order st
  /\ allocate c_tiled = allocate c_untiled
  /\ compute_loop c_tiled st = compute_loop c_untiled st
  /\ (forall k, passes c_tiled k st = passes c_untiled k st
                 /\ is_Some (passes c_untiled k st)).
Proof.
  intros Ho Ht Hrem Hst c_tiled c_untiled.
  assert (forall k, passes c_tiled k st = passes c_untiled k st
                    /\ is_Some (passes c_untiled k st)) as Hk.
  { intros k.
    destruct (passes_untiled c_tiled k st) as (_ & _ & _ & E1);
      [unfold well_tiled; simpl; lia|assumption|].
    destruct (passes_untiled c_untiled k st) as (st' & E & _ & E2);
      [unfold well_tiled; simpl; lia|assumption|].
    split; [exact (eq_trans E1 (eq_sym E2))|]. rewrite E. by eexists. }
  split_and!.
  - unfold pass. simpl. destruct (Z.ltb_spec tile_size order); [reflexivity|lia].
  - unfold pass. simpl. by rewrite Z.ltb_irrefl.
  - rewrite tiled_visit, untiled_visit.
    apply visit_covers_eq; auto using untiled_covers. apply tiled_covers; lia.
  - reflexivity.
  - unfold compute_loop. simpl. destruct (its =? Int.INT_MAX); [reflexivity|].
    apply Hk.
  - exact Hk.
Qed.

(** The theorem of C3 at order 4, tile size 2, 5 iterations. *)
Lemma tiling_preserves_result_witness :
  let st := allocate c_small in
  let c_tiled := {| iterations := 5; order := 4; tile_size := 2 |} in
  let c_untiled := {| iterations := 5; order := 4; tile_size := 4 |} in
  pass c_tiled = tiled 4 2
  /\ pass c_untiled = untiled 4
  /\ tiled 4 2 st = untiled 4 st
  /\ allocate c_tiled = allocate c_untiled
  /\ compute_loop c_tiled st = compute_loop c_untiled st
  /\ (forall k, passes c_tiled k st = passes c_untiled k st
                 /\ is_Some (passes c_untiled k st)).
Proof.
  apply (tiling_preserves_result 5 4 2 (allocate c_small)).
  - lia.
  - lia.
  - reflexivity.
  - split; reflexivity.
Defined.

(** C9.  In the tiled branch, under [1 <= tile_size < order],
    [order % tile_size == 0] and the checked bound on the order, [it] and
    [jt] range over the multiples of [tile_size] below [order], [i] and [j]
    over [0, tile_size), and both indices [(it+i)*order+(jt+j)] and
    [(jt+j)*order+(it+i)] are computed without wrap-around and lie in
    [0, order*order): a trip over arrays of [order*order] elements makes no
    access out of bounds. *)
Theorem tiled_indices_in_bounds order tile_size :
  1 <= tile_size < order -> Z.rem order tile_size = 0 -> order <= 46340 ->
  (forall it, it ∈ stride (iota 0 order) tile_size
              <-> 0 <= it < order /\ (tile_size | it))
  /\ (forall i, i ∈ iota 0 tile_size <-> 0 <= i < tile_size)
  /\ (forall it jt i j,
        it ∈ stride (iota 0 order) tile_size ->
        jt ∈ stride (iota 0 order) tile_size ->
        i ∈ iota 0 tile_size -> j ∈ iota 0 tile_size ->
        idx order (Int.add it i) (Int.add jt j) = (it + i) * order + (jt + j)
        /\ idx order (Int.add jt j) (Int.add it i) = (jt + j) * order + (it + i)
        /\ 0 <= (it + i) * order + (jt + j) < order * order
        /\ 0 <= (jt + j) * order + (it + i) < order * order)
  /\ (forall st, sized order st ->
        exists st', tiled order tile_size st = Some st' /\ sized order st').
Proof.
  intros Ht Hrem Ho. split_and!.
  - intros it. rewrite elem_of_stride by lia. split.
    + intros [H (q & _ & ->)]. split; [assumption|]. by exists q.
    + intros [H [q ->]]. split; [assumption|]. exists q. split; [nia|reflexivity].
  - intros i. unfold iota. rewrite elem_of_seqZ. lia.
  - intros it jt i j Hit Hjt Hi Hj. unfold iota in Hi, Hj.
    apply elem_of_seqZ in Hi, Hj.
    destruct (tile_offset order tile_size it i) as [-> Hx]; auto; try lia.
    destruct (tile_offset order tile_size jt j) as [-> Hy]; auto; try lia.
    rewrite !idx_small by lia.
    pose proof (idx_bound order (it + i) (jt + j) ltac:(lia) Hx Hy).
    pose proof (idx_bound order (jt + j) (it + i) ltac:(lia) Hy Hx).
    done.
  - intros st Hst. rewrite tiled_visit.
    destruct (visit_covers order (tiled_cells order tile_size) st) as (st' & ? & ? & _);
      eauto. { lia. } apply tiled_covers; lia.
Qed.

(** The theorem of C9 at order 4, tile size 2. *)
Lemma tiled_indices_in_bounds_witness :
  (forall it, it ∈ stride (iota 0 4) 2 <-> 0 <= it < 4 /\ (2 | it))
  /\ (forall i, i ∈ iota 0 2 <-> 0 <= i < 2)
  /\ (forall it jt i j,
        it ∈ stride (iota 0 4) 2 -> jt ∈ stride (iota 0 4) 2 ->
        i ∈ iota 0 2 -> j ∈ iota 0 2 ->
        idx 4 (Int.add it i) (Int.add jt j) = (it + i) * 4 + (jt + j)
        /\ idx 4 (Int.add jt j) (Int.add it i) = (jt + j) * 4 + (it + i)
        /\ 0 <= (it + i) * 4 + (jt + j) < 4 * 4
        /\ 0 <= (jt + j) * 4 + (it + i) < 4 * 4)
  /\ (forall st, sized 4 st -> exists st', tiled 4 2 st = Some st' /\ sized 4 st').
Proof.
  apply (tiled_indices_in_bounds 4 2).
  - lia.
  - reflexivity.
  - lia.
Defined.

(** C6.  With enough arguments, iterations >= 1 and an accepted order:
    a given tile size with [0 < tile_size < order] that does not divide
    the order makes configuration fail; the program prints the error on
    standard output, returns 1 and allocates and computes nothing.  An
    omitted tile size, or one that is [<= 0], resolves to the order and is
    accepted. *)
Theorem tile_size_must_divide max_matrix_size argv :
  (3 <= length argv)%nat ->
  1 <= Atoi.atoi (arg argv 1) ->
  0 < Atoi.atoi (arg argv 2) <= max_matrix_size ->
  let order := Atoi.atoi (arg argv 2) in
  let given := Atoi.atoi (arg argv 3) in
  ((3 < length argv)%nat -> 0 < given < order -> Z.rem order given <> 0 ->
     configure max_matrix_size argv
       = inl "ERROR: tile size must evenly divide order"%string
     /\ main max_matrix_size argv = Some tile_error)
  /\ (length argv = 3%nat \/ given <= 0 ->
       configure max_matrix_size argv
       = inr {| iterations := Atoi.atoi (arg argv 1); order := order;
                tile_size := order |}).
Proof.
  intros Hargc Hit Ho order given.
  assert (configure max_matrix_size argv
          = let t0 := if Z.of_nat (length argv) >? 3 then given else order in
            let t := if t0 <=? 0 then order else t0 in
            if (t <? order) && negb (Z.rem order t =? 0)
            then inl "ERROR: tile size must evenly divide order"%string
            else inr {| iterations := Atoi.atoi (arg argv 1); order := order;
                        tile_size := t |}) as E.
  { unfold configure.
    destruct (Z.ltb_spec (Z.of_nat (length argv)) 3); [lia|].
    destruct (Z.ltb_spec (Atoi.atoi (arg argv 1)) 1); [lia|].
    destruct (Z.leb_spec (Atoi.atoi (arg argv 2)) 0); [lia|].
    destruct (Z.gtb_spec (Atoi.atoi (arg argv 2)) max_matrix_size); [lia|].
    reflexivity. }
  split.
  - intros Hlen Hg Hrem.
    assert (configure max_matrix_size argv
            = inl "ERROR: tile size must evenly divide order"%string) as E'.
    { rewrite E. cbv zeta.
      destruct (Z.gtb_spec (Z.of_nat (length argv)) 3); [|lia].
      destruct (Z.leb_spec given 0); [lia|].
      destruct (Z.ltb_spec given order); [|lia].
      destruct (Z.eqb_spec (Z.rem order given) 0); [lia|]. reflexivity. }
    split; [assumption|]. unfold main. rewrite E'. reflexivity.
  - intros Hcase. rewrite E. cbv zeta.
    assert ((if (if Z.of_nat (length argv) >? 3 then given else order) <=? 0
             then order
             else if Z.of_nat (length argv) >? 3 then given else order) = order) as ->.
    { destruct (Z.gtb_spec (Z.of_nat (length argv)) 3).
      - destruct (Z.leb_spec given 0); [reflexivity|lia].
      - destruct (Z.leb_spec order 0); reflexivity. }
    by rewrite Z.ltb_irrefl.
Qed.

(** The theorem of C6 at [transpose 5 4 3]. *)
Lemma tile_size_must_divide_witness :
  ((3 < length argv_bad_tile)%nat ->
     0 < Atoi.atoi (arg argv_bad_tile 3) < Atoi.atoi (arg argv_bad_tile 2) ->
     Z.rem (Atoi.atoi (arg argv_bad_tile 2)) (Atoi.atoi (arg argv_bad_tile 3)) <> 0 ->
     configure 46340 argv_bad_tile
       = inl "ERROR: tile size must evenly divide order"%string
     /\ main 46340 argv_bad_tile = Some tile_error)
  /\ (length argv_bad_tile = 3%nat \/ Atoi.atoi (arg argv_bad_tile 3) <= 0 ->
       configure 46340 argv_bad_tile
       = inr {| iterations := Atoi.atoi (arg argv_bad_tile 1);
                order := Atoi.atoi (arg argv_bad_tile 2);
                tile_size := Atoi.atoi (arg argv_bad_tile 2) |}).
Proof.
  apply (tile_size_must_divide 46340 argv_bad_tile).
  - simpl. lia.
  - vm_compute. discriminate.
  - vm_compute. split; [reflexivity|discriminate].
Defined.
End TransposeTheorems.

(** ** stencil-vector-tbb.cc: the passes over the grid *)

Module StencilFacts.
Import Prog Stencil StencilSpec IntFacts ProgFacts.
#[local] Arguments B64.of_Z : simpl never.
#[local] Arguments B64.add : simpl never.
#[local] Arguments vget : simpl never.
#[local] Arguments vset : simpl never.

Lemma max_dimension_eq : max_dimension = 46340.
Proof. reflexivity. Qed.

(** A loop that rewrites one cell per visited index pair. *)
Lemma update_cells n (f : Z -> Z -> B64.double -> B64.double) :
  0 < n <= 46340 ->
  forall cells (A : vec),
  NoDup cells -> Forall (in_grid n) cells -> Z.of_nat (length A) = n * n ->
  exists A',
    for_each cells (fun A '(i, j) =>
      a ← vget A (idx n i j); vset A (idx n i j) (f i j a)) A = Some A'
    /\ length A' = length A
    /\ forall i j, in_grid n (i, j) ->
         vget A' (i * n + j)
         = (if decide ((i, j) ∈ cells) then f i j <$> vget A (i * n + j)
            else vget A (i * n + j)).
Proof.
  intros Hn. induction cells as [|[x y] cells IH]; intros A Hnd Hin HA.
  - exists A. split_and!; reflexivity.
  - apply NoDup_cons in Hnd as [Hxy Hnd]. apply Forall_cons in Hin as [[Hx Hy] Hin].
    simpl in Hx, Hy. cbn [for_each]. rewrite !idx_small by assumption.
    pose proof (idx_bound n x y ltac:(lia) Hx Hy) as Hb.
    destruct (vget_is_Some A (x * n + y)) as [a Ea]; [lia|].
    rewrite Ea. cbn [mbind option_bind]. rewrite vset_Some by lia.
    cbn [mbind option_bind].
    set (A1 := <[Z.to_nat (x * n + y) := f x y a]> A).
    assert (length A1 = length A) as HA1 by apply length_insert.
    destruct (IH A1 Hnd Hin ltac:(lia)) as (A' & -> & Hl & Hc).
    exists A'. split_and!; [reflexivity|lia|].
    intros i j [Hi Hj]. simpl in Hi, Hj. rewrite Hc by done. subst A1.
    destruct (decide ((i, j) = (x, y))) as [E|E].
    + simplify_eq. destruct (decide ((x, y) ∈ cells)) as [?|_]; [done|].
      destruct (decide ((x, y) ∈ (x, y) :: cells)) as [_|H]; [|by destruct H; left].
      rewrite vget_insert_eq by lia. by rewrite Ea.
    + assert (i * n + j <> x * n + y) as N.
      { intros H. destruct (idx_inj n i j x y); auto. congruence. }
      pose proof (idx_bound n i j ltac:(lia) Hi Hj).
      rewrite !vget_insert_ne by lia.
      destruct (decide ((i, j) ∈ cells)) as [H1|H1];
        destruct (decide ((i, j) ∈ (x, y) :: cells)) as [H2|H2]; try done.
      * destruct H2. by right.
      * apply elem_of_cons in H2 as [?|?]; done.
Qed.

Lemma grid_cells_spec n :
  NoDup (grid_cells n) /\ forall c, c ∈ grid_cells n <-> in_grid n c.
Proof.
  destruct (TransposeFacts.untiled_covers n) as [H1 H2].
  unfold Transpose.untiled_cells, Transpose.cartesian_product, Transpose.iota in *.
  rewrite Z.sub_0_r in *. split; [exact H1|exact H2].
Qed.

Lemma nested_as_cells {S} n (body : S -> Z -> Z -> option S) s :
  for_each (seqZ 0 n) (fun s i => for_each (seqZ 0 n) (fun s j => body s i j) s) s
  = for_each (grid_cells n) (fun s '(i, j) => body s i j) s.
Proof.
  unfold grid_cells. rewrite for_each_bind.
  apply for_each_ext. intros s' i _. rewrite for_each_bind.
  apply for_each_ext. intros s'' j _. simpl. by destruct (body s'' i j).
Qed.

(** [ParallelAdd]: every element of [A] is incremented once. *)
Lemma ParallelAdd_spec n tile_size (A : vec) :
  0 < n <= 46340 -> Z.of_nat (length A) = n * n ->
  exists A', ParallelAdd n tile_size A = Some A'
    /\ length A' = length A
    /\ forall i j, in_grid n (i, j) ->
         vget A' (i * n + j)
         = (fun a => B64.add a (B64.of_Z 1)) <$> vget A (i * n + j).
Proof.
  intros Hn HA. unfold ParallelAdd, parallel_for, Add, rows, cols. simpl.
  rewrite Z.sub_0_r, (nested_as_cells n (fun A i j =>
    a ← vget A (idx n i j); vset A (idx n i j) (B64.add a (B64.of_Z 1)))).
  destruct (grid_cells_spec n) as [Hnd Hin].
  destruct (update_cells n (fun _ _ a => B64.add a (B64.of_Z 1)) Hn
              (grid_cells n) A Hnd) as (A' & -> & Hl & Hc); [|assumption|].
  { apply Forall_forall. intros c. apply Hin. }
  exists A'. split_and!; [reflexivity|assumption|].
  intros i j Hij. rewrite Hc by assumption.
  destruct (decide _) as [_|N]; [reflexivity|]. destruct N. by apply Hin.
Qed.

Lemma vset_as_update (A : vec) k x :
  vset A k x = a ← vget A k; vset A k ((fun _ => x) a).
Proof.
  destruct (vget A k) as [a|] eqn:E; [reflexivity|].
  unfold vset, vget in *.
  destruct (Z.ltb_spec k 0), (Z.leb_spec 0 k); try lia; try reflexivity.
  apply lookup_ge_None in E.
  destruct (Z.ltb_spec k (Z.of_nat (length A))); [lia|reflexivity].
Qed.

Lemma for_each_pair {S T X} (xs : list X) (f : S -> X -> option S)
    (g : T -> X -> option T) a b :
  for_each xs (fun st x => a' ← f st.1 x; b' ← g st.2 x; Some (a', b')) (a, b)
  = a' ← for_each xs f a; b' ← for_each xs g b; Some (a', b').
Proof.
  revert a b. induction xs as [|x xs IH]; intros a b; [reflexivity|].
  cbn [for_each fst snd].
  destruct (f a x) as [a'|]; [|reflexivity]. cbn [mbind option_bind].
  destruct (g b x) as [b'|]; cbn [mbind option_bind].
  - apply IH.
  - by destruct (for_each xs f a').
Qed.

(** [ParallelInitialize]: [A[i*n+j] = i+j] and [B[i*n+j] = 0]. *)
Lemma ParallelInitialize_spec n tile_size (A B : vec) :
  0 < n <= 46340 -> Z.of_nat (length A) = n * n -> Z.of_nat (length B) = n * n ->
  exists A' B', ParallelInitialize n tile_size (A, B) = Some (A', B')
    /\ length A' = length A /\ length B' = length B
    /\ forall i j, in_grid n (i, j) ->
         vget A' (i * n + j) = Some (B64.of_Z (i + j))
         /\ vget B' (i * n + j) = Some (B64.of_Z 0).
Proof.
  intros Hn HA HB.
  destruct (grid_cells_spec n) as [Hnd Hin].
  assert (Forall (in_grid n) (grid_cells n)) as Hall.
  { apply Forall_forall. intros c. apply Hin. }
  pose (fA := fun (A : vec) (c : Z * Z) =>
    let '(i, j) := c in
    a ← vget A (idx n i j); vset A (idx n i j) (B64.of_Z (Int.add i j))).
  pose (fB := fun (B : vec) (c : Z * Z) =>
    let '(i, j) := c in
    b ← vget B (idx n i j); vset B (idx n i j) (B64.of_Z 0)).
  assert (ParallelInitialize n tile_size (A, B)
          = a' ← for_each (grid_cells n) fA A;
            b' ← for_each (grid_cells n) fB B; Some (a', b')) as ->.
  { unfold ParallelInitialize, parallel_for, Initialize, rows, cols.
    cbn [rows_begin rows_end cols_begin cols_end]. rewrite Z.sub_0_r.
    pose (body := fun (st : vec * vec) i j =>
      A' ← vset st.1 (idx n i j) (B64.of_Z (Int.add i j));
      B' ← vset st.2 (idx n i j) (B64.of_Z 0); Some (A', B')).
    etrans; [|etrans; [apply (nested_as_cells n body)|]].
    - apply for_each_ext. intros st i _. apply for_each_ext. by intros [A_ B_] j _.
    - etrans; [|apply (for_each_pair (grid_cells n) fA fB A B)].
      apply for_each_ext. intros [A_ B_] [i j] _. unfold body, fA, fB. cbn [fst snd].
      by rewrite <- !vset_as_update. }
  destruct (update_cells n (fun i j _ => B64.of_Z (Int.add i j)) Hn
              (grid_cells n) A Hnd Hall HA) as (A' & EA & HlA & HcA).
  destruct (update_cells n (fun _ _ _ => B64.of_Z 0) Hn
              (grid_cells n) B Hnd Hall HB) as (B' & EB & HlB & HcB).
  change (for_each (grid_cells n) fA A = Some A') in EA.
  change (for_each (grid_cells n) fB B = Some B') in EB.
  rewrite EA, EB.
  exists A', B'. split_and!; [reflexivity|assumption..|].
  intros i j Hij. rewrite HcA, HcB by assumption.
  destruct (decide _) as [_|N]; [|by destruct N; apply Hin].
  destruct Hij as [Hi Hj]. simpl in Hi, Hj.
  pose proof (idx_bound n i j ltac:(lia) Hi Hj).
  destruct (vget_is_Some A (i * n + j)) as [a ->]; [lia|].
  destruct (vget_is_Some B (i * n + j)) as [b ->]; [lia|].
  simpl. rewrite add_small by (unfold Int.in_range, Int.INT_MIN, Int.INT_MAX; lia).
  done.
Qed.

Section Kernel.
Variable weight : bool -> Z -> Z -> Z -> B64.double.

Lemma offsets_bounded star radius di dj :
  0 <= radius -> (di, dj) ∈ offsets star radius ->
  - radius <= di <= radius /\ - radius <= dj <= radius.
Proof.
  intros Hr. unfold offsets, star_offsets, grid_offsets. destruct star.
  - intros [E|H]%elem_of_cons.
    + simplify_eq. lia.
    + apply list_elem_of_bind in H as (d & H & Hd%elem_of_seqZ).
      repeat (apply elem_of_cons in H as [H|H]; [simplify_eq; lia|]).
      by apply elem_of_nil in H.
  - intros (x & H & Hx%elem_of_seqZ)%list_elem_of_bind.
    apply list_elem_of_bind in H as (y & H & Hy%elem_of_seqZ).
    apply list_elem_of_singleton in H. simplify_eq. lia.
Qed.

Lemma weighted_sum_Some star radius n (A : vec) i j :
  0 < n <= 46340 -> 0 <= radius -> Z.of_nat (length A) = n * n ->
  radius <= i < n - radius -> radius <= j < n - radius ->
  is_Some (weighted_sum weight star radius n A i j).
Proof.
  intros Hn Hr HA Hi Hj. unfold weighted_sum.
  destruct (for_each_invariant (fun _ => True) (offsets star radius)
    (fun acc '(di, dj) =>
       a ← vget A (idx n (i + di) (j + dj));
       Some (B64.add acc (B64.mul (weight star radius di dj) a)))
    (B64.of_Z 0)) as (s & -> & _); [|done|by eexists].
  intros acc [di dj] [Hdi Hdj]%offsets_bounded _; [|assumption].
  rewrite idx_small by lia.
  pose proof (idx_bound n (i + di) (j + dj) ltac:(lia) ltac:(lia) ltac:(lia)).
  destruct (vget_is_Some A ((i + di) * n + (j + dj))) as [a ->]; [lia|].
  by eexists.
Qed.

(** The stencil over the interior reads [A] inside its bounds and keeps
    the size of [B]. *)
Lemma kernel_sized star radius n (A B : vec) :
  0 < n <= 46340 -> 1 <= radius -> 2 * radius + 1 <= n ->
  Z.of_nat (length A) = n * n -> Z.of_nat (length B) = n * n ->
  exists B', parallel_for (interior radius n) (kernel weight star radius n A) B
             = Some B'
    /\ length B' = length B.
Proof.
  intros Hn Hr Hrn HA HB. unfold parallel_for, kernel, interior, rows, cols.
  cbn [rows_begin rows_end cols_begin cols_end].
  rewrite sub_small by (unfold Int.in_range, Int.INT_MIN, Int.INT_MAX; lia).
  apply (for_each_invariant (fun B' : vec => length B' = length B)); [|reflexivity].
  intros B1 i Hi%elem_of_seqZ HB1.
  apply (for_each_invariant (fun B' : vec => length B' = length B)); [|assumption].
  intros B2 j Hj%elem_of_seqZ HB2.
  destruct (weighted_sum_Some star radius n A i j) as [s ->]; try lia.
  rewrite idx_small by lia.
  pose proof (idx_bound n i j ltac:(lia) ltac:(lia) ltac:(lia)).
  destruct (vget_is_Some B2 (i * n + j)) as [b ->]; [lia|].
  cbn [mbind option_bind]. rewrite vset_Some by lia.
  eexists. split; [reflexivity|]. by rewrite length_insert.
Qed.

(** The two switches, read as one test on the radius. *)
Lemma apply_stencil_cases c (A B : vec) :
  apply_stencil weight c A B
  = if instantiated (radius c)
    then B' ← parallel_for (interior (radius c) (n c))
                (kernel weight (star c) (radius c) (n c) A) B;
         Some (B', [])
    else Some (B, [not_instantiated (radius c)]).
Proof.
  unfold apply_stencil, instantiated, ParallelStar, ParallelGrid.
  destruct (star c);
    (destruct (radius c) as [|p|p]; [reflexivity| |reflexivity];
     do 4 (try destruct p as [p|p|]); reflexivity).
Qed.

Lemma pass_A_after c k st :
  0 < n c <= 46340 ->
  (instantiated (radius c) = true -> 2 * radius c + 1 <= n c) ->
  0 <= k -> 2 * n c + k < 2 ^ 53 ->
  A_after (n c) k st ->
  exists st', pass weight c st = Some st' /\ A_after (n c) (k + 1) st'
    /\ ParallelAdd (n c) (tile_size c) (st_A st) = Some (st_A st')
    /\ (instantiated (radius c) = false ->
          apply_stencil weight c (st_A st) (st_B st)
            = Some (st_B st, [not_instantiated (radius c)])
          /\ st_B st' = st_B st
          /\ st_err st' = st_err st ++ [not_instantiated (radius c)]).
Proof.
  intros Hn Hr Hk Hb (HA & HB & Hc). unfold pass.
  destruct (ParallelAdd_spec (n c) (tile_size c) (st_A st) Hn HA) as (A' & EA & HlA & HcA).
  rewrite apply_stencil_cases.
  assert (forall i j, in_grid (n c) (i, j) ->
            vget A' (i * n c + j) = Some (B64.of_Z (i + j + (k + 1)))) as HA'.
  { intros i j Hij. rewrite HcA, Hc by assumption. simpl.
    destruct Hij as [Hi Hj]. simpl in Hi, Hj.
    rewrite B64Facts.add_of_Z by lia. do 2 f_equal. lia. }
  destruct (instantiated (radius c)) eqn:Ei.
  - apply andb_prop in Ei as [H1%Z.leb_le H9%Z.leb_le].
    destruct (kernel_sized (star c) (radius c) (n c) (st_A st) (st_B st))
      as (B' & -> & HlB); auto.
    cbn [mbind option_bind]. rewrite EA. cbn [mbind option_bind].
    eexists. split; [reflexivity|]. split_and!; try done.
    split_and!; cbn [st_A st_B]; [lia|lia|assumption].
  - cbn [mbind option_bind]. rewrite EA. cbn [mbind option_bind].
    eexists. split; [reflexivity|]. split_and!; try done.
    split_and!; cbn [st_A st_B]; [lia|lia|assumption].
Qed.

Lemma stencil_passes_succ c k st :
  passes weight c (N.succ k) st = passes weight c k st ≫= pass weight c.
Proof. unfold passes. by rewrite N.iter_succ. Qed.

Lemma stencil_loop_passes c st : iterations c < Int.INT_MAX ->
  compute_loop weight c st = passes weight c (Z.to_N (iterations c + 1)) st.
Proof.
  intros H. unfold compute_loop.
  destruct (Z.eqb_spec (iterations c) Int.INT_MAX); [lia|reflexivity].
Qed.

Lemma passes_A_after c (K : N) st0 :
  0 < n c <= 46340 ->
  (instantiated (radius c) = true -> 2 * radius c + 1 <= n c) ->
  2 * n c + Z.of_N K < 2 ^ 53 ->
  A_after (n c) 0 st0 ->
  exists st, passes weight c K st0 = Some st /\ A_after (n c) (Z.of_N K) st
    /\ (instantiated (radius c) = false ->
          st_B st = st_B st0
          /\ st_err st = st_err st0
                         ++ replicate (N.to_nat K) (not_instantiated (radius c))).
Proof.
  intros Hn Hr. induction K as [|K IH] using N.peano_ind; intros Hb H0.
  - exists st0. split_and!; [reflexivity|assumption|].
    intros _. by rewrite app_nil_r.
  - destruct IH as (st & E & Hst & Hd); [lia|assumption|].
    destruct (pass_A_after c (Z.of_N K) st) as (st' & E' & Hst' & _ & Hd'); auto; try lia.
    exists st'. rewrite stencil_passes_succ, E. split_and!; [exact E'| |].
    + rewrite N2Z.inj_succ. exact Hst'.
    + intros Hi. destruct (Hd Hi) as [EB Ee], (Hd' Hi) as (_ & EB' & Ee').
      split; [congruence|]. rewrite Ee', Ee, N2Nat.inj_succ, <- app_assoc.
      f_equal. symmetry. apply replicate_S_end.
Qed.

End Kernel.

Lemma initial_spec c :
  0 < n c <= 46340 ->
  exists st0, initial c = Some st0 /\ A_after (n c) 0 st0 /\ st_err st0 = []
    /\ forall i j, in_grid (n c) (i, j) ->
         vget (st_B st0) (i * n c + j) = Some (B64.of_Z 0).
Proof.
  intros Hn. unfold initial, allocate.
  rewrite mul_small by (unfold Int.in_range, Int.INT_MIN, Int.INT_MAX; nia).
  destruct (ParallelInitialize_spec (n c) (tile_size c)
              (replicate (Z.to_nat (n c * n c)) (B64.of_Z 0))
              (replicate (Z.to_nat (n c * n c)) (B64.of_Z 0)))
    as (A & B & -> & HlA & HlB & Hc); auto; try (rewrite length_replicate; nia).
  rewrite length_replicate in HlA, HlB.
  eexists. split; [reflexivity|]. unfold A_after. cbn [st_A st_B st_err].
  repeat split; try nia.
  - intros i j Hij. destruct (Hc i j Hij) as [-> _]. do 2 f_equal. lia.
  - intros i j Hij. by destruct (Hc i j Hij) as [_ ->].
Qed.

Lemma configure_accepted argv c : configure argv = inr c -> accepted argv c.
Proof.
  unfold configure. rewrite max_dimension_eq.
  destruct (_ <? 3); [discriminate|].
  destruct (Z.ltb_spec (Atoi.atoi (arg argv 1)) 1); [discriminate|].
  destruct (Z.ltb_spec (Atoi.atoi (arg argv 2)) 1); [discriminate|].
  destruct (Z.gtb_spec (Atoi.atoi (arg argv 2)) 46340); [discriminate|].
  destruct (Z.ltb_spec (resolve_radius argv) 1); [discriminate|].
  destruct (Z.gtb_spec (Int.add (Int.mul 2 (resolve_radius argv)) 1)
              (Atoi.atoi (arg argv 2))); [discriminate|].
  simpl. intros [= <-]. unfold accepted. simpl.
  pose proof (atoi_in_range (arg argv 1)) as [_ ?]. split_and!; auto; lia.
Qed.

Lemma instantiated_fits c argv : accepted argv c ->
  instantiated (radius c) = true -> 2 * radius c + 1 <= n c.
Proof.
  intros (_ & _ & _ & H & _) [H1%Z.leb_le H9%Z.leb_le]%andb_prop.
  rewrite mul_small, add_small in H
    by (unfold Int.in_range, Int.INT_MIN, Int.INT_MAX; lia). exact H.
Qed.
End StencilFacts.

(** ** stencil-vector-tbb.cc: the program *)

Module StencilTheorems.
Import Prog Stencil StencilSpec IntFacts ProgFacts StencilFacts.
#[local] Arguments B64.of_Z : simpl never.

Lemma l1_norm_Some c (B : vec) :
  0 < n c <= 46340 -> 1 <= radius c -> 2 * radius c + 1 <= n c ->
  Z.of_nat (length B) = n c * n c -> is_Some (l1_norm c B).
Proof.
  intros Hn Hr Hrn HB. unfold l1_norm.
  rewrite sub_small by (unfold Int.in_range, Int.INT_MIN, Int.INT_MAX; lia).
  match goal with |- is_Some (for_each ?xs ?f ?s ≫= _) =>
    destruct (for_each_invariant (fun _ => True) xs f s) as (x & -> & _)
  end; [|done|by eexists].
  intros a i Hi%elem_of_seqZ _. apply for_each_invariant; [|done].
  intros a' j Hj%elem_of_seqZ _. rewrite idx_small by lia.
  pose proof (idx_bound (n c) i j ltac:(lia) ltac:(lia) ltac:(lia)).
  destruct (vget_is_Some B (i * n c + j)) as [b ->]; [lia|]. by eexists.
Qed.

(** C8.  For every configuration accepted by [configure] (unsupported
    radii included), initialisation gives [A[i*n+j] = i+j] and after
    [iterations + 1] trips through the compute loop every element satisfies
    [A[i*n+j] = (i+j) + (iterations+1)], exactly; this is the state in which
    the loop ends (for [iterations < INT_MAX], where the loop counter does
    not overflow).  In each trip the new [A] is the result of [ParallelAdd]
    on the old [A] alone (the stencil step returns only [B]), one more in
    every element. *)
Theorem A_after_all_iterations weight argv c :
  configure argv = inr c ->
  exists st0 st,
    initial c = Some st0
    /\ passes weight c (Z.to_N (iterations c + 1)) st0 = Some st
    /\ (iterations c < Int.INT_MAX -> compute_loop weight c st0 = Some st)
    /\ (forall i j, 0 <= i < n c -> 0 <= j < n c ->
          vget (st_A st0) (i * n c + j) = Some (B64.of_Z (i + j))
          /\ vget (st_A st) (i * n c + j)
             = Some (B64.of_Z ((i + j) + (iterations c + 1))))
    /\ (forall s s', Z.of_nat (length (st_A s)) = n c * n c ->
          pass weight c s = Some s' ->
          ParallelAdd (n c) (tile_size c) (st_A s) = Some (st_A s')
          /\ forall i j, 0 <= i < n c -> 0 <= j < n c ->
               vget (st_A s') (i * n c + j)
               = (fun a => B64.add a (B64.of_Z 1)) <$> vget (st_A s) (i * n c + j)).
Proof.
  intros Hcfg. pose proof (configure_accepted _ _ Hcfg) as Hacc.
  pose proof Hacc as (Hit & Hn & Hr & _). unfold Int.INT_MAX in Hit.
  destruct (initial_spec c) as (st0 & E0 & H0 & _); [lia|].
  destruct (passes_A_after weight c (Z.to_N (iterations c + 1)) st0)
    as (st & E & (_ & _ & Hst) & _); auto; try lia.
  { by apply (instantiated_fits c argv). }
  rewrite Z2N.id in Hst by lia.
  exists st0, st. split_and!; auto.
  - intros Hlt. by rewrite stencil_loop_passes.
  - intros i j Hi Hj. destruct H0 as (_ & _ & H0). split.
    + rewrite H0 by done. do 2 f_equal. lia.
    + by apply Hst.
  - intros s s' Hs Hp. unfold pass in Hp.
    destruct (apply_stencil weight c (st_A s) (st_B s)) as [[B' w]|]; [|discriminate].
    cbn [mbind option_bind] in Hp.
    destruct (ParallelAdd_spec (n c) (tile_size c) (st_A s)) as (A' & EA & _ & HA');
      [lia|assumption|].
    rewrite EA in Hp |- *. injection Hp as <-. cbn [st_A]. split; [reflexivity|].
    intros i j Hi Hj. by apply HA'.
Qed.

(** The theorem of C8 at [stencil 2 5 1 star 2]. *)
Lemma A_after_all_iterations_witness :
  exists st0 st,
    initial c_s = Some st0
    /\ passes w_zero c_s (Z.to_N (iterations c_s + 1)) st0 = Some st
    /\ (iterations c_s < Int.INT_MAX -> compute_loop w_zero c_s st0 = Some st)
    /\ (forall i j, 0 <= i < n c_s -> 0 <= j < n c_s ->
          vget (st_A st0) (i * n c_s + j) = Some (B64.of_Z (i + j))
          /\ vget (st_A st) (i * n c_s + j)
             = Some (B64.of_Z ((i + j) + (iterations c_s + 1))))
    /\ (forall s s', Z.of_nat (length (st_A s)) = n c_s * n c_s ->
          pass w_zero c_s s = Some s' ->
          ParallelAdd (n c_s) (tile_size c_s) (st_A s) = Some (st_A s')
          /\ forall i j, 0 <= i < n c_s -> 0 <= j < n c_s ->
               vget (st_A s') (i * n c_s + j)
               = (fun a => B64.add a (B64.of_Z 1))
                   <$> vget (st_A s) (i * n c_s + j)).
Proof.
  apply (A_after_all_iterations w_zero argv_s c_s).
  vm_compute. reflexivity.
Defined.

(** C5.  For an accepted configuration with [radius >= 10] and
    [2*radius+1 <= n] the run is not aborted: in every trip the switch
    takes its default, which leaves [B] as it is and writes one warning to
    the error stream; [A] is incremented in each trip and all
    [iterations + 1] trips run, so [B] is still all zeros and there are
    [iterations + 1] warnings.  The loop ends in that state and the program
    goes on to its verification and returns (for [iterations < INT_MAX],
    where the loop counter does not overflow). *)
Theorem unsupported_radius_runs weight argv c :
  configure argv = inr c -> 10 <= radius c -> 2 * radius c + 1 <= n c ->
  exists st0 st,
    initial c = Some st0
    /\ passes weight c (Z.to_N (iterations c + 1)) st0 = Some st
    /\ (forall A B, apply_stencil weight c A B
                     = Some (B, [not_instantiated (radius c)]))
    /\ st_B st = st_B st0
    /\ (forall i j, 0 <= i < n c -> 0 <= j < n c ->
          vget (st_B st) (i * n c + j) = Some (B64.of_Z 0)
          /\ vget (st_A st) (i * n c + j)
             = Some (B64.of_Z ((i + j) + (iterations c + 1))))
    /\ st_err st = replicate (Z.to_nat (iterations c + 1))
                              (not_instantiated (radius c))
    /\ (iterations c < Int.INT_MAX ->
          compute_loop weight c st0 = Some st
          /\ exists r, main weight argv = Some r
               /\ stderr r = st_err st
               /\ arrays r = Some (st_A st, st_B st)).
Proof.
  intros Hcfg H10 Hfit. pose proof (configure_accepted _ _ Hcfg) as Hacc.
  pose proof Hacc as (Hit & Hn & Hr & _). unfold Int.INT_MAX in Hit.
  assert (instantiated (radius c) = false) as Hi.
  { unfold instantiated. destruct (Z.leb_spec (radius c) 9); [lia|].
    by rewrite andb_false_r. }
  destruct (initial_spec c) as (st0 & E0 & H0 & He0 & HB0); [lia|].
  destruct (passes_A_after weight c (Z.to_N (iterations c + 1)) st0)
    as (st & E & (HlA & HlB & Hst) & Hd); auto; try lia.
  destruct (Hd Hi) as [EB Ee]. rewrite Z2N.id in Hst by lia.
  destruct (l1_norm_Some c (st_B st)) as [norm En]; auto; try lia.
  exists st0, st. split_and!; auto.
  - intros A B. rewrite apply_stencil_cases, Hi. reflexivity.
  - intros i j Hi' Hj. split; [rewrite EB; by apply HB0|by apply Hst].
  - rewrite Ee, He0, Z_N_nat. reflexivity.
  - intros Hlt. split; [by rewrite stencil_loop_passes|].
    unfold main. rewrite Hcfg, E0. cbn [mbind option_bind].
    rewrite stencil_loop_passes, E by assumption.
    cbn [mbind option_bind]. rewrite En. cbn [mbind option_bind].
    destruct (B64.ltb _ _); eexists; split_and!; reflexivity.
Qed.

(** The theorem of C5 at [stencil 1 21 5 grid 10]. *)
Lemma unsupported_radius_runs_witness :
  exists st0 st,
    initial c_r10 = Some st0
    /\ passes w_zero c_r10 (Z.to_N (iterations c_r10 + 1)) st0 = Some st
    /\ (forall A B, apply_stencil w_zero c_r10 A B
                     = Some (B, [not_instantiated (radius c_r10)]))
    /\ st_B st = st_B st0
    /\ (forall i j, 0 <= i < n c_r10 -> 0 <= j < n c_r10 ->
          vget (st_B st) (i * n c_r10 + j) = Some (B64.of_Z 0)
          /\ vget (st_A st) (i * n c_r10 + j)
             = Some (B64.of_Z ((i + j) + (iterations c_r10 + 1))))
    /\ st_err st = replicate (Z.to_nat (iterations c_r10 + 1))
                              (not_instantiated (radius c_r10))
    /\ (iterations c_r10 < Int.INT_MAX ->
          compute_loop w_zero c_r10 st0 = Some st
          /\ exists r, main w_zero argv_r10 = Some r
               /\ stderr r = st_err st
               /\ arrays r = Some (st_A st, st_B st)).
Proof.
  apply (unsupported_radius_runs w_zero argv_r10 c_r10).
  - vm_compute. reflexivity.
  - vm_compute. discriminate.
  - vm_compute. discriminate.
Defined.

Lemma arg_insert_ne (argv : list string) k k' tok :
  k <> k' -> arg (<[k := tok]> argv) k' = arg argv k'.
Proof.
  intros H. unfold arg. by rewrite !nth_lookup, list_lookup_insert_ne.
Qed.

(** Apart from the shape flag, [configure] does not look at [argv[4]]. *)
Lemma configure_shape_token argv tok :
  configure (<[4%nat := tok]> argv)
  = match configure argv with
    | inl e => inl e
    | inr c => inr {| iterations := iterations c; n := n c;
                      tile_size := tile_size c;
                      star := resolve_star (<[4%nat := tok]> argv);
                      radius := radius c |}
    end.
Proof.
  unfold configure, resolve_tile_size, resolve_radius.
  rewrite length_insert, !arg_insert_ne by lia.
  repeat match goal with |- context [if ?b then _ else _] =>
    lazymatch b with
    | String.eqb _ _ => fail
    | _ => destruct b eqn:?
    end
  end; reflexivity.
Qed.

(** C10.  A fourth argument other than exactly "grid" selects the star
    shape, and the program then behaves as with "star": same configuration,
    same run.  Whatever the token is, it changes neither whether
    configuration fails nor the error reported. *)
Theorem shape_token_never_fails weight argv :
  (4 < length argv)%nat -> arg argv 4 <> "grid"%string ->
  resolve_star argv = true
  /\ resolve_star (<[4%nat := "star"%string]> argv) = true
  /\ configure argv = configure (<[4%nat := "star"%string]> argv)
  /\ main weight argv = main weight (<[4%nat := "star"%string]> argv)
  /\ (forall tok e, configure (<[4%nat := tok]> argv) = inl e
                     <-> configure argv = inl e).
Proof.
  intros Hlen Hne.
  assert (resolve_star argv = true) as Hs.
  { unfold resolve_star. destruct (_ >? 4); [|reflexivity].
    destruct (String.eqb_spec (arg argv 4) "grid"); [done|reflexivity]. }
  assert (resolve_star (<[4%nat := "star"%string]> argv) = true) as Hs'.
  { unfold resolve_star. destruct (_ >? 4); [|reflexivity].
    unfold arg. rewrite nth_lookup, list_lookup_insert_eq by lia. reflexivity. }
  assert (configure argv = configure (<[4%nat := "star"%string]> argv)) as Hc.
  { rewrite configure_shape_token, Hs'.
    destruct (configure argv) as [e|c] eqn:E; [reflexivity|].
    pose proof (configure_accepted _ _ E) as (_ & _ & _ & _ & ->).
    cbn [iterations n tile_size radius]. by rewrite Hs. }
  split_and!; auto.
  - unfold main. by rewrite <- Hc.
  - intros tok e. rewrite configure_shape_token.
    destruct (configure argv); split; congruence.
Qed.

(** The theorem of C10 at [stencil 2 5 1 Grid 2]. *)
Lemma shape_token_never_fails_witness :
  resolve_star argv_Grid = true
  /\ resolve_star (<[4%nat := "star"%string]> argv_Grid) = true
  /\ configure argv_Grid = configure (<[4%nat := "star"%string]> argv_Grid)
  /\ main w_zero argv_Grid = main w_zero (<[4%nat := "star"%string]> argv_Grid)
  /\ (forall tok e, configure (<[4%nat := tok]> argv_Grid) = inl e
                     <-> configure argv_Grid = inl e).
Proof.
  apply (shape_token_never_fails w_zero argv_Grid).
  - simpl. lia.
  - vm_compute. discriminate.
Defined.

(** While [2*radius+1] is representable, a radius out of its range is
    rejected before anything is allocated. *)
Lemma radius_rejected weight argv :
  (3 <= length argv)%nat ->
  1 <= Atoi.atoi (arg argv 1) ->
  1 <= Atoi.atoi (arg argv 2) <= 46340 ->
  resolve_radius argv < 1 \/ 2 * resolve_radius argv + 1 > Atoi.atoi (arg argv 2) ->
  resolve_radius argv <= 1073741823 ->
  configure argv = inl "ERROR: Stencil radius negative or too large"%string
  /\ main weight argv = Some radius_error.
Proof.
  intros Hlen Hit Hn Hr Hmax.
  assert (configure argv = inl "ERROR: Stencil radius negative or too large"%string) as E.
  { unfold configure. rewrite max_dimension_eq.
    destruct (Z.ltb_spec (Z.of_nat (length argv)) 3); [lia|].
    destruct (Z.ltb_spec (Atoi.atoi (arg argv 1)) 1); [lia|].
    destruct (Z.ltb_spec (Atoi.atoi (arg argv 2)) 1); [lia|].
    destruct (Z.gtb_spec (Atoi.atoi (arg argv 2)) 46340); [lia|].
    destruct (Z.ltb_spec (resolve_radius argv) 1); [reflexivity|].
    rewrite mul_small, add_small
      by (unfold Int.in_range, Int.INT_MIN, Int.INT_MAX; lia).
    destruct (Z.gtb_spec (2 * resolve_radius argv + 1) (Atoi.atoi (arg argv 2)));
      [reflexivity|lia]. }
  split; [exact E|]. unfold main. by rewrite E.
Qed.

(** C4, at [stencil 1 1 1 star 1073741824].  The radius violates
    [2*radius+1 <= n], but [2*radius+1] wraps around to -2147483647 in
    [int], the check of line 197 does not fire, and the program allocates
    the arrays, runs both trips of the loop and only fails in its final
    verification. *)
Theorem radius_check_overflows weight :
  resolve_radius argv_overflow = 1073741824
  /\ 2 * resolve_radius argv_overflow + 1 > Atoi.atoi (arg argv_overflow 2)
  /\ Int.add (Int.mul 2 (resolve_radius argv_overflow)) 1 = -2147483647
  /\ configure argv_overflow = inr c_overflow
  /\ main weight argv_overflow
     = Some {| stdout := banner ++ echo c_overflow
                 ++ [Discrepancy "ERROR: L1 norm = " (B64.of_Z 0)
                                 " Reference L1 norm = " (B64.of_Z 4)];
               stderr := [not_instantiated 1073741824;
                          not_instantiated 1073741824];
               exit_code := 1;
               arrays := Some ([B64.of_Z 2], [B64.of_Z 0]) |}.
Proof.
  split_and!; vm_compute; reflexivity.
Qed.
End StencilTheorems.

(** ** The optional tile size, in both programs *)

Module TileSize.
Import Prog TileSizeSpec.
(** C7 (amended).  transpose: an omitted tile size, or a given one that
    is [<= 0], resolves to the matrix order; a positive one is kept as
    given, also above the order (the run is then untiled).  stencil: an
    omitted tile size resolves to 32 whatever the grid size; a given one
    outside [1, n] resolves to [n], one inside is kept. *)
Theorem tile_size_resolution max_matrix_size argv_t ct argv_s cs :
  Transpose.configure max_matrix_size argv_t = inr ct ->
  Stencil.configure argv_s = inr cs ->
  let given_t := Atoi.atoi (arg argv_t 3) in
  let given_s := Atoi.atoi (arg argv_s 3) in
  ((length argv_t <= 3)%nat -> Transpose.tile_size ct = Transpose.order ct)
  /\ ((3 < length argv_t)%nat -> given_t <= 0 ->
        Transpose.tile_size ct = Transpose.order ct)
  /\ ((3 < length argv_t)%nat -> 0 < given_t -> Transpose.tile_size ct = given_t)
  /\ ((length argv_s <= 3)%nat -> Stencil.tile_size cs = 32)
  /\ ((3 < length argv_s)%nat -> given_s < 1 \/ given_s > Stencil.n cs ->
        Stencil.tile_size cs = Stencil.n cs)
  /\ ((3 < length argv_s)%nat -> 1 <= given_s <= Stencil.n cs ->
        Stencil.tile_size cs = given_s).
Proof.
  intros Ht Hs given_t given_s.
  apply StencilFacts.configure_accepted in Hs as (_ & _ & _ & _ & ->).
  cbn [Stencil.tile_size Stencil.n]. unfold Stencil.resolve_tile_size.
  fold given_s.
  assert (Transpose.order ct = Atoi.atoi (arg argv_t 2)
          /\ Transpose.tile_size ct
             = let t0 := if Z.of_nat (length argv_t) >? 3 then given_t
                         else Atoi.atoi (arg argv_t 2) in
               if t0 <=? 0 then Atoi.atoi (arg argv_t 2) else t0) as [Eo Et].
  { revert Ht. unfold Transpose.configure.
    repeat match goal with |- context [if ?b then inl _ else _] =>
      destruct b; [discriminate|] end.
    by intros [= <-]. }
  rewrite Et, Eo. cbv zeta. split_and!.
  - intros H. destruct (Z.gtb_spec (Z.of_nat (length argv_t)) 3); [lia|].
    by destruct (_ <=? 0).
  - intros H H'. destruct (Z.gtb_spec (Z.of_nat (length argv_t)) 3); [|lia].
    destruct (Z.leb_spec given_t 0); [reflexivity|lia].
  - intros H H'. destruct (Z.gtb_spec (Z.of_nat (length argv_t)) 3); [|lia].
    destruct (Z.leb_spec given_t 0); [lia|reflexivity].
  - intros H. destruct (Z.gtb_spec (Z.of_nat (length argv_s)) 3); [lia|reflexivity].
  - intros H H'. destruct (Z.gtb_spec (Z.of_nat (length argv_s)) 3); [|lia].
    destruct (Z.ltb_spec given_s 1); [reflexivity|].
    destruct (Z.gtb_spec given_s (Atoi.atoi (arg argv_s 2))); [reflexivity|lia].
  - intros H H'. destruct (Z.gtb_spec (Z.of_nat (length argv_s)) 3); [|lia].
    destruct (Z.ltb_spec given_s 1); [lia|].
    destruct (Z.gtb_spec given_s (Atoi.atoi (arg argv_s 2))); [lia|reflexivity].
Qed.

(** The theorem of C7 at [transpose 1 4 7] and [stencil 1 100]. *)
Lemma tile_size_resolution_witness :
  ((length argv_t7 <= 3)%nat -> Transpose.tile_size c_t7 = Transpose.order c_t7)
  /\ ((3 < length argv_t7)%nat -> Atoi.atoi (arg argv_t7 3) <= 0 ->
        Transpose.tile_size c_t7 = Transpose.order c_t7)
  /\ ((3 < length argv_t7)%nat -> 0 < Atoi.atoi (arg argv_t7 3) ->
        Transpose.tile_size c_t7 = Atoi.atoi (arg argv_t7 3))
  /\ ((length argv_s100 <= 3)%nat -> Stencil.tile_size c_s100 = 32)
  /\ ((3 < length argv_s100)%nat ->
        Atoi.atoi (arg argv_s100 3) < 1
        \/ Atoi.atoi (arg argv_s100 3) > Stencil.n c_s100 ->
        Stencil.tile_size c_s100 = Stencil.n c_s100)
  /\ ((3 < length argv_s100)%nat ->
        1 <= Atoi.atoi (arg argv_s100 3) <= Stencil.n c_s100 ->
        Stencil.tile_size c_s100 = Atoi.atoi (arg argv_s100 3)).
Proof.
  apply (tile_size_resolution 46340 argv_t7 c_t7 argv_s100 c_s100).
  - vm_compute. reflexivity.
  - vm_compute. reflexivity.
Defined.

(** C7 as stated fails: [stencil 1 100] omits the tile size and resolves
    it to 32, not to the grid size 100; [transpose 1 4 7] keeps the tile
    size 7 above the order 4. *)
Lemma tile_size_not_clamped_counterexample :
  (Stencil.configure argv_s100 = inr c_s100
   /\ length argv_s100 = 3%nat
   /\ Stencil.tile_size c_s100 <> Stencil.n c_s100)
  /\ (Transpose.configure 46340 argv_t7 = inr c_t7
      /\ Atoi.atoi (arg argv_t7 3) = 7
      /\ ~ (1 <= Transpose.tile_size c_t7 <= Transpose.order c_t7)).
Proof.
  split; split_and!; try (vm_compute; reflexivity).
  - vm_compute. discriminate.
  - vm_compute. intros [_ H]. by apply H.
Qed.
End TileSize.

(** * Further properties of the two programs *)

(** ** [std::atoi] on decimal numerals *)

Module AtoiFacts.
Import Int Atoi.

Lemma pretty_N_char_digit d : (d < 10)%N ->
  is_digit (pretty_N_char d) = true /\ digit (pretty_N_char d) = Z.of_N d
  /\ is_space (pretty_N_char d) = false
  /\ pretty_N_char d <> "-"%char /\ pretty_N_char d <> "+"%char.
Proof.
  intros H.
  assert (d = 0 \/ d = 1 \/ d = 2 \/ d = 3 \/ d = 4 \/ d = 5 \/ d = 6 \/ d = 7
          \/ d = 8 \/ d = 9)%N as Hd by lia.
  repeat destruct Hd as [->|Hd]; try subst d; vm_compute; repeat split; congruence.
Qed.

Lemma digits_pretty_N_go x : forall s,
  digits (pretty_N_go x s) 0 = digits s (Z.of_N x).
Proof.
  induction (N.lt_wf_0 x) as [x _ IH]; intros s.
  destruct (N.eq_0_gt_0_cases x) as [->|Hx]; [done|].
  rewrite pretty_N_go_step by done.
  rewrite IH by (by apply N.div_lt).
  destruct (pretty_N_char_digit (x `mod` 10)%N) as (Hd & Hv & _);
    [by apply N.mod_lt|].
  cbn [digits]. rewrite Hd, Hv. f_equal.
  rewrite (N.div_mod x 10) at 3 by done. lia.
Qed.

Lemma pretty_N_go_head x : forall s, (0 < x)%N ->
  exists d r, (d < 10)%N /\ pretty_N_go x s = String (pretty_N_char d) r.
Proof.
  induction (N.lt_wf_0 x) as [x _ IH]; intros s Hx.
  rewrite pretty_N_go_step by done.
  destruct (N.eq_0_gt_0_cases (x `div` 10)) as [->|Hq].
  - rewrite pretty_N_go_0. exists (x `mod` 10)%N, s. split; [|done].
    by apply N.mod_lt.
  - apply IH; [by apply N.div_lt|done].
Qed.

Lemma strtol_digit_head c r :
  is_digit c = true -> is_space c = false -> c <> "-"%char -> c <> "+"%char ->
  strtol (String c r)
  = Z.max LONG_MIN (Z.min LONG_MAX (digits (String c r) 0)).
Proof.
  intros Hd Hs Hm Hp. unfold strtol. cbn [skip_space]. rewrite Hs.
  destruct c as [[] [] [] [] [] [] [] []]; try done.
Qed.

Lemma atoi_pretty_pos p : Z.pos p <= INT_MAX -> atoi (pretty (Z.pos p)) = Z.pos p.
Proof.
  intros Hp. unfold atoi, pretty, pretty_Z, pretty, pretty_positive, pretty, pretty_N.
  rewrite decide_False by done.
  destruct (pretty_N_go_head (N.pos p) "") as (d & r & Hd & E); [done|].
  destruct (pretty_N_char_digit d Hd) as (H1 & _ & H2 & H3 & H4).
  rewrite E, strtol_digit_head by done. rewrite <- E, digits_pretty_N_go.
  cbn [digits]. unfold INT_MAX, LONG_MIN, LONG_MAX in *.
  rewrite Z.min_r, Z.max_r by lia. apply IntFacts.wrap_small.
  unfold in_range, INT_MIN, INT_MAX. lia.
Qed.

Lemma atoi_pretty z : INT_MIN <= z <= INT_MAX -> atoi (pretty z) = z.
Proof.
  intros Hz. destruct z as [|p|p].
  - done.
  - apply atoi_pretty_pos. lia.
  - unfold atoi, pretty, pretty_Z, pretty, pretty_positive, pretty, pretty_N.
    rewrite decide_False by done. unfold strtol.
    change (skip_space ("-" +:+ pretty_N_go (N.pos p) ""))
      with (String "-" (pretty_N_go (N.pos p) "")).
    cbv iota beta. rewrite digits_pretty_N_go. cbn [digits].
    unfold INT_MIN, INT_MAX, LONG_MIN, LONG_MAX in *.
    rewrite Z.min_r, Z.max_r by lia. apply IntFacts.wrap_small.
    unfold in_range, INT_MIN, INT_MAX. lia.
Qed.

Lemma atoi_no_number s :
  match s with
  | EmptyString => True
  | String c _ => is_space c = false /\ is_digit c = false
                  /\ c <> "-"%char /\ c <> "+"%char
  end -> atoi s = 0.
Proof.
  destruct s as [|c s]; [done|]. intros (Hs & Hd & Hm & Hp).
  unfold atoi, strtol. cbn [skip_space]. rewrite Hs.
  assert (digits (String c s) 0 = 0) as E by (cbn [digits]; by rewrite Hd).
  destruct c as [[] [] [] [] [] [] [] []]; try done; by rewrite E.
Qed.
End AtoiFacts.

(** ** Exact subtraction of small integers in binary64 *)

Module B64Sub.
Import B64 B64Facts.

Lemma normalize_canon s p ez n :
  0 < n < 2 ^ 53 -> -1000 <= ez <= 0 -> Z.pos p = n * 2 ^ (- ez) ->
  binary_round prec emax s p ez = canon s n 0.
Proof.
  intros Hn Hez HM. pose proof (Zdigits2_le_53 n Hn) as Hd.
  unfold binary_round.
  change (Z.pos (digits2_pos p)) with (Zdigits2 (Z.pos p)).
  rewrite HM, Zdigits2_mul_pow2, fexp_normal by lia.
  destruct (Z.le_ge_cases ez (Zdigits2 n + - ez + ez - 53)) as [Hle|Hge].
  - rewrite shl_align_ge by lia.
    rewrite (round_aux_canon s _ ez n (- ez)); try lia. f_equal. lia.
  - destruct (shl_align_spec p ez (Zdigits2 n + - ez + ez - 53)) as (q & -> & Hq);
      [lia|].
    rewrite (round_aux_canon s (Z.pos q) _ n (53 - Zdigits2 n)); try lia.
    + f_equal. lia.
    + rewrite Hq, HM, <- Z.mul_assoc, <- Z.pow_add_r by lia. do 2 f_equal. lia.
Qed.

Lemma sub_canon a b : 0 < a < 2 ^ 53 -> 0 < b < 2 ^ 53 -> a <> b ->
  sub (canon false a 0) (canon false b 0) = canon (a <? b) (Z.abs (a - b)) 0.
Proof.
  intros Ha Hb Hab.
  destruct (canon_pos false a 0) as (ma & -> & Hma); [lia|].
  destruct (canon_pos false b 0) as (mb & -> & Hmb); [lia|].
  pose proof (Zdigits2_le_53 a ltac:(lia)) as Hda.
  pose proof (Zdigits2_le_53 b ltac:(lia)) as Hdb.
  unfold sub, SFsub. rewrite !Z.add_0_r.
  set (ea := Zdigits2 a - 53) in *. set (eb := Zdigits2 b - 53) in *.
  set (ez := Z.min ea eb).
  destruct (shl_align_spec ma ea ez) as (ma' & -> & Hma2); [lia|].
  destruct (shl_align_spec mb eb ez) as (mb' & -> & Hmb2); [lia|].
  cbn [fst cond_Zopp].
  assert (HM : Z.pos ma' - Z.pos mb' = (a - b) * 2 ^ (- ez)).
  { rewrite Hma2, Hmb2, Hma, Hmb, <- !Z.mul_assoc, <- !Z.pow_add_r by lia.
    replace (53 - Zdigits2 a + (ea - ez)) with (- ez) by lia.
    replace (53 - Zdigits2 b + (eb - ez)) with (- ez) by lia. ring. }
  pose proof (pow2_pos (- ez) ltac:(lia)) as Hp.
  unfold binary_normalize.
  destruct (Z.pos ma' - Z.pos mb') as [|p|p] eqn:EM.
  - assert (a - b = 0) by nia. lia.
  - assert (0 < a - b) by nia.
    destruct (Z.ltb_spec a b); [lia|]. rewrite Z.abs_eq by lia.
    apply normalize_canon; lia.
  - assert (a - b < 0) by nia.
    destruct (Z.ltb_spec a b); [|lia]. rewrite Z.abs_neq by lia.
    apply normalize_canon; lia.
Qed.

Lemma fabs_canon s n g : 0 < n < 2 ^ 53 -> fabs (canon s n g) = canon false n g.
Proof. done. Qed.

Lemma fabs_sub_of_Z a b : 0 <= a < 2 ^ 53 -> 0 <= b < 2 ^ 53 ->
  fabs (sub (of_Z a) (of_Z b)) = of_Z (Z.abs (a - b)).
Proof.
  intros Ha Hb.
  destruct (Z.eq_dec a b) as [->|Hne].
  { rewrite sub_diag_of_Z, Z.sub_diag by done. done. }
  destruct (Z.eq_dec a 0) as [->|Ha0].
  { rewrite Z.sub_0_l, Z.abs_opp, Z.abs_eq by lia.
    rewrite of_Z_0, (of_Z_canon b) by lia.
    destruct (canon_pos false b 0) as (m & -> & _); [lia|]. done. }
  destruct (Z.eq_dec b 0) as [->|Hb0].
  { rewrite Z.sub_0_r, Z.abs_eq by lia.
    rewrite of_Z_0, (of_Z_canon a) by lia.
    destruct (canon_pos false a 0) as (m & -> & _); [lia|]. done. }
  rewrite (of_Z_canon a), (of_Z_canon b), sub_canon, fabs_canon, <- of_Z_canon by lia.
  done.
Qed.

Lemma positive_not_below_epsilon d : 0 < d < 2 ^ 53 -> ltb (of_Z d) epsilon = false.
Proof.
  intros Hd. rewrite of_Z_canon by done.
  destruct (canon_pos false d 0 Hd) as (p & -> & _).
  pose proof (Zdigits2_le_53 d Hd).
  unfold ltb, epsilon, SFltb, SFcompare. cbv beta iota.
  destruct (Z.compare_spec (Zdigits2 d - 53 + 0) (-79)); [lia|lia|done].
Qed.
End B64Sub.

(** ** transpose-ranges.cc *)

Module TransposeProperties.
Import Prog Transpose TransposeSpec B64Facts IntFacts ProgFacts TransposeFacts.
#[local] Arguments B64.of_Z : simpl never.
#[local] Arguments B64.add : simpl never.
#[local] Arguments B64.sub : simpl never.
#[local] Arguments vget : simpl never.
#[local] Arguments vset : simpl never.

Lemma cell_of_index order k : 0 < order -> 0 <= k < order * order ->
  in_matrix order (k mod order, k / order)
  /\ k = (k / order) * order + k mod order.
Proof.
  intros Ho Hk. pose proof (Z.mod_pos_bound k order Ho).
  pose proof (Z.div_mod k order ltac:(lia)).
  assert (0 <= k / order) by (apply Z.div_pos; lia).
  assert (k / order < order) by (apply Z.div_lt_upper_bound; lia).
  unfold in_matrix; cbn [fst snd]. lia.
Qed.

Lemma pass_spec c (A B : vec) :
  well_tiled c -> sized (order c) (A, B) ->
  exists A' B', pass c (A, B) = Some (A', B') /\ sized (order c) (A', B')
    /\ forall i j, in_matrix (order c) (i, j) ->
         vget A' (j * order c + i)
         = (fun a => B64.add a (B64.of_Z 1)) <$> vget A (j * order c + i)
         /\ vget B' (i * order c + j)
            = (b ← vget B (i * order c + j);
               a ← vget A (j * order c + i); Some (B64.add b a)).
Proof.
  intros W S. rewrite pass_untiled, untiled_visit by done.
  destruct W as (Ho & _).
  destruct (visit_covers (order c) (untiled_cells (order c)) (A, B) Ho
              (untiled_covers _) S) as ([A' B'] & E & S' & H).
  by exists A', B'.
Qed.

(** X1.  One trip through the compute loop of an accepted configuration,
    tiled or not, on arrays of [order*order] elements with any contents:
    it makes no access out of bounds, keeps both lengths, adds to every
    [B[i*order+j]] the old [A[j*order+i]] (one binary64 addition) and adds
    [1.0] to every element of [A]. *)
Theorem pass_adds_transpose max_matrix_size argv c (A B : vec) :
  max_matrix_size <= 46340 -> configure max_matrix_size argv = inr c ->
  Z.of_nat (length A) = order c * order c ->
  Z.of_nat (length B) = order c * order c ->
  exists A' B', pass c (A, B) = Some (A', B')
    /\ length A' = length A /\ length B' = length B
    /\ forall i j a b, 0 <= i < order c -> 0 <= j < order c ->
         vget A (j * order c + i) = Some a ->
         vget B (i * order c + j) = Some b ->
         vget B' (i * order c + j) = Some (B64.add b a)
         /\ vget A' (j * order c + i) = Some (B64.add a (B64.of_Z 1)).
Proof.
  intros Hmax Hcfg HA HB.
  destruct (configure_valid _ _ _ Hmax Hcfg) as (_ & W).
  destruct (pass_spec c A B W) as (A' & B' & E & [SA SB] & H); [by split|].
  cbn [fst snd] in SA, SB. exists A', B'. split_and!; [done|lia|lia|].
  intros i j a b Hi Hj Ea Eb. destruct (H i j) as [H1 H2]; [by split|].
  rewrite H1, H2, Ea, Eb. done.
Qed.

(** [pass_adds_transpose] at a concrete input. *)
Lemma pass_adds_transpose_witness :
  configure 46340 ["transpose"; "1"; "2"]%string
    = inr {| iterations := 1; order := 2; tile_size := 2 |}
  /\ exists A' B',
       pass {| iterations := 1; order := 2; tile_size := 2 |}
         (B64.of_Z <$> [5; 6; 7; 8], B64.of_Z <$> [10; 20; 30; 40]) = Some (A', B')
       /\ vget B' 1 = Some (B64.add (B64.of_Z 20) (B64.of_Z 7)).
Proof.
  split; [reflexivity|].
  destruct (pass_adds_transpose 46340 ["transpose"; "1"; "2"]%string
              {| iterations := 1; order := 2; tile_size := 2 |}
              (B64.of_Z <$> [5; 6; 7; 8]) (B64.of_Z <$> [10; 20; 30; 40]))
    as (A' & B' & E & _ & _ & H); [lia|reflexivity|reflexivity|reflexivity|].
  exists A', B'. split; [exact E|].
  destruct (H 0 1 (B64.of_Z 7) (B64.of_Z 20)) as [HB _];
    [simpl; lia|simpl; lia|reflexivity|reflexivity|].
  exact HB.
Defined.

(** The state after [k] trips as far as [A] is concerned. *)
Lemma passes_A_exact c (K : N) : valid c -> Z.of_N K <= 2 ^ 31 ->
  exists st, passes c K (allocate c) = Some st /\ sized (order c) st
    /\ forall i j, in_matrix (order c) (i, j) ->
         vget st.1 (j * order c + i) = Some (B64.of_Z (j * order c + i + Z.of_N K)).
Proof.
  intros Hv. pose proof Hv as (Hit & W). pose proof W as (Ho & _).
  induction K as [|K IH] using N.peano_ind; intros HK.
  - destruct (allocate_exact c Hv) as (S & H). exists (allocate c).
    split_and!; [done|done|]. intros i j Hij. by destruct (H i j Hij).
  - destruct IH as ([A B] & E & S & H); [lia|].
    rewrite passes_succ, E. cbn [mbind option_bind].
    destruct (pass_spec c A B W S) as (A' & B' & E' & S' & H').
    exists (A', B'). split_and!; [done|done|].
    intros i j Hij. destruct (H' i j Hij) as [HA _]. cbn [fst] in *.
    rewrite HA, (H i j Hij). cbn [fmap option_fmap option_map].
    pose proof (idx_bound (order c) j i ltac:(lia)
                  ltac:(destruct Hij; cbn [fst snd] in *; lia)
                  ltac:(destruct Hij; cbn [fst snd] in *; lia)) as Hb.
    assert (order c * order c <= 46340 * 46340)
      by (apply Z.mul_le_mono_nonneg; lia).
    rewrite add_of_Z by lia. do 2 f_equal. lia.
Qed.

Lemma verify_Some c (B : vec) :
  0 < order c <= 46340 -> Z.of_nat (length B) = order c * order c ->
  is_Some (verify c B).
Proof.
  intros Ho HB. unfold verify, range.
  destruct (for_each_invariant (fun _ : B64.double => True) (seqZ 0 (order c - 0))
    (fun abserr i => for_each (seqZ 0 (order c - 0)) (fun abserr j =>
      b ← vget B (idx (order c) j i);
      Some (B64.add abserr (prk_abs (B64.sub b (reference c (idx (order c) i j))))))
      abserr) (B64.of_Z 0)) as (r & E & _); [|done|by rewrite E].
  intros s i Hi _. apply elem_of_seqZ in Hi.
  apply (for_each_invariant (fun _ : B64.double => True)); [|done].
  intros s' j Hj _. apply elem_of_seqZ in Hj.
  rewrite (idx_small (order c) j i) by lia.
  destruct (vget_is_Some B (j * order c + i)) as [b Eb].
  { rewrite HB. apply idx_bound; lia. }
  rewrite Eb. cbn [mbind option_bind]. eauto.
Qed.

Lemma configure_fields max_matrix_size argv c :
  configure max_matrix_size argv = inr c ->
  iterations c = Atoi.atoi (arg argv 1) /\ order c = Atoi.atoi (arg argv 2).
Proof.
  unfold configure. intros H. repeat case_match; try discriminate;
    injection H as <-; done.
Qed.

Lemma loop_A_exact c : valid c -> iterations c < Int.INT_MAX ->
  exists A B, compute_loop c (allocate c) = Some (A, B)
    /\ sized (order c) (A, B)
    /\ forall k, 0 <= k < order c * order c ->
         vget A k = Some (B64.of_Z (k + (iterations c + 1))).
Proof.
  intros Hv Hlt. pose proof Hv as (Hit & Ho & _).
  destruct (passes_A_exact c (Z.to_N (iterations c + 1)) Hv)
    as ([A B] & E & S & H).
  { rewrite Z2N.id by lia. unfold Int.INT_MAX in Hlt. lia. }
  rewrite Z2N.id in H by lia. exists A, B.
  rewrite compute_loop_passes by done. split_and!; [done|done|].
  intros k Hk. destruct (cell_of_index (order c) k) as [Hc Ek]; [lia|done|].
  specialize (H _ _ Hc). cbn [fst] in H. by rewrite <- Ek in H.
Qed.

(** X2.  For every accepted command line with fewer than [INT_MAX]
    iterations the program returns, and at its end [A] has [order*order]
    elements with [A[k] = k + (iterations + 1)] exactly, whether or not [B]
    has left the range where binary64 is exact: each of the
    [iterations + 1] trips has added [1.0] to every element. *)
Theorem A_counts_the_trips max_matrix_size argv c :
  max_matrix_size <= 46340 -> configure max_matrix_size argv = inr c ->
  iterations c < Int.INT_MAX ->
  exists r A B, main max_matrix_size argv = Some r
    /\ arrays r = Some (A, B)
    /\ Z.of_nat (length A) = order c * order c
    /\ forall k, 0 <= k < order c * order c ->
         vget A k = Some (B64.of_Z (k + (iterations c + 1))).
Proof.
  intros Hmax Hcfg Hlt. pose proof (configure_valid _ _ _ Hmax Hcfg) as Hv.
  destruct (loop_A_exact c Hv Hlt) as (A & B & E & [SA SB] & H).
  destruct (verify_Some c B) as [abserr Ev]; [apply Hv|done|].
  unfold main. rewrite Hcfg, E. cbn [mbind option_bind]. rewrite Ev.
  cbn [mbind option_bind].
  destruct (B64.ltb abserr B64.epsilon); eexists _, A, B; by split_and!.
Qed.

(** [A_counts_the_trips] at a concrete input. *)
Lemma A_counts_the_trips_witness :
  exists r A B, main 46340 ["transpose"; "3"; "2"]%string = Some r
    /\ arrays r = Some (A, B) /\ vget A 3 = Some (B64.of_Z 7).
Proof.
  destruct (A_counts_the_trips 46340 ["transpose"; "3"; "2"]%string
              {| iterations := 3; order := 2; tile_size := 2 |})
    as (r & A & B & E & Ea & _ & H); [lia|reflexivity|reflexivity|].
  exists r, A, B. split_and!; [exact E|exact Ea|].
  apply (H 3). simpl. lia.
Defined.

(** X3.  Whatever the command line (with an iteration count below
    [INT_MAX] and [prk::get_max_matrix_size()] at most
    [floor (sqrt INT_MAX)]), the program has a defined result and writes
    nothing to the error stream.  Either the arguments are rejected: one
    message after the banner, exit code 1, nothing allocated; or the
    arrays have [order*order] elements each, the loop and the verifier make
    no access out of bounds, and the exit code is 0 exactly when the summed
    deviation is below [1e-8]. *)
Theorem transpose_never_faults max_matrix_size argv :
  max_matrix_size <= 46340 -> Atoi.atoi (arg argv 1) < Int.INT_MAX ->
  exists r, main max_matrix_size argv = Some r
    /\ stderr r = []
    /\ ((exists e, configure max_matrix_size argv = inl e
           /\ stdout r = banner ++ [Text e] /\ exit_code r = 1
           /\ arrays r = None)
        \/ (exists c A B abserr, configure max_matrix_size argv = inr c
              /\ arrays r = Some (A, B)
              /\ Z.of_nat (length A) = order c * order c
              /\ Z.of_nat (length B) = order c * order c
              /\ verify c B = Some abserr
              /\ exit_code r = if B64.ltb abserr B64.epsilon then 0 else 1)).
Proof.
  intros Hmax Hlt. destruct (configure max_matrix_size argv) as [e|c] eqn:Hcfg.
  - unfold main. rewrite Hcfg. eexists. split_and!; [done|done|].
    left. by exists e.
  - pose proof (configure_valid _ _ _ Hmax Hcfg) as Hv.
    destruct (configure_fields _ _ _ Hcfg) as [Hi _]. rewrite <- Hi in Hlt.
    destruct (loop_A_exact c Hv Hlt) as (A & B & E & [SA SB] & _).
    destruct (verify_Some c B) as [abserr Ev]; [apply Hv|done|].
    unfold main. rewrite Hcfg, E. cbn [mbind option_bind]. rewrite Ev.
    cbn [mbind option_bind].
    destruct (B64.ltb abserr B64.epsilon) eqn:El; eexists;
      (split_and!; [done|done|]); right; exists c, A, B, abserr;
      rewrite El; by split_and!.
Qed.

(** [transpose_never_faults] at a concrete input. *)
Lemma transpose_never_faults_witness :
  exists r, main 46340 ["transpose"; "2"; "3"; "2"]%string = Some r
    /\ stdout r = banner ++ [Text "ERROR: tile size must evenly divide order"].
Proof.
  destruct (transpose_never_faults 46340 ["transpose"; "2"; "3"; "2"]%string)
    as (r & E & _ & [(e & He & Hs & _)|(c & A & B & x & Hc & _)]);
    [lia|vm_compute; reflexivity| |discriminate Hc].
  exists r. split; [exact E|]. rewrite Hs. injection He as <-. reflexivity.
Defined.

(** X4.  The tile size has no bearing on the outcome: two accepted
    command lines with the same iteration count and order, whatever their
    tile sizes (omitted, non-positive, a divisor, above the order), leave
    the same [A] and [B] and return the same exit code; and the run
    returns when the iteration count is below [INT_MAX]. *)
Theorem tile_size_never_changes_outcome max_matrix_size argv1 argv2 c1 c2 :
  max_matrix_size <= 46340 ->
  configure max_matrix_size argv1 = inr c1 ->
  configure max_matrix_size argv2 = inr c2 ->
  iterations c1 = iterations c2 -> order c1 = order c2 ->
  compute_loop c1 (allocate c1) = compute_loop c2 (allocate c2)
  /\ arrays <$> main max_matrix_size argv1 = arrays <$> main max_matrix_size argv2
  /\ exit_code <$> main max_matrix_size argv1
     = exit_code <$> main max_matrix_size argv2
  /\ (iterations c1 < Int.INT_MAX -> is_Some (main max_matrix_size argv1)).
Proof.
  intros Hmax H1 H2 Hi Ho.
  pose proof (configure_valid _ _ _ Hmax H1) as Hv1.
  pose proof (configure_valid _ _ _ Hmax H2) as Hv2.
  assert (allocate c1 = allocate c2) as Ea by (unfold allocate; by rewrite Ho).
  assert (sized (order c1) (allocate c1)) as S1 by apply (allocate_exact c1 Hv1).
  assert (forall k, passes c1 k (allocate c1) = passes c2 k (allocate c2)) as Hk.
  { intros k.
    destruct (passes_untiled c1 k (allocate c1)) as (_ & _ & _ & E1);
      [apply Hv1|done|].
    destruct (passes_untiled c2 k (allocate c2)) as (_ & _ & _ & E2);
      [apply Hv2|by rewrite <- Ea, <- Ho|].
    rewrite E1, E2, Ea, Ho. done. }
  assert (compute_loop c1 (allocate c1) = compute_loop c2 (allocate c2)) as El.
  { unfold compute_loop. rewrite Hi, Hk. done. }
  assert (forall B, verify c1 B = verify c2 B) as Ev.
  { intros B. destruct c1, c2. cbn [iterations order] in Hi, Ho. subst.
    reflexivity. }
  split; [done|].
  unfold main. rewrite H1, H2, El.
  split_and!.
  - destruct (compute_loop c2 (allocate c2)) as [[A B]|]; [|done].
    cbn [mbind option_bind]. rewrite Ev.
    destruct (verify c2 B) as [x|]; [|done]. cbn [mbind option_bind].
    by destruct (B64.ltb x B64.epsilon).
  - destruct (compute_loop c2 (allocate c2)) as [[A B]|]; [|done].
    cbn [mbind option_bind]. rewrite Ev.
    destruct (verify c2 B) as [x|]; [|done]. cbn [mbind option_bind].
    by destruct (B64.ltb x B64.epsilon).
  - intros Hlt. rewrite <- El.
    destruct (loop_A_exact c1 Hv1 Hlt) as (A & B & E & [SA SB] & _).
    destruct (verify_Some c1 B) as [abserr Ev']; [apply Hv1|done|].
    rewrite E. cbn [mbind option_bind]. rewrite Ev'. cbn [mbind option_bind].
    by destruct (B64.ltb abserr B64.epsilon).
Qed.

(** [tile_size_never_changes_outcome] at a concrete input. *)
Lemma tile_size_never_changes_outcome_witness :
  arrays <$> main 46340 ["transpose"; "2"; "4"; "2"]%string
  = arrays <$> main 46340 ["transpose"; "2"; "4"; "9"]%string.
Proof.
  apply (tile_size_never_changes_outcome 46340
           ["transpose"; "2"; "4"; "2"]%string ["transpose"; "2"; "4"; "9"]%string
           {| iterations := 2; order := 4; tile_size := 2 |}
           {| iterations := 2; order := 4; tile_size := 9 |});
    [lia|reflexivity..].
Defined.

Lemma idx_wrap n i j : idx n i j = Int.wrap (i * n + j).
Proof.
  unfold idx, Int.add, Int.mul, Int.wrap.
  replace ((i * n + 2 ^ 31) `mod` 2 ^ 32 - 2 ^ 31 + j + 2 ^ 31)
    with ((i * n + 2 ^ 31) `mod` 2 ^ 32 + j) by lia.
  rewrite Z.add_mod_idemp_l by lia. do 2 f_equal. lia.
Qed.

Lemma for_each_fails {S X} (P : S -> Prop) (xs : list X)
    (body : S -> X -> option S) x :
  x ∈ xs ->
  (forall s y s', P s -> body s y = Some s' -> P s') ->
  (forall s, P s -> body s x = None) ->
  forall s, P s -> for_each xs body s = None.
Proof.
  intros Hx Hpres Hfail. induction xs as [|y xs IH]; intros s Hs.
  - by apply elem_of_nil in Hx.
  - cbn [for_each]. destruct (body s y) as [s'|] eqn:E; [|done].
    cbn [mbind option_bind].
    apply elem_of_cons in Hx as [->|Hx].
    { by rewrite Hfail in E. }
    apply IH; eauto.
Qed.

Lemma body_sized order st bi ai st' :
  sized order st -> body st bi ai = Some st' -> sized order st'.
Proof.
  destruct st as [A B]. unfold body, vset. intros [SA SB] H.
  destruct (vget A ai); [|done]. cbn [mbind option_bind] in H.
  destruct (vget B bi); [|done]. cbn [mbind option_bind] in H.
  repeat case_match; try done. cbn [mbind option_bind] in H.
  injection H as <-. split; cbn [fst snd] in *; by rewrite length_insert.
Qed.

Lemma vget_outside (v : vec) k : k < 0 \/ Z.of_nat (length v) <= k -> vget v k = None.
Proof.
  intros H. unfold vget. destruct (k <? 0) eqn:E; [done|].
  apply Z.ltb_ge in E. apply lookup_ge_None. lia.
Qed.

Lemma wrap_outside order v :
  0 < order <= 46340 -> order * order <= v < 2 ^ 32 - 2 ^ 16 ->
  Int.wrap v < 0 \/ order * order <= Int.wrap v.
Proof.
  intros Ho Hv. destruct (Z.lt_ge_cases v (2 ^ 31)) as [Hs|Hl].
  - right. rewrite wrap_small; [lia|]. unfold Int.in_range, Int.INT_MIN, Int.INT_MAX.
    lia.
  - left. unfold Int.wrap.
    replace (v + 2 ^ 31) with (v - 2 ^ 31 + 1 * 2 ^ 32) by lia.
    rewrite Z_mod_plus_full, Z.mod_small; lia.
Qed.

(** X5.  The check of line 95 is needed: with [0 < tile_size < order]
    and [order % tile_size != 0] the tiled loop nest of lines 151-158, run
    on arrays of [order*order] elements, makes an access outside the
    arrays (the last tile of a row overhangs the matrix), so the trip has
    no defined result. *)
Theorem tiled_needs_divisibility order tile_size st :
  0 < tile_size < order -> order <= 46340 -> Z.rem order tile_size <> 0 ->
  sized order st -> tiled order tile_size st = None.
Proof.
  intros Ht Ho Hr S. rewrite tiled_visit. unfold visit.
  rewrite Z.rem_mod_nonneg in Hr by lia.
  pose proof (Z.div_mod order tile_size ltac:(lia)) as Hq.
  pose proof (Z.mod_pos_bound order tile_size ltac:(lia)) as Hm.
  set (q := order `div` tile_size) in *.
  assert (0 <= q) as Hq0 by (apply Z.div_pos; lia).
  assert (q * tile_size < order) as Hlt by lia.
  set (x := q * tile_size + (tile_size - 1)).
  assert (order <= x < 2 * order) as Hx by (unfold x; lia).
  assert ((q * tile_size) ∈ stride (iota 0 order) tile_size) as Hs.
  { apply elem_of_stride; [lia|]. split; [lia|]. by exists q. }
  apply (for_each_fails (sized order) _ _ (x, x)); [| |
    |done].
  - apply elem_of_tiled_cells.
    exists (q * tile_size), (q * tile_size), (tile_size - 1), (tile_size - 1).
    assert (Int.add (q * tile_size) (tile_size - 1) = x) as ->.
    { apply add_small. unfold Int.in_range, Int.INT_MIN, Int.INT_MAX. lia. }
    split_and!; (done || lia).
  - intros s [i j] s'. apply body_sized.
  - intros [A B] [SA SB]. cbn [fst snd] in SA, SB. unfold body.
    rewrite vget_outside; [done|]. rewrite idx_wrap, SA.
    apply wrap_outside; [lia|].
    assert (order * order <= x * order) by (apply Z.mul_le_mono_nonneg_r; lia).
    assert (x * order <= (2 * order) * order)
      by (apply Z.mul_le_mono_nonneg_r; lia).
    assert (order * order <= 46340 * 46340)
      by (apply Z.mul_le_mono_nonneg; lia).
    lia.
Qed.

(** [tiled_needs_divisibility] at a concrete input. *)
Lemma tiled_needs_divisibility_witness :
  tiled 4 3 (allocate {| iterations := 1; order := 4; tile_size := 3 |}) = None.
Proof.
  apply tiled_needs_divisibility; [lia|lia|vm_compute; discriminate|].
  split; reflexivity.
Defined.

Lemma length_cartesian_product xs ys :
  length (cartesian_product xs ys) = (length xs * length ys)%nat.
Proof.
  unfold cartesian_product. induction xs as [|x xs IH]; [done|].
  assert (length (ys ≫= (fun y => [(x, y)])) = length ys) as Hy.
  { clear IH. induction ys as [|y ys IHy]; [done|]. rewrite bind_cons.
    cbn [app length]. by rewrite IHy. }
  rewrite bind_cons, length_app, IH, Hy. cbn [length]. lia.
Qed.

(** X6.  Tiling only reorders the visit: when the tile size divides the
    order, the index pairs [(it+i, jt+j)] visited by the tiled loop nest are
    a permutation of the pairs [(i, j)] visited by the untiled loop,
    [order*order] of them, and each loop is the same body run over its list
    of pairs. *)
Theorem tiled_visits_same_cells order tile_size :
  0 < order <= 46340 -> 0 < tile_size -> Z.rem order tile_size = 0 ->
  tiled_cells order tile_size ≡ₚ untiled_cells order
  /\ Z.of_nat (length (tiled_cells order tile_size)) = order * order
  /\ (forall st, tiled order tile_size st
                 = visit order (tiled_cells order tile_size) st)
  /\ (forall st, untiled order st = visit order (untiled_cells order) st).
Proof.
  intros Ho Ht Hr.
  destruct (tiled_covers order tile_size Ht Ho Hr) as [N1 H1].
  destruct (untiled_covers order) as [N2 H2].
  assert (tiled_cells order tile_size ≡ₚ untiled_cells order) as HP.
  { apply NoDup_Permutation; [done|done|]. intros c. by rewrite H1, H2. }
  split_and!; [done| |apply tiled_visit|apply untiled_visit].
  rewrite HP. unfold untiled_cells, iota.
  rewrite length_cartesian_product, length_seqZ, Nat2Z.inj_mul, Z.sub_0_r.
  rewrite Z2Nat.id by lia. done.
Qed.

(** [tiled_visits_same_cells] at a concrete input. *)
Lemma tiled_visits_same_cells_witness :
  tiled_cells 4 2 ≡ₚ untiled_cells 4.
Proof.
  apply (tiled_visits_same_cells 4 2); [lia|lia|reflexivity].
Defined.

(** X7.  Before the first trip, for an accepted configuration: [A] and
    [B] have [order*order] elements ([order*order] does not overflow),
    [std::iota] has stored in [A[k]] exactly the double [k], and [B] is all
    zeros. *)
Theorem allocate_fills max_matrix_size argv c :
  max_matrix_size <= 46340 -> configure max_matrix_size argv = inr c ->
  Z.of_nat (length (allocate c).1) = order c * order c
  /\ Z.of_nat (length (allocate c).2) = order c * order c
  /\ forall k, 0 <= k < order c * order c ->
       vget (allocate c).1 k = Some (B64.of_Z k)
       /\ vget (allocate c).2 k = Some (B64.of_Z 0).
Proof.
  intros Hmax Hcfg. pose proof (configure_valid _ _ _ Hmax Hcfg) as Hv.
  destruct (allocate_exact c Hv) as ([SA SB] & H).
  split_and!; [done|done|]. intros k Hk.
  destruct (cell_of_index (order c) k) as [Hc Ek]; [apply Hv|done|].
  destruct (H _ _ Hc) as [HA _]. rewrite <- Ek, Z.add_0_r in HA.
  split; [done|].
  unfold allocate. cbn [snd]. rewrite vget_lookup by lia.
  apply lookup_replicate_2. unfold allocate in SB. cbn [snd] in SB.
  rewrite length_replicate in SB. lia.
Qed.

(** [allocate_fills] at a concrete input. *)
Lemma allocate_fills_witness :
  vget (allocate {| iterations := 1; order := 3; tile_size := 3 |}).1 8
  = Some (B64.of_Z 8).
Proof.
  apply (allocate_fills 46340 ["transpose"; "1"; "3"]%string
           {| iterations := 1; order := 3; tile_size := 3 |});
    [lia|reflexivity|simpl; lia].
Defined.

(** X8.  Decimal numerals are read back as the numbers they denote.
    [transpose <its> <ord>] with [1 <= its <= INT_MAX] and
    [1 <= ord <= max_matrix_size] is accepted with tile size [ord]; with a
    third numeral [tile] the arguments are rejected exactly when
    [0 < tile < ord] and [tile] does not divide [ord], and otherwise
    accepted with tile size [tile], or [ord] when [tile <= 0]. *)
Theorem transpose_reads_decimal_arguments max_matrix_size prog its ord tile :
  1 <= its <= Int.INT_MAX -> 1 <= ord <= max_matrix_size ->
  max_matrix_size <= Int.INT_MAX -> Int.INT_MIN <= tile <= Int.INT_MAX ->
  configure max_matrix_size [prog; pretty its; pretty ord]
  = inr {| iterations := its; order := ord; tile_size := ord |}
  /\ configure max_matrix_size [prog; pretty its; pretty ord; pretty tile]
     = if (0 <? tile) && (tile <? ord) && negb (Z.rem ord tile =? 0)
       then inl "ERROR: tile size must evenly divide order"%string
       else inr {| iterations := its; order := ord;
                   tile_size := if tile <=? 0 then ord else tile |}.
Proof.
  intros Hit Ho Hmax Ht. unfold Int.INT_MAX, Int.INT_MIN in *.
  unfold configure. cbn [length arg nth].
  rewrite !AtoiFacts.atoi_pretty
    by (unfold Int.INT_MAX, Int.INT_MIN; lia).
  split.
  - change (Z.of_nat 3 <? 3) with false. change (Z.of_nat 3 >? 3) with false.
    cbv iota.
    destruct (Z.ltb_spec its 1); [lia|].
    destruct (Z.leb_spec ord 0); [lia|].
    destruct (Z.gtb_spec ord max_matrix_size); [lia|].
    destruct (Z.ltb_spec ord ord); [lia|]. done.
  - change (Z.of_nat 4 <? 3) with false. change (Z.of_nat 4 >? 3) with true.
    cbv iota.
    destruct (Z.ltb_spec its 1); [lia|].
    destruct (Z.leb_spec ord 0); [lia|].
    destruct (Z.gtb_spec ord max_matrix_size); [lia|].
    destruct (Z.leb_spec tile 0), (Z.ltb_spec 0 tile); try lia.
    + destruct (Z.ltb_spec ord ord); [lia|]. done.
    + done.
Qed.

(** [transpose_reads_decimal_arguments] at a concrete input. *)
Lemma transpose_reads_decimal_arguments_witness :
  configure 46340 ["transpose"; "10"; "1024"; "32"]%string
  = inr {| iterations := 10; order := 1024; tile_size := 32 |}.
Proof.
  apply (transpose_reads_decimal_arguments 46340 "transpose" 10 1024 32);
    vm_compute; (discriminate || (split; discriminate)).
Defined.

End TransposeProperties.

(** ** The verifier of transpose-ranges.cc *)

Module VerifierProperties.
Import Prog Transpose TransposeSpec VerifierSpec.
Import B64Facts B64Sub IntFacts ProgFacts TransposeFacts.
#[local] Arguments B64.of_Z : simpl never.
#[local] Arguments B64.add : simpl never.
#[local] Arguments B64.sub : simpl never.
#[local] Arguments B64.fabs : simpl never.
#[local] Arguments vget : simpl never.

Lemma verify_as_visit c (B : vec) :
  verify c B
  = for_each (untiled_cells (order c)) (fun abserr '(i, j) =>
      b ← vget B (idx (order c) j i);
      Some (B64.add abserr
              (prk_abs (B64.sub b (reference c (idx (order c) i j))))))
      (B64.of_Z 0).
Proof.
  unfold verify, untiled_cells, cartesian_product, range, iota.
  rewrite for_each_bind. apply for_each_ext. intros a i _.
  rewrite for_each_bind. apply for_each_ext. intros a' j _.
  cbn [for_each]. by destruct (vget B _).
Qed.

Lemma sum_nonneg (l : list Z) : Forall (fun x => 0 <= x) l -> 0 <= foldr Z.add 0 l.
Proof. induction 1; cbn [foldr]; lia. Qed.

Lemma sum_zero (l : list Z) : Forall (fun x => 0 <= x) l ->
  foldr Z.add 0 l = 0 <-> Forall (fun x => x = 0) l.
Proof.
  induction 1 as [|x l Hx Hl IH]; cbn [foldr].
  - split; [constructor|done].
  - pose proof (sum_nonneg l Hl). rewrite Forall_cons, <- IH. lia.
Qed.

Lemma reference_value_bounds c ij :
  1 <= iterations c -> 0 < order c -> 0 <= ij < order c * order c ->
  (order c * order c - 1) * (iterations c + 1)
    + (iterations c + 1) * iterations c / 2 < 2 ^ 53 ->
  0 <= reference_value c ij < 2 ^ 53.
Proof.
  intros Hit Ho Hij Hb. unfold reference_value.
  assert (0 <= (iterations c + 1) * iterations c / 2)
    by (apply Z.div_pos; [apply Z.mul_nonneg_nonneg|]; lia).
  assert (0 <= ij * (1 + iterations c)) by (apply Z.mul_nonneg_nonneg; lia).
  assert (ij * (1 + iterations c) <= (order c * order c - 1) * (iterations c + 1))
    by (rewrite (Z.add_comm 1); apply Z.mul_le_mono_nonneg; lia).
  lia.
Qed.

Lemma verify_sums c (B : vec) (g : Z -> Z) :
  valid c ->
  (order c * order c - 1) * (iterations c + 1)
    + (iterations c + 1) * iterations c / 2 < 2 ^ 53 ->
  (forall k, 0 <= k < order c * order c ->
     0 <= g k < 2 ^ 53 /\ vget B k = Some (B64.of_Z (g k))) ->
  forall cells acc, Forall (in_matrix (order c)) cells -> 0 <= acc ->
  acc + foldr Z.add 0 (cell_deviation c g <$> cells) < 2 ^ 53 ->
  for_each cells (fun abserr '(i, j) =>
      b ← vget B (idx (order c) j i);
      Some (B64.add abserr
              (prk_abs (B64.sub b (reference c (idx (order c) i j))))))
    (B64.of_Z acc)
  = Some (B64.of_Z (acc + foldr Z.add 0 (cell_deviation c g <$> cells))).
Proof.
  intros (Hit & Ho & _) Hb Hg cells.
  induction cells as [|[i j] cells IH]; intros acc Hin Hacc Hsum.
  - cbn [fmap list_fmap foldr for_each]. by rewrite Z.add_0_r.
  - apply Forall_cons in Hin as [[Hi Hj] Hin]. cbn [fst snd] in Hi, Hj.
    cbn [fmap list_fmap foldr] in Hsum |- *.
    assert (0 <= foldr Z.add 0 (cell_deviation c g <$> cells)) as Hrest.
    { apply sum_nonneg, Forall_fmap, Forall_forall. intros x _.
      apply Z.abs_nonneg. }
    pose proof (Z.abs_nonneg (g (j * order c + i)
                  - reference_value c (i * order c + j))) as Habs.
    unfold cell_deviation at 1 in Hsum. cbn [fst snd] in Hsum.
    pose proof (idx_bound (order c) i j ltac:(lia) Hi Hj) as Hij.
    pose proof (idx_bound (order c) j i ltac:(lia) Hj Hi) as Hji.
    destruct (Hg _ Hji) as [Hgb Eb].
    assert (order c * order c <= 46340 * 46340)
      by (apply Z.mul_le_mono_nonneg; lia).
    pose proof (reference_value_bounds c (i * order c + j) ltac:(lia)
                  ltac:(lia) Hij Hb) as Hr.
    cbn [for_each]. rewrite !idx_small by lia. rewrite Eb.
    cbn [mbind option_bind].
    rewrite reference_exact;
      [|exact Hit|lia|unfold reference_value in Hr; lia].
    unfold prk_abs. fold (reference_value c (i * order c + j)).
    rewrite fabs_sub_of_Z, add_of_Z by lia.
    rewrite IH by (done || lia).
    unfold cell_deviation at 2. cbn [fst snd]. do 2 f_equal. lia.
Qed.

(** X9.  The verifier of lines 183-201 on a [B] that holds integers
    below [2^53], for an accepted configuration whose reference values stay
    below [2^53]: the value it computes is exactly the sum over all cells of
    [|B[j*order+i] - reference(i*order+j)|] (when that sum is below
    [2^53]), and it is below the threshold [1e-8], so that the program
    prints "Solution validates", if and only if every cell of [B] equals
    its reference value. *)
Theorem verifier_accepts_exactly_the_reference
    max_matrix_size argv c (B : vec) (g : Z -> Z) :
  max_matrix_size <= 46340 -> configure max_matrix_size argv = inr c ->
  (order c * order c - 1) * (iterations c + 1)
    + (iterations c + 1) * iterations c / 2 < 2 ^ 53 ->
  (forall k, 0 <= k < order c * order c ->
     0 <= g k < 2 ^ 53 /\ vget B k = Some (B64.of_Z (g k))) ->
  deviation c g < 2 ^ 53 ->
  verify c B = Some (B64.of_Z (deviation c g))
  /\ (B64.ltb (B64.of_Z (deviation c g)) B64.epsilon = true
      <-> forall i j, 0 <= i < order c -> 0 <= j < order c ->
            g (j * order c + i) = reference_value c (i * order c + j)).
Proof.
  intros Hmax Hcfg Hb Hg Hd.
  pose proof (configure_valid _ _ _ Hmax Hcfg) as Hv.
  destruct (untiled_covers (order c)) as [_ Hcov].
  assert (Forall (in_matrix (order c)) (untiled_cells (order c))) as Hin.
  { apply Forall_forall. intros x. apply Hcov. }
  assert (Forall (fun x => 0 <= x) (cell_deviation c g <$> untiled_cells (order c)))
    as Hnn.
  { apply Forall_fmap, Forall_forall. intros x _. apply Z.abs_nonneg. }
  split.
  - rewrite verify_as_visit.
    rewrite (verify_sums c B g Hv Hb Hg _ 0 Hin); [done|lia|].
    fold (deviation c g). lia.
  - pose proof (sum_nonneg _ Hnn) as H0. fold (deviation c g) in H0.
    assert (deviation c g = 0
            <-> forall i j, 0 <= i < order c -> 0 <= j < order c ->
                  g (j * order c + i) = reference_value c (i * order c + j)) as Hz.
    { unfold deviation. rewrite sum_zero by done.
      rewrite Forall_fmap, Forall_forall. split.
      - intros H i j Hi Hj. specialize (H (i, j)).
        unfold compose, cell_deviation in H. cbn [fst snd] in H.
        assert ((i, j) ∈ untiled_cells (order c)) as Hm by (by apply Hcov).
        specialize (H Hm). lia.
      - intros H [i j] [Hi Hj]%Hcov. unfold compose, cell_deviation.
        cbn [fst snd] in *. rewrite (H i j Hi Hj). lia. }
    rewrite <- Hz. split.
    + intros Hl. destruct (Z.eq_dec (deviation c g) 0) as [|Hne]; [done|].
      rewrite positive_not_below_epsilon in Hl by lia. done.
    + intros ->. apply zero_below_epsilon.
Qed.

(** [verifier_accepts_exactly_the_reference] at a concrete input. *)
Lemma verifier_accepts_exactly_the_reference_witness :
  verify {| iterations := 1; order := 2; tile_size := 2 |}
    (B64.of_Z <$> [1; 5; 3; 9])
  = Some (B64.of_Z 2).
Proof.
  apply (verifier_accepts_exactly_the_reference 46340
           ["transpose"; "1"; "2"]%string
           {| iterations := 1; order := 2; tile_size := 2 |}
           (B64.of_Z <$> [1; 5; 3; 9])
           (fun k => nth (Z.to_nat k) [1; 5; 3; 9] 0));
    [lia|reflexivity|reflexivity| |reflexivity].
  intros k Hk. change (order _ * order _) with 4 in Hk.
  assert (k = 0 \/ k = 1 \/ k = 2 \/ k = 3) as [-> | [-> | [-> | ->]]] by lia;
    (split; [simpl; lia|reflexivity]).
Defined.
End VerifierProperties.

(** ** stencil-vector-tbb.cc *)

Module StencilProperties.
Import Prog Stencil StencilSpec B64Facts IntFacts ProgFacts StencilFacts.
#[local] Arguments B64.of_Z : simpl never.
#[local] Arguments B64.add : simpl never.
#[local] Arguments B64.sub : simpl never.
#[local] Arguments B64.mul : simpl never.
#[local] Arguments B64.div : simpl never.
#[local] Arguments vget : simpl never.
#[local] Arguments vset : simpl never.

Lemma of_Z_finite m : 0 < m < 2 ^ 53 ->
  exists p, B64.of_Z m = S754_finite false p (Zdigits2 m - 53).
Proof.
  intros Hm. rewrite of_Z_canon by done.
  destruct (canon_pos false m 0 Hm) as (p & E & _). exists p.
  by rewrite E, Z.add_0_r.
Qed.

Lemma zero_div_of_Z m : 0 < m < 2 ^ 53 ->
  B64.div (B64.of_Z 0) (B64.of_Z m) = B64.of_Z 0.
Proof.
  intros Hm. destruct (of_Z_finite m Hm) as (p & ->). by rewrite of_Z_0.
Qed.

Lemma far_from_zero m : 0 < m < 2 ^ 53 ->
  B64.ltb B64.epsilon (B64.fabs (B64.sub (B64.of_Z 0) (B64.of_Z m))) = true.
Proof.
  intros Hm. destruct (of_Z_finite m Hm) as (p & ->). rewrite of_Z_0.
  pose proof (Zdigits2_le_53 m Hm).
  unfold B64.ltb, B64.sub, B64.fabs, B64.epsilon, SFltb, SFcompare.
  cbn -[Z.compare].
  destruct (Z.compare_spec (-79) (Zdigits2 m - 53)); [lia|done|lia].
Qed.

Lemma l1_norm_zero c (B : vec) :
  0 < n c <= 46340 -> 1 <= radius c -> 2 * radius c + 1 <= n c ->
  (forall i j, in_grid (n c) (i, j) -> vget B (i * n c + j) = Some (B64.of_Z 0)) ->
  for_each (seqZ (radius c) (Int.sub (n c) (radius c) - radius c))
    (fun norm i =>
      for_each (seqZ (radius c) (Int.sub (n c) (radius c) - radius c))
        (fun norm j =>
          b ← vget B (idx (n c) i j);
          Some (B64.add norm (B64.fabs b))) norm) (B64.of_Z 0)
  = Some (B64.of_Z 0).
Proof.
  intros Hn Hr Hrn HB.
  rewrite sub_small by (unfold Int.in_range, Int.INT_MIN, Int.INT_MAX; lia).
  match goal with |- for_each ?xs ?f ?s = _ =>
    destruct (for_each_invariant (fun x => x = B64.of_Z 0) xs f s) as (x & -> & ->)
  end; [|done|done].
  intros a i Hi%elem_of_seqZ ->. apply (for_each_invariant (fun x => x = B64.of_Z 0)); [|done].
  intros a' j Hj%elem_of_seqZ ->. rewrite idx_small by lia.
  rewrite HB by (split; cbn [fst snd]; lia). cbn [mbind option_bind].
  rewrite abserr_step_0. eauto.
Qed.

Lemma active_points_square c :
  active_points c
  = Int.sub (n c) (Int.mul 2 (radius c)) * Int.sub (n c) (Int.mul 2 (radius c)).
Proof.
  unfold active_points, Int.to_size_t, Int.size_mul.
  set (w := Int.sub (n c) (Int.mul 2 (radius c))).
  assert (- 2 ^ 31 <= w <= 2 ^ 31) as Hw.
  { pose proof (wrap_in_range (n c - Int.mul 2 (radius c))) as H.
    unfold Int.in_range, Int.INT_MIN, Int.INT_MAX in H. unfold w, Int.sub. lia. }
  rewrite <- Z.mul_mod by lia. apply Z.mod_small.
  assert (0 <= w * w) by apply Z.square_nonneg.
  assert (w * w <= 2 ^ 31 * 2 ^ 31).
  { destruct (Z.le_ge_cases 0 w).
    - apply Z.mul_le_mono_nonneg; lia.
    - replace (w * w) with ((- w) * (- w)) by lia.
      apply Z.mul_le_mono_nonneg; lia. }
  lia.
Qed.

Lemma interior_width c :
  0 < n c <= 46340 -> 1 <= radius c -> 2 * radius c + 1 <= n c ->
  Int.sub (n c) (Int.mul 2 (radius c)) = n c - 2 * radius c.
Proof.
  intros Hn Hr Hrn.
  rewrite mul_small, sub_small
    by (unfold Int.in_range, Int.INT_MIN, Int.INT_MAX; lia). done.
Qed.

(** X10.  A run with an accepted radius of 10 or more (and fewer than
    [INT_MAX] iterations) always fails its verification, whatever the
    stencil weights: no stencil is applied, [B] stays zero, the norm is
    [0.0] against the reference [2*(iterations+1)], and the program prints
    the norm error, returns 1 and has written one warning per trip,
    [iterations + 1] in all, to the error stream. *)
Theorem unsupported_radius_fails_verification weight argv c :
  configure argv = inr c -> 10 <= radius c -> 2 * radius c + 1 <= n c ->
  iterations c < Int.INT_MAX ->
  exists A B,
    main weight argv
    = Some {| stdout := banner ++ echo c
                ++ [Discrepancy "ERROR: L1 norm = " (B64.of_Z 0)
                      " Reference L1 norm = "
                      (B64.of_Z (2 * (iterations c + 1)))];
              stderr := replicate (Z.to_nat (iterations c + 1))
                          (not_instantiated (radius c));
              exit_code := 1; arrays := Some (A, B) |}.
Proof.
  intros Hcfg H10 Hfit Hlt. pose proof (configure_accepted _ _ Hcfg) as Hacc.
  pose proof Hacc as (Hit & Hn & Hr & _). unfold Int.INT_MAX in Hit, Hlt.
  assert (instantiated (radius c) = false) as Hi.
  { unfold instantiated. destruct (Z.leb_spec (radius c) 9); [lia|].
    by rewrite andb_false_r. }
  destruct (initial_spec c) as (st0 & E0 & H0 & He0 & HB0); [lia|].
  destruct (passes_A_after weight c (Z.to_N (iterations c + 1)) st0)
    as (st & E & _ & Hd); auto; try lia.
  destruct (Hd Hi) as [EB Ee].
  assert (l1_norm c (st_B st) = Some (B64.of_Z 0)) as En.
  { unfold l1_norm. rewrite l1_norm_zero; [|lia|lia|lia|by rewrite EB].
    cbn [mbind option_bind]. rewrite active_points_square, interior_width by lia.
    rewrite zero_div_of_Z; [done|].
    assert (0 < (n c - 2 * radius c) * (n c - 2 * radius c)) by nia.
    assert ((n c - 2 * radius c) * (n c - 2 * radius c) <= 46340 * 46340)
      by (apply Z.mul_le_mono_nonneg; lia).
    lia. }
  assert (reference_norm c = B64.of_Z (2 * (iterations c + 1))) as Er.
  { unfold reference_norm. rewrite add_of_Z, mul_of_Z by lia. done. }
  exists (st_A st), (st_B st).
  unfold main. rewrite Hcfg, E0. cbn [mbind option_bind].
  rewrite stencil_loop_passes, E by (unfold Int.INT_MAX; lia).
  cbn [mbind option_bind]. rewrite En. cbn [mbind option_bind].
  rewrite Er, far_from_zero by lia.
  rewrite Ee, He0, Z_N_nat. reflexivity.
Qed.

(** [unsupported_radius_fails_verification] at a concrete input. *)
Lemma unsupported_radius_fails_verification_witness :
  exists A B,
    main w_zero argv_r10
    = Some {| stdout := banner ++ echo c_r10
                ++ [Discrepancy "ERROR: L1 norm = " (B64.of_Z 0)
                      " Reference L1 norm = " (B64.of_Z 4)];
              stderr := replicate 2 (not_instantiated 10);
              exit_code := 1; arrays := Some (A, B) |}.
Proof.
  apply (unsupported_radius_fails_verification w_zero argv_r10 c_r10);
    [reflexivity|vm_compute; discriminate|vm_compute; discriminate|reflexivity].
Defined.

(** X11.  The divisor [active_points] of the norm is never zero for an
    accepted configuration, even when the radius check has wrapped around.
    For a radius below [2^30] the check guarantees [2*radius+1 <= n];
    then [active_points] is [(n-2*radius)^2] without wrap-around, which is
    the number of rows times the number of columns of the range the
    stencil is applied to, and the norm loop makes no access outside a [B]
    of [n*n] elements. *)
Theorem norm_divisor_is_positive argv c :
  configure argv = inr c ->
  0 < active_points c
  /\ (radius c < 2 ^ 30 ->
        2 * radius c + 1 <= n c
        /\ active_points c = (n c - 2 * radius c) * (n c - 2 * radius c)
        /\ Z.of_nat (length (rows (interior (radius c) (n c)))) = n c - 2 * radius c
        /\ Z.of_nat (length (cols (interior (radius c) (n c)))) = n c - 2 * radius c
        /\ forall B : vec, Z.of_nat (length B) = n c * n c -> is_Some (l1_norm c B)).
Proof.
  intros Hcfg. pose proof (configure_accepted _ _ Hcfg) as Hacc.
  pose proof Hacc as (Hit & Hn & Hr & Hfit & Hc).
  assert (radius c <= Int.INT_MAX) as Hmax.
  { rewrite Hc. cbn [radius]. unfold resolve_radius.
    destruct (_ >? 5); [apply atoi_in_range|done]. }
  unfold Int.INT_MAX in Hmax.
  rewrite active_points_square.
  destruct (Z.lt_ge_cases (radius c) (2 ^ 30)) as [Hs|Hl].
  - rewrite mul_small, add_small in Hfit
      by (unfold Int.in_range, Int.INT_MIN, Int.INT_MAX; lia).
    rewrite interior_width by lia. split; [nia|]. intros _.
    split_and!; [done|done| | |].
    + unfold rows, interior. cbn [rows_begin rows_end].
      rewrite sub_small by (unfold Int.in_range, Int.INT_MIN, Int.INT_MAX; lia).
      rewrite length_seqZ. lia.
    + unfold cols, interior. cbn [cols_begin cols_end].
      rewrite sub_small by (unfold Int.in_range, Int.INT_MIN, Int.INT_MAX; lia).
      rewrite length_seqZ. lia.
    + intros B HB. apply StencilTheorems.l1_norm_Some; (done || lia).
  - split; [|lia].
    assert (Int.sub (n c) (Int.mul 2 (radius c)) <> 0) as Hne.
    { unfold Int.sub, Int.mul, Int.wrap.
      replace (2 * radius c + 2 ^ 31) with (2 * radius c - 2 ^ 31 + 1 * 2 ^ 32) by lia.
      rewrite Z_mod_plus_full, (Z.mod_small (2 * radius c - 2 ^ 31)) by lia.
      destruct (Z.le_gt_cases (2 ^ 31) (n c - (2 * radius c - 2 ^ 31 - 2 ^ 31) + 2 ^ 31 - 2 ^ 32)) as [Hb|Hb].
      + replace (n c - (2 * radius c - 2 ^ 31 - 2 ^ 31) + 2 ^ 31)
          with (n c - 2 * radius c + 2 ^ 31 + 1 * 2 ^ 32) by lia.
        rewrite Z_mod_plus_full.
        replace (n c - 2 * radius c + 2 ^ 31)
          with (n c - 2 * radius c + 2 ^ 31 + 2 ^ 32 + (-1) * 2 ^ 32) by lia.
        rewrite Z_mod_plus_full, Z.mod_small; lia.
      + replace (n c - (2 * radius c - 2 ^ 31 - 2 ^ 31) + 2 ^ 31)
          with (n c - 2 * radius c + 2 ^ 31 + 1 * 2 ^ 32) by lia.
        rewrite Z_mod_plus_full.
        destruct (Z.le_gt_cases 0 (n c - 2 * radius c + 2 ^ 31)).
        * rewrite Z.mod_small; lia.
        * replace (n c - 2 * radius c + 2 ^ 31)
            with (n c - 2 * radius c + 2 ^ 31 + 2 ^ 32 + (-1) * 2 ^ 32) by lia.
          rewrite Z_mod_plus_full, Z.mod_small; lia. }
    nia.
Qed.

(** [norm_divisor_is_positive] at a concrete input. *)
Lemma norm_divisor_is_positive_witness :
  0 < active_points c_overflow /\ active_points c_s = 1.
Proof.
  destruct (norm_divisor_is_positive argv_overflow c_overflow) as [H _];
    [reflexivity|].
  destruct (norm_divisor_is_positive argv_s c_s) as [_ H'];
    [reflexivity|].
  destruct H' as (_ & E & _); [reflexivity|].
  split; [exact H|exact E].
Defined.

Lemma grid_cell_of_index n k : 0 < n -> 0 <= k < n * n ->
  in_grid n (k / n, k mod n) /\ k = (k / n) * n + k mod n.
Proof.
  intros Hn Hk. pose proof (Z.mod_pos_bound k n Hn).
  pose proof (Z.div_mod k n ltac:(lia)).
  assert (0 <= k / n) by (apply Z.div_pos; lia).
  assert (k / n < n) by (apply Z.div_lt_upper_bound; lia).
  unfold in_grid; cbn [fst snd]. lia.
Qed.

Lemma vec_eq_grid n (v w : vec) :
  0 < n -> Z.of_nat (length v) = n * n -> Z.of_nat (length w) = n * n ->
  (forall i j, in_grid n (i, j) -> vget v (i * n + j) = vget w (i * n + j)) ->
  v = w.
Proof.
  intros Hn Hv Hw H. apply vec_eq; [lia|]. intros k Hk.
  destruct (grid_cell_of_index n k) as [Hc Ek]; [done|lia|].
  rewrite Ek. by apply H.
Qed.

(** X12.  [ParallelInitialize] on vectors of [n*n] elements, for
    [1 <= n <= 46340], makes no access out of bounds and overwrites every
    element: [A[i*n+j] = i+j] and [B[i*n+j] = 0.0] whatever the vectors
    held before, so that two calls on different contents give the same
    vectors and a second call changes nothing. *)
Theorem initialize_overwrites n tile_size (A1 B1 A2 B2 : vec) :
  0 < n <= 46340 ->
  Z.of_nat (length A1) = n * n -> Z.of_nat (length B1) = n * n ->
  Z.of_nat (length A2) = n * n -> Z.of_nat (length B2) = n * n ->
  exists A B,
    ParallelInitialize n tile_size (A1, B1) = Some (A, B)
    /\ ParallelInitialize n tile_size (A2, B2) = Some (A, B)
    /\ ParallelInitialize n tile_size (A, B) = Some (A, B)
    /\ length A = length A1 /\ length B = length B1
    /\ forall i j, 0 <= i < n -> 0 <= j < n ->
         vget A (i * n + j) = Some (B64.of_Z (i + j))
         /\ vget B (i * n + j) = Some (B64.of_Z 0).
Proof.
  intros Hn HA1 HB1 HA2 HB2.
  destruct (ParallelInitialize_spec n tile_size A1 B1 Hn HA1 HB1)
    as (A & B & E1 & LA & LB & H1).
  destruct (ParallelInitialize_spec n tile_size A2 B2 Hn HA2 HB2)
    as (A' & B' & E2 & LA' & LB' & H2).
  destruct (ParallelInitialize_spec n tile_size A B Hn)
    as (A'' & B'' & E3 & LA'' & LB'' & H3); [lia|lia|].
  assert (A' = A) as ->.
  { apply (vec_eq_grid n); [lia|lia|lia|]. intros i j Hij.
    destruct (H1 i j Hij) as [-> _]. by destruct (H2 i j Hij) as [-> _]. }
  assert (B' = B) as ->.
  { apply (vec_eq_grid n); [lia|lia|lia|]. intros i j Hij.
    destruct (H1 i j Hij) as [_ ->]. by destruct (H2 i j Hij) as [_ ->]. }
  assert (A'' = A) as ->.
  { apply (vec_eq_grid n); [lia|lia|lia|]. intros i j Hij.
    destruct (H1 i j Hij) as [-> _]. by destruct (H3 i j Hij) as [-> _]. }
  assert (B'' = B) as ->.
  { apply (vec_eq_grid n); [lia|lia|lia|]. intros i j Hij.
    destruct (H1 i j Hij) as [_ ->]. by destruct (H3 i j Hij) as [_ ->]. }
  exists A, B. split_and!; try done. intros i j Hi Hj. by apply H1.
Qed.

(** [initialize_overwrites] at a concrete input. *)
Lemma initialize_overwrites_witness :
  exists A B,
    ParallelInitialize 2 1 (B64.of_Z <$> [9; 9; 9; 9], B64.of_Z <$> [7; 7; 7; 7])
      = Some (A, B)
    /\ ParallelInitialize 2 1 (replicate 4 (B64.of_Z 0), replicate 4 (B64.of_Z 0))
      = Some (A, B)
    /\ vget A 3 = Some (B64.of_Z 2).
Proof.
  destruct (initialize_overwrites 2 1 (B64.of_Z <$> [9; 9; 9; 9])
              (B64.of_Z <$> [7; 7; 7; 7]) (replicate 4 (B64.of_Z 0))
              (replicate 4 (B64.of_Z 0)))
    as (A & B & E1 & E2 & _ & _ & _ & H); [lia|reflexivity..|].
  exists A, B. split_and!; [exact E1|exact E2|].
  apply (H 1 1); lia.
Defined.

(** X13.  With enough arguments, iterations >= 1 and a positive grid
    dimension [n], the program reports "grid dimension too large -
    overflow risk" exactly when [n*n] exceeds [INT_MAX].  When it does not,
    [n*n] and every index [i*n+j] with [0 <= i, j < n] are computed in
    [int] without wrap-around, and the index lies in [0, n*n). *)
Theorem dimension_guard_is_exact argv :
  (3 <= length argv)%nat -> 1 <= Atoi.atoi (arg argv 1) ->
  1 <= Atoi.atoi (arg argv 2) ->
  let n := Atoi.atoi (arg argv 2) in
  (configure argv = inl "ERROR: grid dimension too large - overflow risk"%string
   <-> Int.INT_MAX < n * n)
  /\ (n * n <= Int.INT_MAX ->
        Int.mul n n = n * n
        /\ forall i j, 0 <= i < n -> 0 <= j < n ->
             idx n i j = i * n + j /\ 0 <= i * n + j < n * n).
Proof.
  intros Hlen Hit Hn n. unfold Int.INT_MAX. split.
  - unfold configure. rewrite max_dimension_eq. fold n.
    destruct (Z.ltb_spec (Z.of_nat (length argv)) 3); [lia|].
    destruct (Z.ltb_spec (Atoi.atoi (arg argv 1)) 1); [lia|].
    destruct (Z.ltb_spec n 1); [lia|].
    destruct (Z.gtb_spec n 46340) as [Hg|Hg].
    + split; [intros _|done].
      assert (46341 * 46341 <= n * n) by (apply Z.mul_le_mono_nonneg; lia). lia.
    + assert (n * n <= 46340 * 46340) by (apply Z.mul_le_mono_nonneg; lia).
      split; [|lia]. destruct (_ || _); discriminate.
  - intros Hsq.
    assert (n <= 46340) as Hle.
    { destruct (Z.le_gt_cases n 46340); [done|].
      assert (46341 * 46341 <= n * n) by (apply Z.mul_le_mono_nonneg; lia). lia. }
    split.
    + apply mul_small. unfold Int.in_range, Int.INT_MIN, Int.INT_MAX. lia.
    + intros i j Hi Hj. split; [apply idx_small|apply idx_bound]; lia.
Qed.

(** [dimension_guard_is_exact] at a concrete input. *)
Lemma dimension_guard_is_exact_witness :
  configure ["stencil"; "1"; "46341"]%string
  = inl "ERROR: grid dimension too large - overflow risk"%string.
Proof.
  apply (dimension_guard_is_exact ["stencil"; "1"; "46341"]%string);
    [simpl; lia|vm_compute; discriminate|vm_compute; discriminate|
     vm_compute; reflexivity].
Defined.

(** X14.  Without a radius argument the radius is 2, so a grid
    dimension from 1 to 4 is rejected with "Stencil radius negative or too
    large" (exit code 1, nothing allocated), and a dimension from 5 to
    46340 is accepted with radius 2. *)
Theorem default_radius_needs_five weight argv :
  (3 <= length argv <= 5)%nat -> 1 <= Atoi.atoi (arg argv 1) ->
  let n := Atoi.atoi (arg argv 2) in
  (1 <= n <= 4 ->
     configure argv = inl "ERROR: Stencil radius negative or too large"%string
     /\ main weight argv = Some radius_error)
  /\ (5 <= n <= 46340 ->
        configure argv
        = inr {| iterations := Atoi.atoi (arg argv 1); n := n;
                 tile_size := resolve_tile_size argv n;
                 star := resolve_star argv; radius := 2 |}).
Proof.
  intros Hlen Hit n.
  assert (resolve_radius argv = 2) as Hr.
  { unfold resolve_radius. destruct (Z.gtb_spec (Z.of_nat (length argv)) 5); [lia|done]. }
  split.
  - intros Hn. apply StencilTheorems.radius_rejected; lia.
  - intros Hn. unfold configure. rewrite max_dimension_eq, Hr. fold n.
    destruct (Z.ltb_spec (Z.of_nat (length argv)) 3); [lia|].
    destruct (Z.ltb_spec (Atoi.atoi (arg argv 1)) 1); [lia|].
    destruct (Z.ltb_spec n 1); [lia|].
    destruct (Z.gtb_spec n 46340); [lia|].
    change (Int.add (Int.mul 2 2) 1) with 5.
    destruct (Z.gtb_spec 5 n); [lia|]. done.
Qed.

(** [default_radius_needs_five] at a concrete input. *)
Lemma default_radius_needs_five_witness :
  main w_zero ["stencil"; "1"; "4"]%string = Some radius_error.
Proof.
  apply (default_radius_needs_five w_zero ["stencil"; "1"; "4"]%string);
    [simpl; lia|vm_compute; discriminate|vm_compute; split; discriminate].
Defined.

(** X15.  Decimal numerals are read back as the numbers they denote.
    [stencil <its> <n> <tile> <shape> <r>] with [1 <= its <= INT_MAX],
    [1 <= n <= 46340], [1 <= r] and [2*r+1 <= n] is accepted with these
    values, the tile size replaced by [n] when it is outside [1, n] and
    the shape star unless the token is "grid"; [stencil <its> <n>] is
    accepted with tile size 32, star and radius 2 when [n >= 5] and
    rejected for its radius otherwise. *)
Theorem stencil_reads_decimal_arguments prog its dim tile shape r :
  1 <= its <= Int.INT_MAX -> 1 <= dim <= 46340 ->
  Int.INT_MIN <= tile <= Int.INT_MAX -> 1 <= r -> 2 * r + 1 <= dim ->
  configure [prog; pretty its; pretty dim; pretty tile; shape; pretty r]
  = inr {| iterations := its; n := dim;
           tile_size := if (tile <? 1) || (tile >? dim) then dim else tile;
           star := negb (String.eqb shape "grid"); radius := r |}
  /\ configure [prog; pretty its; pretty dim]
     = if dim <? 5
       then inl "ERROR: Stencil radius negative or too large"%string
       else inr {| iterations := its; n := dim; tile_size := 32;
                   star := true; radius := 2 |}.
Proof.
  intros Hit Hn Ht Hr Hfit. unfold Int.INT_MAX, Int.INT_MIN in *.
  unfold configure, resolve_tile_size, resolve_star, resolve_radius.
  rewrite max_dimension_eq. cbn [length arg nth].
  rewrite !AtoiFacts.atoi_pretty
    by (unfold Int.INT_MAX, Int.INT_MIN; lia).
  split.
  - change (Z.of_nat 6 <? 3) with false. change (Z.of_nat 6 >? 3) with true.
    change (Z.of_nat 6 >? 4) with true. change (Z.of_nat 6 >? 5) with true.
    cbv iota.
    destruct (Z.ltb_spec its 1); [lia|].
    destruct (Z.ltb_spec dim 1); [lia|].
    destruct (Z.gtb_spec dim 46340); [lia|].
    destruct (Z.ltb_spec r 1); [lia|].
    rewrite mul_small, add_small
      by (unfold Int.in_range, Int.INT_MIN, Int.INT_MAX; lia).
    destruct (Z.gtb_spec (2 * r + 1) dim); [lia|].
    cbn [orb]. by destruct (String.eqb shape "grid").
  - change (Z.of_nat 3 <? 3) with false. change (Z.of_nat 3 >? 3) with false.
    change (Z.of_nat 3 >? 4) with false. change (Z.of_nat 3 >? 5) with false.
    cbv iota.
    destruct (Z.ltb_spec its 1); [lia|].
    destruct (Z.ltb_spec dim 1); [lia|].
    destruct (Z.gtb_spec dim 46340); [lia|].
    change (Int.add (Int.mul 2 2) 1) with 5. cbn [orb Z.ltb Z.compare].
    destruct (Z.gtb_spec 5 dim), (Z.ltb_spec dim 5); (done || lia).
Qed.

(** [stencil_reads_decimal_arguments] at a concrete input. *)
Lemma stencil_reads_decimal_arguments_witness :
  configure ["stencil"; "10"; "1000"; "32"; "grid"; "4"]%string
  = inr {| iterations := 10; n := 1000; tile_size := 32; star := false;
           radius := 4 |}.
Proof.
  apply (stencil_reads_decimal_arguments "stencil" 10 1000 32 "grid" 4);
    vm_compute; (discriminate || (split; discriminate)).
Defined.

(** X16.  The radius check of line 197, with a radius argument and
    otherwise acceptable arguments.  For [1 <= radius < 2^30] the
    configuration is accepted exactly when [2*radius+1 <= n].  For
    [radius >= 2^30] the sum [2*radius+1] is negative in [int] and every
    such radius is accepted, although [2*radius+1 > n]. *)
Theorem radius_check_wraps argv :
  (6 <= length argv)%nat -> 1 <= Atoi.atoi (arg argv 1) ->
  1 <= Atoi.atoi (arg argv 2) <= 46340 ->
  let r := Atoi.atoi (arg argv 5) in
  let dim := Atoi.atoi (arg argv 2) in
  (1 <= r < 2 ^ 30 ->
     (exists c, configure argv = inr c) <-> 2 * r + 1 <= dim)
  /\ (2 ^ 30 <= r ->
        2 * r + 1 > dim
        /\ Int.add (Int.mul 2 r) 1 < 0
        /\ configure argv
           = inr {| iterations := Atoi.atoi (arg argv 1); n := dim;
                    tile_size := resolve_tile_size argv dim;
                    star := resolve_star argv; radius := r |}).
Proof.
  intros Hlen Hit Hn r dim.
  assert (resolve_radius argv = r) as Hr.
  { unfold resolve_radius.
    destruct (Z.gtb_spec (Z.of_nat (length argv)) 5); [done|lia]. }
  pose proof (atoi_in_range (arg argv 5)) as [_ Hmax]. fold r in Hmax.
  unfold Int.INT_MAX in Hmax.
  assert (configure argv
    = if (r <? 1) || (Int.add (Int.mul 2 r) 1 >? dim)
      then inl "ERROR: Stencil radius negative or too large"%string
      else inr {| iterations := Atoi.atoi (arg argv 1); n := dim;
                  tile_size := resolve_tile_size argv dim;
                  star := resolve_star argv; radius := r |}) as Hcfg.
  { unfold configure. rewrite max_dimension_eq, Hr. fold dim.
    destruct (Z.ltb_spec (Z.of_nat (length argv)) 3); [lia|].
    destruct (Z.ltb_spec (Atoi.atoi (arg argv 1)) 1); [lia|].
    destruct (Z.ltb_spec dim 1); [lia|].
    destruct (Z.gtb_spec dim 46340); [lia|]. done. }
  rewrite Hcfg. split.
  - intros Hs.
    rewrite mul_small, add_small
      by (unfold Int.in_range, Int.INT_MIN, Int.INT_MAX; lia).
    destruct (Z.ltb_spec r 1); [lia|]. cbn [orb].
    destruct (Z.gtb_spec (2 * r + 1) dim); split; try lia.
    + intros [c Hc]. discriminate.
    + intros _. by eexists.
  - intros Hl.
    assert (Int.add (Int.mul 2 r) 1 = 2 * r + 1 - 2 ^ 32) as Ew.
    { unfold Int.add, Int.mul, Int.wrap.
      replace (2 * r + 2 ^ 31) with (2 * r - 2 ^ 31 + 1 * 2 ^ 32) by lia.
      rewrite Z_mod_plus_full, (Z.mod_small (2 * r - 2 ^ 31)) by lia.
      replace (2 * r - 2 ^ 31 - 2 ^ 31 + 1 + 2 ^ 31)
        with (2 * r - 2 ^ 31 + 1) by lia.
      rewrite Z.mod_small by lia. lia. }
    rewrite Ew. split_and!; [lia|lia|].
    destruct (Z.ltb_spec r 1); [lia|].
    destruct (Z.gtb_spec (2 * r + 1 - 2 ^ 32) dim); [lia|done].
Qed.

(** [radius_check_wraps] at a concrete input. *)
Lemma radius_check_wraps_witness :
  configure ["stencil"; "3"; "100"; "10"; "star"; "2000000000"]%string
  = inr {| iterations := 3; n := 100; tile_size := 10; star := true;
           radius := 2000000000 |}.
Proof.
  apply (radius_check_wraps
           ["stencil"; "3"; "100"; "10"; "star"; "2000000000"]%string);
    [simpl; lia|vm_compute; discriminate|vm_compute; split; discriminate|
     vm_compute; discriminate].
Defined.
End StencilProperties.

(** ** Arguments that are not numbers *)

Module CommandLine.
Import Prog.

(** X17.  An iteration argument that starts with a character other
    than white space, a sign or a digit is read as 0 by [std::atoi], and
    both programs then print "ERROR: iterations must be >= 1" after the
    banner and return 1 without allocating anything. *)
Theorem non_numeric_iterations_rejected max_matrix_size weight argv c s :
  (3 <= length argv)%nat -> arg argv 1 = String c s ->
  Atoi.is_space c = false -> Atoi.is_digit c = false ->
  c <> "-"%char -> c <> "+"%char ->
  Atoi.atoi (arg argv 1) = 0
  /\ Transpose.main max_matrix_size argv
     = Some {| stdout := Transpose.banner
                           ++ [Text "ERROR: iterations must be >= 1"];
               stderr := []; exit_code := 1; arrays := None |}
  /\ Stencil.main weight argv
     = Some {| stdout := Stencil.banner
                           ++ [Text "ERROR: iterations must be >= 1"];
               stderr := []; exit_code := 1; arrays := None |}.
Proof.
  intros Hlen E Hs Hd Hm Hp.
  assert (Atoi.atoi (arg argv 1) = 0) as E0.
  { apply AtoiFacts.atoi_no_number. by rewrite E. }
  split; [done|].
  unfold Transpose.main, Transpose.configure, Stencil.main, Stencil.configure.
  rewrite E0.
  destruct (Z.ltb_spec (Z.of_nat (length argv)) 3); [lia|]. done.
Qed.

(** [non_numeric_iterations_rejected] at a concrete input. *)
Lemma non_numeric_iterations_rejected_witness :
  Atoi.atoi (arg ["transpose"; "ten"; "100"]%string 1) = 0
  /\ Transpose.main 46340 ["transpose"; "ten"; "100"]%string
     = Some {| stdout := Transpose.banner
                           ++ [Text "ERROR: iterations must be >= 1"];
               stderr := []; exit_code := 1; arrays := None |}
  /\ Stencil.main StencilSpec.w_zero ["transpose"; "ten"; "100"]%string
     = Some {| stdout := Stencil.banner
                           ++ [Text "ERROR: iterations must be >= 1"];
               stderr := []; exit_code := 1; arrays := None |}.
Proof.
  apply (non_numeric_iterations_rejected 46340 StencilSpec.w_zero
           ["transpose"; "ten"; "100"]%string "t"%char "en"%string);
    [simpl; lia|reflexivity|reflexivity|reflexivity|discriminate|discriminate].
Defined.
End CommandLine.

(** ** The counts behind the reported rates *)

Module RateProperties.
Import Prog Rate IntFacts.

(** X18.  For an accepted configuration the byte counts behind the
    transposition rate are computed in [size_t] without wrap-around: one
    matrix has [8 * order^2] bytes, at least 8 and fewer than [2^35], and a
    transposition moves [16 * order^2]. *)
Theorem bytes_do_not_wrap max_matrix_size argv c :
  max_matrix_size <= 46340 -> Transpose.configure max_matrix_size argv = inr c ->
  bytes c = 8 * (Transpose.order c * Transpose.order c)
  /\ bytes_moved c = 16 * (Transpose.order c * Transpose.order c)
  /\ 8 <= bytes c < 2 ^ 35.
Proof.
  intros Hmax Hcfg.
  destruct (TransposeFacts.configure_valid _ _ _ Hmax Hcfg) as (_ & Ho & _).
  assert (1 * 1 <= Transpose.order c * Transpose.order c <= 46340 * 46340) as Hsq
    by (split; apply Z.mul_le_mono_nonneg; lia).
  assert (bytes c = 8 * (Transpose.order c * Transpose.order c)) as E.
  { unfold bytes, Int.size_mul, Int.to_size_t.
    rewrite (Z.mod_small (Transpose.order c)) by lia.
    rewrite (Z.mod_small (Transpose.order c * Transpose.order c)) by lia.
    rewrite Z.mod_small; lia. }
  split_and!; [done| |lia|lia].
  unfold bytes_moved, Int.size_mul. rewrite E, Z.mod_small; lia.
Qed.

(** [bytes_do_not_wrap] at a concrete input. *)
Lemma bytes_do_not_wrap_witness :
  bytes {| Transpose.iterations := 1; Transpose.order := 46340;
           Transpose.tile_size := 46340 |} = 17179164800.
Proof.
  apply (bytes_do_not_wrap 46340 ["transpose"; "1"; "46340"]%string);
    [lia|reflexivity].
Defined.

(** X19.  For an accepted configuration with a radius below [2^30]
    the operation count behind the stencil rate is computed without
    wrap-around: the stencil has [4*radius+1] points (star) or
    [(2*radius+1)^2] points (grid), computed in [int], and one iteration
    makes [(2*stencil_size+1) * (n-2*radius)^2] floating point operations,
    at least 11 and fewer than [2^64]. *)
Theorem flops_do_not_wrap argv c :
  Stencil.configure argv = inr c -> Stencil.radius c < 2 ^ 30 ->
  let r := Stencil.radius c in
  let w := Stencil.n c - 2 * r in
  stencil_size c = (if Stencil.star c then 4 * r + 1 else (2 * r + 1) * (2 * r + 1))
  /\ flops c = (2 * stencil_size c + 1) * (w * w)
  /\ 11 <= flops c < 2 ^ 64.
Proof.
  intros Hcfg Hs r w.
  pose proof (StencilFacts.configure_accepted _ _ Hcfg) as (_ & Hn & Hr & Hfit & _).
  fold r in Hr, Hfit.
  rewrite mul_small, add_small in Hfit
    by (unfold Int.in_range, Int.INT_MIN, Int.INT_MAX; lia).
  assert (1 * 1 <= w * w <= 46340 * 46340) as Hw
    by (unfold w; split; apply Z.mul_le_mono_nonneg; lia).
  assert (3 * 3 <= (2 * r + 1) * (2 * r + 1) <= 46340 * 46340) as Hg
    by (split; apply Z.mul_le_mono_nonneg; lia).
  assert (stencil_size c
          = if Stencil.star c then 4 * r + 1 else (2 * r + 1) * (2 * r + 1)) as Es.
  { unfold stencil_size, Int.to_size_t. fold r. destruct (Stencil.star c).
    - rewrite mul_small, add_small
        by (unfold Int.in_range, Int.INT_MIN, Int.INT_MAX; lia).
      apply Z.mod_small. lia.
    - rewrite (mul_small 2), add_small
        by (unfold Int.in_range, Int.INT_MIN, Int.INT_MAX; lia).
      rewrite mul_small by (unfold Int.in_range, Int.INT_MIN, Int.INT_MAX; lia).
      apply Z.mod_small. lia. }
  assert (5 <= stencil_size c <= 46340 * 46340) as Hb.
  { rewrite Es. destruct (Stencil.star c); lia. }
  assert (Stencil.active_points c = w * w) as Ea.
  { unfold Stencil.active_points. fold r.
    rewrite mul_small, sub_small
      by (unfold Int.in_range, Int.INT_MIN, Int.INT_MAX; lia).
    fold w. unfold Int.to_size_t, Int.size_mul.
    rewrite (Z.mod_small w) by lia. apply Z.mod_small. lia. }
  assert ((2 * stencil_size c + 1) * (w * w)
          <= (2 * (46340 * 46340) + 1) * (46340 * 46340)) as Hp
    by (apply Z.mul_le_mono_nonneg; lia).
  assert (11 * 1 <= (2 * stencil_size c + 1) * (w * w)) as Hp'
    by (apply Z.mul_le_mono_nonneg; lia).
  assert (flops c = (2 * stencil_size c + 1) * (w * w)) as Ef.
  { unfold flops, Int.size_mul, Int.to_size_t. rewrite Ea.
    rewrite (Z.mod_small (2 * stencil_size c)) by lia.
    rewrite (Z.mod_small (2 * stencil_size c + 1)) by lia.
    apply Z.mod_small. lia. }
  split_and!; [done|done|lia|lia].
Qed.

(** [flops_do_not_wrap] at a concrete input. *)
Lemma flops_do_not_wrap_witness :
  flops StencilSpec.c_s = 19.
Proof.
  apply (flops_do_not_wrap StencilSpec.argv_s StencilSpec.c_s);
    reflexivity.
Defined.
End RateProperties.
